(** * A shallow embedding of the chess rules engine (ChessEngine.py) and
      of the loop that drives it (ChessMain.py)

    The engine keeps an 8x8 board of two-character cell codes, a turn flag,
    a move log used as an undo stack, and the two king squares.  Python
    lists are modelled as Rocq lists indexed the way Python indexes them
    (negative indices count from the end, anything else out of range raises
    IndexError); a raised exception is the [None] of the option monad. *)

From Stdlib Require Import ZArith Lia Bool.
From stdpp Require Import base tactics option list sorting strings gmap.

Local Open Scope Z_scope.

(** ** Cells *)

Inductive color := White | Black.
Inductive kind := Pawn | Rook | Knight | Bishop | Queen | King.

(** A cell is the code ["--"] or a colour letter followed by a kind letter. *)
Inductive cell :=
| Empty
| Piece (c : color) (k : kind).

#[global] Instance color_eq_dec : EqDecision color.
Proof. solve_decision. Defined.
#[global] Instance kind_eq_dec : EqDecision kind.
Proof. solve_decision. Defined.
#[global] Instance cell_eq_dec : EqDecision cell.
Proof. solve_decision. Defined.

(** [cell[0]]: the colour letter, with [None] for the ['-'] of an empty cell. *)
Definition colorOf (p : cell) : option color :=
  match p with
  | Empty => None
  | Piece c _ => Some c
  end.

Definition opposite (c : color) : color :=
  match c with White => Black | Black => White end.

(** ** Python list indexing *)

Definition py_index (len : nat) (i : Z) : option nat :=
  if bool_decide (0 <= i < Z.of_nat len) then Some (Z.to_nat i)
  else if bool_decide (- Z.of_nat len <= i < 0) then Some (Z.to_nat (Z.of_nat len + i))
  else None.

(** [l[i]] *)
Definition py_get {A} (l : list A) (i : Z) : option A :=
  k ← py_index (length l) i; l !! k.

(** [l[i] = v] *)
Definition py_set {A} (l : list A) (i : Z) (v : A) : option (list A) :=
  k ← py_index (length l) i; Some (<[k:=v]> l).

Abbreviation Board := (list (list cell)).

(** [board[r][c]] *)
Definition board_get (b : Board) (r c : Z) : option cell :=
  row ← py_get b r; py_get row c.

(** [board[r][c] = v]: the row object is fetched, then updated in place. *)
Definition board_set (b : Board) (r c : Z) (v : cell) : option Board :=
  row ← py_get b r;
  row' ← py_set row c v;
  py_set b r row'.

(** ** Moves *)

Record Move := mkMove {
  startRow : Z;
  startCol : Z;
  endRow : Z;
  endCol : Z;
  pieceMoved : cell;
  pieceCaptured : cell;
  moveID : Z
}.

#[global] Instance Move_eq_dec : EqDecision Move.
Proof. solve_decision. Defined.

(** [Move.__init__(startSq, endSq, board)] *)
Definition Move_init (startSq endSq : Z * Z) (board : Board) : option Move :=
  let sr := startSq.1 in
  let sc := startSq.2 in
  let er := endSq.1 in
  let ec := endSq.2 in
  pm ← board_get board sr sc;
  pc ← board_get board er ec;
  Some (mkMove sr sc er ec pm pc (sr * 1000 + sc * 100 + er * 10 + ec)).

(** [Move.__eq__] between two moves. *)
Definition Move_eq (a b : Move) : bool := bool_decide (moveID a = moveID b).

(** The class attributes of [Move] and its notation methods. *)

(** A dict display or comprehension: the pairs are entered in order, a
    later pair replacing an earlier one with the same key. *)
Definition py_dict `{Countable K} {V} (items : list (K * V)) : gmap K V :=
  list_to_map (reverse items).

Definition ranksToRows_items : list (string * Z) :=
  [("1", 7); ("2", 6); ("3", 5); ("4", 4); ("5", 3); ("6", 2); ("7", 1);
   ("8", 0)]%string.
Definition filesToCols_items : list (string * Z) :=
  [("a", 0); ("b", 1); ("c", 2); ("d", 3); ("e", 4); ("f", 5); ("g", 6);
   ("h", 7)]%string.

Definition ranksToRows : gmap string Z := py_dict ranksToRows_items.
Definition filesToCols : gmap string Z := py_dict filesToCols_items.

(** [{value: key for key, value in d.items()}] *)
Definition rowsToRanks : gmap Z string :=
  py_dict ((λ kv : string * Z, (kv.2, kv.1)) <$> ranksToRows_items).
Definition colsToFiles : gmap Z string :=
  py_dict ((λ kv : string * Z, (kv.2, kv.1)) <$> filesToCols_items).

(** [getRankFile]: a missing key raises KeyError. *)
Definition getRankFile (row col : Z) : option string :=
  file ← colsToFiles !! col;
  rank ← rowsToRanks !! row;
  Some (file +:+ rank).

(** [getChessNotation] *)
Definition getChessNotation (m : Move) : option string :=
  a ← getRankFile (startRow m) (startCol m);
  b ← getRankFile (endRow m) (endCol m);
  Some (a +:+ b).

(** ** Game state *)

Record GameState := mkGameState {
  board : Board;
  whiteToMove : bool;
  moveLog : list Move;
  whiteKingLocation : Z * Z;
  blackKingLocation : Z * Z;
  checkMate : bool;
  staleMate : bool
}.

Definition wR := Piece White Rook.
Definition wN := Piece White Knight.
Definition wB := Piece White Bishop.
Definition wQ := Piece White Queen.
Definition wK := Piece White King.
Definition wp := Piece White Pawn.
Definition bR := Piece Black Rook.
Definition bN := Piece Black Knight.
Definition bB := Piece Black Bishop.
Definition bQ := Piece Black Queen.
Definition bK := Piece Black King.
Definition bp := Piece Black Pawn.
Notation "'__'" := Empty (only parsing).

(** [GameState.__init__] *)
Definition initBoard : Board :=
  [ [bR; bN; bB; bQ; bK; bB; bN; bR];
    [bp; bp; bp; bp; bp; bp; bp; bp];
    [__; __; __; __; __; __; __; __];
    [__; __; __; __; __; __; __; __];
    [__; __; __; __; __; __; __; __];
    [__; __; __; __; __; __; __; __];
    [wp; wp; wp; wp; wp; wp; wp; wp];
    [wR; wN; wB; wQ; wK; wB; wN; wR] ].

Definition init : GameState :=
  {| board := initBoard;
     whiteToMove := true;
     moveLog := [];
     whiteKingLocation := (7, 4);
     blackKingLocation := (0, 4);
     checkMate := false;
     staleMate := false |}.

Definition setBoard (b : Board) (s : GameState) : GameState :=
  mkGameState b (whiteToMove s) (moveLog s) (whiteKingLocation s)
    (blackKingLocation s) (checkMate s) (staleMate s).

(** [self.whiteToMove = not self.whiteToMove] *)
Definition flipTurn (s : GameState) : GameState :=
  mkGameState (board s) (negb (whiteToMove s)) (moveLog s) (whiteKingLocation s)
    (blackKingLocation s) (checkMate s) (staleMate s).

(** [makeMove] *)
Definition makeMove (s : GameState) (move : Move) : option GameState :=
  b1 ← board_set (board s) (startRow move) (startCol move) Empty;
  b2 ← board_set b1 (endRow move) (endCol move) (pieceMoved move);
  Some {| board := b2;
          whiteToMove := negb (whiteToMove s);
          moveLog := moveLog s ++ [move];
          whiteKingLocation :=
            if decide (pieceMoved move = wK) then (endRow move, endCol move)
            else whiteKingLocation s;
          blackKingLocation :=
            if decide (pieceMoved move = wK) then blackKingLocation s
            else if decide (pieceMoved move = bK) then (endRow move, endCol move)
            else blackKingLocation s;
          checkMate := checkMate s;
          staleMate := staleMate s |}.

(** [undoMove] *)
Definition undoMove (s : GameState) : option GameState :=
  match last (moveLog s) with
  | None => Some s
  | Some move =>
    b1 ← board_set (board s) (startRow move) (startCol move) (pieceMoved move);
    b2 ← board_set b1 (endRow move) (endCol move) (pieceCaptured move);
    Some {| board := b2;
            whiteToMove := negb (whiteToMove s);
            moveLog := removelast (moveLog s);
            whiteKingLocation :=
              if decide (pieceMoved move = wK) then (startRow move, startCol move)
              else whiteKingLocation s;
            blackKingLocation :=
              if decide (pieceMoved move = wK) then blackKingLocation s
              else if decide (pieceMoved move = bK) then (startRow move, startCol move)
              else blackKingLocation s;
            checkMate := checkMate s;
            staleMate := staleMate s |}
  end.

(** ** Pseudo-legal move generators

    Each generator reads the board and the turn flag and appends to the
    accumulator [moves]; none of them writes to the game state. *)

(** [moves.append(Move((row, col), (er, ec), self.board))] *)
Definition appendMove (b : Board) (row col er ec : Z) (moves : list Move)
  : option (list Move) :=
  m ← Move_init (row, col) (er, ec) b; Some (moves ++ [m]).

(** The four statements of one colour's branch of [getPawnMoves]; [dr] is
    [-1] for white and [+1] for black, [home] the starting rank and [enemy]
    the colour letter compared against. *)
Definition pawnBranch (b : Board) (dr home : Z) (enemy : color)
    (row col : Z) (moves : list Move) : option (list Move) :=
  ahead ← board_get b (row + dr) col;
  moves ←
    (if decide (ahead = Empty) then
       moves ← appendMove b row col (row + dr) col moves;
       if bool_decide (row = home) then
         ahead2 ← board_get b (row + 2 * dr) col;
         if decide (ahead2 = Empty)
         then appendMove b row col (row + 2 * dr) col moves
         else Some moves
       else Some moves
     else Some moves);
  moves ←
    (if bool_decide (col - 1 >= 0) then
       target ← board_get b (row + dr) (col - 1);
       if decide (colorOf target = Some enemy)
       then appendMove b row col (row + dr) (col - 1) moves
       else Some moves
     else Some moves);
  if bool_decide (col + 1 <= 7) then
    target ← board_get b (row + dr) (col + 1);
    if decide (colorOf target = Some enemy)
    then appendMove b row col (row + dr) (col + 1) moves
    else Some moves
  else Some moves.

Definition getPawnMoves (s : GameState) (row col : Z) (moves : list Move)
  : option (list Move) :=
  if whiteToMove s
  then pawnBranch (board s) (-1) 6 Black row col moves
  else pawnBranch (board s) 1 1 White row col moves.

Definition inBounds (r c : Z) : bool :=
  bool_decide (0 <= r < 8) && bool_decide (0 <= c < 8).

(** The inner [for i in range(1, 8)] loop of the rook and bishop generators
    (the two loop bodies are the same text); leaving the recursion is the
    [break]. *)
Fixpoint slide (b : Board) (enemyColor : color) (row col : Z) (d : Z * Z)
    (steps : list Z) (moves : list Move) : option (list Move) :=
  match steps with
  | [] => Some moves
  | i :: rest =>
    let endRow := row + d.1 * i in
    let endCol := col + d.2 * i in
    if inBounds endRow endCol then
      endPiece ← board_get b endRow endCol;
      if decide (endPiece = Empty) then
        moves ← appendMove b row col endRow endCol moves;
        slide b enemyColor row col d rest moves
      else if decide (colorOf endPiece = Some enemyColor) then
        appendMove b row col endRow endCol moves
      else Some moves
    else Some moves
  end.

(** [range(1, 8)] *)
Definition range_1_8 : list Z := [1; 2; 3; 4; 5; 6; 7].

(** The outer [for d in directions] loop. *)
Fixpoint slideAll (b : Board) (enemyColor : color) (row col : Z)
    (directions : list (Z * Z)) (moves : list Move) : option (list Move) :=
  match directions with
  | [] => Some moves
  | d :: rest =>
    moves ← slide b enemyColor row col d range_1_8 moves;
    slideAll b enemyColor row col rest moves
  end.

Definition rookDirections : list (Z * Z) := [(-1, 0); (0, -1); (1, 0); (0, 1)].
Definition bishopDirections : list (Z * Z) := [(-1, -1); (-1, 1); (1, -1); (1, 1)].

Definition getRookMoves (s : GameState) (row col : Z) (moves : list Move)
  : option (list Move) :=
  let enemyColor := if whiteToMove s then Black else White in
  slideAll (board s) enemyColor row col rookDirections moves.

Definition getBishopMoves (s : GameState) (row col : Z) (moves : list Move)
  : option (list Move) :=
  let enemyColor := if whiteToMove s then Black else White in
  slideAll (board s) enemyColor row col bishopDirections moves.

Definition getQueenMoves (s : GameState) (row col : Z) (moves : list Move)
  : option (list Move) :=
  moves ← getRookMoves s row col moves;
  getBishopMoves s row col moves.

(** The loop shared in shape by the knight and king generators: one step
    per offset, kept when on the board and not of the mover's colour. *)
Fixpoint stepAll (b : Board) (allyColor : color) (row col : Z)
    (offsets : list (Z * Z)) (moves : list Move) : option (list Move) :=
  match offsets with
  | [] => Some moves
  | m :: rest =>
    let endRow := row + m.1 in
    let endCol := col + m.2 in
    moves ←
      (if inBounds endRow endCol then
         endPiece ← board_get b endRow endCol;
         if decide (colorOf endPiece ≠ Some allyColor)
         then appendMove b row col endRow endCol moves
         else Some moves
       else Some moves);
    stepAll b allyColor row col rest moves
  end.

Definition knightMoves : list (Z * Z) :=
  [(-2, -1); (-2, 1); (-1, -2); (-1, 2); (1, -2); (1, 2); (2, -1); (2, 1)].

Definition kingMoves : list (Z * Z) :=
  [(-1, -1); (-1, 0); (-1, 1); (0, -1); (0, 1); (1, -1); (1, 0); (1, 1)].

Definition getKnightMoves (s : GameState) (row col : Z) (moves : list Move)
  : option (list Move) :=
  let allyColor := if whiteToMove s then White else Black in
  stepAll (board s) allyColor row col knightMoves moves.

Definition getKingMoves (s : GameState) (row col : Z) (moves : list Move)
  : option (list Move) :=
  let allyColor := if whiteToMove s then White else Black in
  stepAll (board s) allyColor row col kingMoves moves.

(** [self.moveFunctions[piece]] *)
Definition moveFunctions (k : kind)
  : GameState → Z → Z → list Move → option (list Move) :=
  match k with
  | Pawn => getPawnMoves
  | Rook => getRookMoves
  | Knight => getKnightMoves
  | Bishop => getBishopMoves
  | Queen => getQueenMoves
  | King => getKingMoves
  end.

(** The body of the two nested loops of [getAllPossibleMoves] at one square. *)
Definition visitSquare (s : GameState) (row col : Z) (moves : list Move)
  : option (list Move) :=
  p ← board_get (board s) row col;
  match p with
  | Piece c k =>
    if bool_decide (c = White) && whiteToMove s
       || bool_decide (c = Black) && negb (whiteToMove s)
    then moveFunctions k s row col moves
    else Some moves
  | Empty => Some moves
  end.

Fixpoint visitCols (s : GameState) (row : Z) (cols : list Z) (moves : list Move)
  : option (list Move) :=
  match cols with
  | [] => Some moves
  | col :: rest =>
    moves ← visitSquare s row col moves; visitCols s row rest moves
  end.

(** [range(n)] *)
Definition range (n : nat) : list Z := Z.of_nat <$> seq 0 n.

Fixpoint visitRows (s : GameState) (rows : list Z) (moves : list Move)
  : option (list Move) :=
  match rows with
  | [] => Some moves
  | row :: rest =>
    r ← py_get (board s) row;
    moves ← visitCols s row (range (length r)) moves;
    visitRows s rest moves
  end.

(** [getAllPossibleMoves] *)
Definition getAllPossibleMoves (s : GameState) : option (list Move) :=
  visitRows s (range (length (board s))) [].

(** The [for move in oppMoves] loop of [squareUnderAttack]. *)
Fixpoint anyEndsAt (oppMoves : list Move) (row col : Z) : bool :=
  match oppMoves with
  | [] => false
  | move :: rest =>
    if bool_decide (endRow move = row) && bool_decide (endCol move = col)
    then true
    else anyEndsAt rest row col
  end.

(** [squareUnderAttack]: the result and the state it leaves. *)
Definition squareUnderAttack (s : GameState) (row col : Z)
  : option (bool * GameState) :=
  let s1 := flipTurn s in
  oppMoves ← getAllPossibleMoves s1;
  let s2 := flipTurn s1 in
  Some (anyEndsAt oppMoves row col, s2).

(** [inCheck] *)
Definition inCheck (s : GameState) : option (bool * GameState) :=
  if whiteToMove s
  then squareUnderAttack s (whiteKingLocation s).1 (whiteKingLocation s).2
  else squareUnderAttack s (blackKingLocation s).1 (blackKingLocation s).2.

(** [moves.remove(x)]: drops the first element equal to [x] under
    [Move.__eq__]; ValueError when there is none. *)
Fixpoint py_remove (x : Move) (moves : list Move) : option (list Move) :=
  match moves with
  | [] => None
  | y :: rest =>
    if Move_eq y x then Some rest
    else rest' ← py_remove x rest; Some (y :: rest')
  end.

(** The filtering loop of [getValidMoves], over the indices
    [range(len(moves) - 1, -1, -1)] computed before the first iteration. *)
Fixpoint filterLoop (idxs : list Z) (s : GameState) (moves : list Move)
  : option (GameState * list Move) :=
  match idxs with
  | [] => Some (s, moves)
  | i :: rest =>
    mi ← py_get moves i;
    s ← makeMove s mi;
    let s := flipTurn s in
    '(chk, s) ← inCheck s;
    moves ←
      (if chk : bool then mi ← py_get moves i; py_remove mi moves
       else Some moves);
    let s := flipTurn s in
    s ← undoMove s;
    filterLoop rest s moves
  end.

(** [range(n - 1, -1, -1)] *)
Definition range_down (n : nat) : list Z := reverse (range n).

Definition setFlags (cm sm : bool) (s : GameState) : GameState :=
  mkGameState (board s) (whiteToMove s) (moveLog s) (whiteKingLocation s)
    (blackKingLocation s) cm sm.

(** [getValidMoves]: the returned list and the state it leaves. *)
Definition getValidMoves (s : GameState) : option (list Move * GameState) :=
  moves ← getAllPossibleMoves s;
  '(s, moves) ← filterLoop (range_down (length moves)) s moves;
  if bool_decide (length moves = 0%nat) then
    '(chk, s) ← inCheck s;
    if chk : bool then Some (moves, setFlags true (staleMate s) s)
    else Some (moves, setFlags (checkMate s) true s)
  else Some (moves, setFlags false false s).

(** ** The driver loop (ChessMain.py)

    The engine's only caller.  Each pass of [while running] takes the
    events queued since the last pass, handles them one after the other
    against the legal moves it holds, and computes the legal moves again,
    once, when one of them made or undid a move.  [drawGameState],
    [clock.tick] and [display.flip] only read the board and write to the
    screen; they are left out, and with them any failure of theirs. *)

Definition WIDTH : Z := 512.
Definition HEIGHT : Z := 512.
Definition DIMENSION : Z := 8.
Definition SQ_SIZE : Z := HEIGHT `div` DIMENSION.

(** The events as the loop tells them apart: [QUIT], [MOUSEBUTTONDOWN]
    (with what [p.mouse.get_pos()] answers while it is handled), [KEYDOWN]
    of the [z] key, and anything else. *)
Inductive event :=
| Quit
| MouseDown (location : Z * Z)
| KeyZ
| Other.

(** The variables of [main]; [None] is the empty tuple [()]. *)
Module Loop.
Record t := mk {
  gs : GameState;
  validMoves : list Move;
  moveMade : bool;
  running : bool;
  sqSelected : option (Z * Z);
  playerClicks : list (option (Z * Z))
}.
End Loop.

(** [move in validMoves] *)
Definition py_in (move : Move) (validMoves : list Move) : bool :=
  existsb (λ y, Move_eq y move) validMoves.

Definition onBoard (sq : Z * Z) : bool := inBounds sq.1 sq.2.

(** The mouse handler.  Indexing [()] raises IndexError. *)
Definition mouseDown (location : Z * Z) (st : Loop.t) : option Loop.t :=
  let col := location.1 `div` SQ_SIZE in
  let row := location.2 `div` SQ_SIZE in
  let '(sqSelected, playerClicks) :=
    if decide (Loop.sqSelected st = Some (row, col))
    then (None, [])
    else (Some (row, col), Loop.playerClicks st ++ [Some (row, col)]) in
  if decide (length playerClicks = 2%nat) then
    startSq ← py_get playerClicks 0 ≫= id;
    endSq ← py_get playerClicks 1 ≫= id;
    move ← Move_init startSq endSq (board (Loop.gs st));
    _ ← getChessNotation move;
    if py_in move (Loop.validMoves st) then
      gs ← makeMove (Loop.gs st) move;
      Some (Loop.mk gs (Loop.validMoves st) true (Loop.running st) None [])
    else
      Some (Loop.mk (Loop.gs st) (Loop.validMoves st) (Loop.moveMade st)
              (Loop.running st) sqSelected [sqSelected])
  else
    Some (Loop.mk (Loop.gs st) (Loop.validMoves st) (Loop.moveMade st)
            (Loop.running st) sqSelected playerClicks).

(** The body of [for event in p.event.get()]. *)
Definition handle (st : Loop.t) (e : event) : option Loop.t :=
  match e with
  | Quit =>
    Some (Loop.mk (Loop.gs st) (Loop.validMoves st) (Loop.moveMade st) false
            (Loop.sqSelected st) (Loop.playerClicks st))
  | MouseDown location => mouseDown location st
  | KeyZ =>
    gs ← undoMove (Loop.gs st);
    Some (Loop.mk gs (Loop.validMoves st) true (Loop.running st)
            (Loop.sqSelected st) (Loop.playerClicks st))
  | Other => Some st
  end.

Fixpoint handleAll (events : list event) (st : Loop.t) : option Loop.t :=
  match events with
  | [] => Some st
  | e :: rest => st ← handle st e; handleAll rest st
  end.

(** One pass of the loop body, given what [p.event.get()] returned. *)
Definition frame (events : list event) (st : Loop.t) : option Loop.t :=
  st ← handleAll events st;
  if Loop.moveMade st then
    '(validMoves, gs) ← getValidMoves (Loop.gs st);
    Some (Loop.mk gs validMoves false (Loop.running st) (Loop.sqSelected st)
            (Loop.playerClicks st))
  else Some st.

(** The statements before the loop. *)
Definition start : option Loop.t :=
  '(validMoves, gs) ← getValidMoves init;
  Some (Loop.mk gs validMoves false true None []).

(** [while running], over the event lists of the successive passes. *)
Fixpoint run (frames : list (list event)) (st : Loop.t) : option Loop.t :=
  match frames with
  | [] => Some st
  | events :: rest =>
    if Loop.running st then st ← frame events st; run rest st else Some st
  end.

Definition loop (frames : list (list event)) : option Loop.t :=
  st ← start; run frames st.

(** [main]: what the loop leaves in [gs] and [validMoves]. *)
Definition main (frames : list (list event)) : option (GameState * list Move) :=
  st ← loop frames; Some (Loop.gs st, Loop.validMoves st).

(** A click in the middle of a square, and the two passes in which a player
    clicks one square and then another. *)
Definition click (sq : Z * Z) : event :=
  MouseDown (sq.2 * SQ_SIZE + SQ_SIZE `div` 2, sq.1 * SQ_SIZE + SQ_SIZE `div` 2).

Definition clicks (startSq endSq : Z * Z) : list (list event) :=
  [[click startSq]; [click endSq]].

Definition play (plies : list ((Z * Z) * (Z * Z))) : list (list event) :=
  plies ≫= λ ply, clicks ply.1 ply.2.

(** * Properties *)

(** ** Python indexing on an 8x8 board *)

Definition wfBoard (b : Board) : Prop :=
  length b = 8%nat ∧ Forall (λ r, length r = 8%nat) b.

(** The list position a Python index in [-8, 8) denotes. *)
Definition nidx (i : Z) : nat := Z.to_nat (i mod 8).

Definition pyRange (i : Z) : Prop := -8 <= i < 8.

(** The cell at list positions [i], [j]. *)
Definition cellAt (b : Board) (i j : nat) : option cell :=
  row ← b !! i; row !! j.

Lemma py_index_8 i : pyRange i → py_index 8 i = Some (nidx i).
Proof.
  unfold pyRange, py_index, nidx. intros Hi.
  repeat case_bool_decide; try lia.
  - by rewrite Z.mod_small by lia.
  - f_equal. f_equal.
    rewrite <- (Z.mod_small (Z.of_nat 8 + i) 8) by lia.
    replace (Z.of_nat 8 + i) with (i + 1 * 8) by lia. by rewrite Z.mod_add by lia.
Qed.

Lemma py_index_8_None i : ¬ pyRange i → py_index 8 i = None.
Proof.
  unfold pyRange, py_index. intros Hi. repeat case_bool_decide; try lia; done.
Qed.

Lemma nidx_lt i : (nidx i < 8)%nat.
Proof. unfold nidx. pose proof (Z.mod_pos_bound i 8). lia. Qed.

Lemma nidx_small i : 0 <= i < 8 → nidx i = Z.to_nat i.
Proof. intros. unfold nidx. by rewrite Z.mod_small. Qed.

Lemma wfBoard_row b i row : wfBoard b → b !! i = Some row → length row = 8%nat.
Proof.
  intros [_ Hrows] Hi. rewrite Forall_lookup in Hrows. by eapply Hrows.
Qed.

Lemma board_get_cellAt b r c :
  wfBoard b → pyRange r → pyRange c →
  board_get b r c = cellAt b (nidx r) (nidx c).
Proof.
  intros Hwf Hr Hc. unfold board_get, cellAt, py_get.
  destruct Hwf as [Hlen Hrows]. rewrite Hlen, py_index_8 by done. simpl.
  destruct (b !! nidx r) as [row|] eqn:Hrow; simpl; [|done].
  rewrite Forall_lookup in Hrows. rewrite (Hrows _ _ Hrow).
  by rewrite py_index_8.
Qed.

Lemma board_get_Some_range b r c x :
  wfBoard b → board_get b r c = Some x → pyRange r ∧ pyRange c.
Proof.
  intros Hwf. unfold board_get, py_get. destruct (Hwf) as [Hlen Hrows].
  rewrite Hlen. destruct (decide (pyRange r)) as [Hr|Hr].
  - rewrite py_index_8 by done. simpl.
    destruct (b !! nidx r) as [row|] eqn:Hrow; simpl; [|done].
    rewrite (wfBoard_row _ _ _ Hwf Hrow).
    destruct (decide (pyRange c)) as [Hc|Hc]; [done|].
    by rewrite py_index_8_None.
  - by rewrite py_index_8_None.
Qed.

Lemma cellAt_is_Some b i j :
  wfBoard b → (i < 8)%nat → (j < 8)%nat → is_Some (cellAt b i j).
Proof.
  intros Hwf Hi Hj. unfold cellAt.
  destruct (lookup_lt_is_Some_2 b i) as [row Hrow]; [destruct Hwf; lia|].
  rewrite Hrow. simpl. apply lookup_lt_is_Some_2.
  rewrite (wfBoard_row _ _ _ Hwf Hrow). lia.
Qed.

Lemma board_get_is_Some b r c :
  wfBoard b → pyRange r → pyRange c → is_Some (board_get b r c).
Proof.
  intros. rewrite board_get_cellAt by done.
  apply cellAt_is_Some; auto using nidx_lt.
Qed.

(** Writing one cell: the result, on a well-formed board. *)
Lemma board_set_spec b r c v :
  wfBoard b → pyRange r → pyRange c →
  ∃ b', board_set b r c v = Some b' ∧ wfBoard b' ∧
    ∀ i j, cellAt b' i j =
      if decide (i = nidx r ∧ j = nidx c ∧ (j < 8)%nat) then Some v
      else cellAt b i j.
Proof.
  intros Hwf Hr Hc. unfold board_set, py_get, py_set.
  destruct (Hwf) as [Hlen Hrows]. rewrite Hlen, py_index_8 by done. simpl.
  destruct (lookup_lt_is_Some_2 b (nidx r)) as [row Hrow];
    [pose proof (nidx_lt r); lia|].
  rewrite Hrow. simpl. pose proof (wfBoard_row _ _ _ Hwf Hrow) as Hl.
  rewrite Hl, py_index_8 by done. simpl.
  eexists. split; [done|]. split.
  - split; [by rewrite length_insert|].
    apply Forall_insert; [done|]. by rewrite length_insert.
  - intros i j. unfold cellAt.
    destruct (decide (i = nidx r)) as [->|Hne].
    + rewrite list_lookup_insert_eq by (pose proof (nidx_lt r); lia). simpl.
      rewrite Hrow. simpl.
      destruct (decide (j = nidx c)) as [->|Hne'].
      * rewrite list_lookup_insert_eq by (pose proof (nidx_lt c); lia).
        rewrite decide_True; [done|]. pose proof (nidx_lt c). done.
      * rewrite list_lookup_insert_ne by done.
        rewrite decide_False; [done|]. by intros (_ & ? & _).
    + rewrite list_lookup_insert_ne by done.
      rewrite decide_False; [done|]. by intros (? & _).
Qed.

Lemma board_set_Some_range b r c v b' :
  wfBoard b → board_set b r c v = Some b' → pyRange r ∧ pyRange c.
Proof.
  intros Hwf. unfold board_set, py_get, py_set. destruct (Hwf) as [Hlen Hrows].
  rewrite Hlen. destruct (decide (pyRange r)) as [Hr|Hr].
  - rewrite py_index_8 by done. simpl.
    destruct (b !! nidx r) as [row|] eqn:Hrow; simpl; [|done].
    rewrite (wfBoard_row _ _ _ Hwf Hrow).
    destruct (decide (pyRange c)) as [Hc|Hc]; [done|].
    by rewrite py_index_8_None.
  - by rewrite py_index_8_None.
Qed.

(** Two well-formed boards with the same cells are the same board. *)
Lemma board_ext b b' :
  wfBoard b → wfBoard b' →
  (∀ i j, (i < 8)%nat → (j < 8)%nat → cellAt b i j = cellAt b' i j) →
  b = b'.
Proof.
  intros Hwf Hwf' Hcells. apply list_eq. intros i.
  destruct (decide (i < 8)%nat) as [Hi|Hi].
  - destruct (lookup_lt_is_Some_2 b i) as [row Hrow]; [destruct Hwf; lia|].
    destruct (lookup_lt_is_Some_2 b' i) as [row' Hrow']; [destruct Hwf'; lia|].
    rewrite Hrow, Hrow'. f_equal. apply list_eq. intros j.
    destruct (decide (j < 8)%nat) as [Hj|Hj].
    + specialize (Hcells i j Hi Hj). unfold cellAt in Hcells.
      by rewrite Hrow, Hrow' in Hcells.
    + rewrite !lookup_ge_None_2; [done| |].
      * rewrite (wfBoard_row _ _ _ Hwf' Hrow'). lia.
      * rewrite (wfBoard_row _ _ _ Hwf Hrow). lia.
  - rewrite !lookup_ge_None_2; [done| |]; [destruct Hwf'|destruct Hwf]; lia.
Qed.

Lemma wfBoard_init : wfBoard initBoard.
Proof. split; [done|]. repeat constructor. Qed.

(** ** Making and undoing a move *)

Lemma Move_init_Some startSq endSq b m :
  Move_init startSq endSq b = Some m →
  startRow m = startSq.1 ∧ startCol m = startSq.2 ∧
  endRow m = endSq.1 ∧ endCol m = endSq.2 ∧
  board_get b startSq.1 startSq.2 = Some (pieceMoved m) ∧
  board_get b endSq.1 endSq.2 = Some (pieceCaptured m) ∧
  moveID m = startSq.1 * 1000 + startSq.2 * 100 + endSq.1 * 10 + endSq.2.
Proof.
  unfold Move_init. intros H.
  destruct (board_get b startSq.1 startSq.2) as [pm|]; simpl in H; [|done].
  destruct (board_get b endSq.1 endSq.2) as [pc|]; simpl in H; [|done].
  by inversion H.
Qed.

(** A move whose piece fields are the cells of [b] at its own squares. *)
Definition snapshotOf (b : Board) (m : Move) : Prop :=
  board_get b (startRow m) (startCol m) = Some (pieceMoved m) ∧
  board_get b (endRow m) (endCol m) = Some (pieceCaptured m).

Lemma Move_init_snapshot startSq endSq b m :
  Move_init startSq endSq b = Some m → snapshotOf b m.
Proof.
  intros H. unfold snapshotOf.
  apply Move_init_Some in H as (-> & -> & -> & -> & ? & ? & _).
  by split.
Qed.

(** The king-location field of a king that is about to move names the
    square it moves from. *)
Definition kingAtStart (s : GameState) (m : Move) : Prop :=
  (pieceMoved m = wK → whiteKingLocation s = (startRow m, startCol m)) ∧
  (pieceMoved m = bK → blackKingLocation s = (startRow m, startCol m)).

Lemma makeMove_is_Some s m :
  wfBoard (board s) → snapshotOf (board s) m →
  ∃ s1, makeMove s m = Some s1 ∧ wfBoard (board s1) ∧
    ∀ i j, cellAt (board s1) i j =
      if decide (i = nidx (endRow m) ∧ j = nidx (endCol m) ∧ (j < 8)%nat)
      then Some (pieceMoved m)
      else if decide (i = nidx (startRow m) ∧ j = nidx (startCol m) ∧ (j < 8)%nat)
      then Some Empty
      else cellAt (board s) i j.
Proof.
  intros Hwf [Hpm Hpc].
  apply board_get_Some_range in Hpm as [Hsr Hsc]; [|done].
  apply board_get_Some_range in Hpc as [Her Hec]; [|done].
  destruct (board_set_spec (board s) (startRow m) (startCol m) Empty)
    as (b1 & Hb1 & Hwf1 & Hc1); [done..|].
  destruct (board_set_spec b1 (endRow m) (endCol m) (pieceMoved m))
    as (b2 & Hb2 & Hwf2 & Hc2); [done..|].
  unfold makeMove. rewrite Hb1. simpl. rewrite Hb2. simpl.
  eexists. split; [done|]. simpl. split; [done|].
  intros i j. rewrite Hc2. case_decide; [done|]. by rewrite Hc1.
Qed.

(** Undoing the move just made gives back the state it was made in. *)
Lemma makeMove_undoMove s m s1 :
  wfBoard (board s) → snapshotOf (board s) m → kingAtStart s m →
  makeMove s m = Some s1 → undoMove s1 = Some s.
Proof.
  intros Hwf Hsnap [HwK HbK] Hmake.
  destruct (makeMove_is_Some s m Hwf Hsnap) as (s1' & Hmake' & Hwf1 & Hcells).
  rewrite Hmake in Hmake'. injection Hmake' as <-.
  destruct (Hsnap) as [Hpm Hpc].
  pose proof (board_get_Some_range _ _ _ _ Hwf Hpm) as [Hsr Hsc].
  pose proof (board_get_Some_range _ _ _ _ Hwf Hpc) as [Her Hec].
  rewrite board_get_cellAt in Hpm, Hpc by done.
  assert (moveLog s1 = moveLog s ++ [m] ∧ whiteToMove s1 = negb (whiteToMove s)
          ∧ checkMate s1 = checkMate s ∧ staleMate s1 = staleMate s
          ∧ whiteKingLocation s1 =
              (if decide (pieceMoved m = wK) then (endRow m, endCol m)
               else whiteKingLocation s)
          ∧ blackKingLocation s1 =
              (if decide (pieceMoved m = wK) then blackKingLocation s
               else if decide (pieceMoved m = bK) then (endRow m, endCol m)
               else blackKingLocation s))
    as (Hlog & Hturn & Hcm & Hsm & Hwk & Hbk).
  { unfold makeMove in Hmake.
    destruct (board_set _ _ _ Empty) as [b1|]; simpl in Hmake; [|done].
    destruct (board_set b1 _ _ _) as [b2|]; simpl in Hmake; [|done].
    by injection Hmake as <-. }
  destruct (board_set_spec (board s1) (startRow m) (startCol m) (pieceMoved m))
    as (b3 & Hb3 & Hwf3 & Hc3); [done..|].
  destruct (board_set_spec b3 (endRow m) (endCol m) (pieceCaptured m))
    as (b4 & Hb4 & Hwf4 & Hc4); [done..|].
  unfold undoMove. rewrite Hlog, last_snoc, Hb3. simpl. rewrite Hb4. simpl.
  rewrite removelast_last, Hturn, negb_involutive, Hcm, Hsm, Hwk, Hbk.
  assert (b4 = board s) as ->.
  { apply board_ext; [done..|]. intros i j Hi Hj.
    rewrite Hc4.
    destruct (decide (i = nidx (endRow m) ∧ j = nidx (endCol m) ∧ (j < 8)%nat))
      as [(-> & -> & _)|He]; [done|].
    rewrite Hc3.
    destruct (decide (i = nidx (startRow m) ∧ j = nidx (startCol m) ∧ (j < 8)%nat))
      as [(-> & -> & _)|Hs]; [done|].
    rewrite Hcells. by rewrite !decide_False by done. }
  destruct s as [b w l wk bk cm sm]. simpl in *.
  destruct (decide (pieceMoved m = wK)) as [e|];
    destruct (decide (pieceMoved m = bK)) as [e'|];
    rewrite ?HwK, ?HbK by done; done.
Qed.

(** ** What the generators append *)

Definition endSq (m : Move) : Z * Z := (endRow m, endCol m).

Definition coords (m : Move) : Z * Z * Z * Z :=
  (startRow m, startCol m, endRow m, endCol m).

(** A destination a generator may produce for the colour [ally]: a row in
    -1..7 (the row -1 is the last row read through a negative index), a
    column in 0..7, and a cell there that is not of colour [ally]. *)
Definition goodEnd (b : Board) (ally : color) (e : Z * Z) : Prop :=
  -1 <= e.1 < 8 ∧ 0 <= e.2 < 8 ∧
  ∃ x, board_get b e.1 e.2 = Some x ∧ colorOf x ≠ Some ally.

(** [m] is the move built against [b] from (row, col) to a good destination. *)
Definition fromSq (b : Board) (ally : color) (row col : Z) (m : Move) : Prop :=
  Move_init (row, col) (endSq m) b = Some m ∧ goodEnd b ally (endSq m).

(** [acc'] is [acc] followed by moves from (row, col) whose destinations
    are, in order, some of the candidates [cands]. *)
Definition adds (b : Board) (ally : color) (row col : Z) (cands : list (Z * Z))
    (acc acc' : list Move) : Prop :=
  ∃ new, acc' = acc ++ new ∧ Forall (fromSq b ally row col) new ∧
         sublist (endSq <$> new) cands.

Section Adds.
Context (b : Board) (ally : color) (row col : Z).

Lemma adds_none cands acc : adds b ally row col cands acc acc.
Proof.
  exists []. rewrite app_nil_r. split_and!; [done|constructor|].
  apply sublist_nil_l.
Qed.

Lemma adds_weaken cands cands' acc acc' :
  cands `sublist_of` cands' →
  adds b ally row col cands acc acc' → adds b ally row col cands' acc acc'.
Proof.
  intros Hsub (new & -> & Hnew & Hs). exists new. split_and!; [done..|].
  by etrans.
Qed.

Lemma adds_app cands1 cands2 acc acc1 acc2 :
  adds b ally row col cands1 acc acc1 → adds b ally row col cands2 acc1 acc2 →
  adds b ally row col (cands1 ++ cands2) acc acc2.
Proof.
  intros (new1 & -> & Hnew1 & Hs1) (new2 & -> & Hnew2 & Hs2).
  exists (new1 ++ new2). rewrite app_assoc. split_and!; [done| |].
  - by apply Forall_app.
  - rewrite fmap_app. by apply sublist_app.
Qed.

Lemma adds_one er ec acc acc' :
  appendMove b row col er ec acc = Some acc' → goodEnd b ally (er, ec) →
  adds b ally row col [(er, ec)] acc acc'.
Proof.
  unfold appendMove. intros H Hgood.
  destruct (Move_init (row, col) (er, ec) b) as [m|] eqn:Hm; simpl in H; [|done].
  injection H as <-. exists [m].
  pose proof (Move_init_Some _ _ _ _ Hm) as (_ & _ & Her & Hec & _).
  simpl in Her, Hec.
  assert (endSq m = (er, ec)) as He by (unfold endSq; by rewrite Her, Hec).
  split_and!; [done| |].
  - constructor; [|constructor]. unfold fromSq. by rewrite He.
  - simpl. by rewrite He.
Qed.

Lemma adds_cons e cands acc acc1 acc2 :
  adds b ally row col [e] acc acc1 → adds b ally row col cands acc1 acc2 →
  adds b ally row col (e :: cands) acc acc2.
Proof. apply (adds_app [e]). Qed.

Lemma adds_skip e cands acc acc' :
  adds b ally row col cands acc acc' → adds b ally row col (e :: cands) acc acc'.
Proof. apply adds_weaken. by apply sublist_cons. Qed.

Lemma adds_first e cands acc acc' :
  adds b ally row col [e] acc acc' → adds b ally row col (e :: cands) acc acc'.
Proof. apply adds_weaken. apply sublist_skip, sublist_nil_l. Qed.
End Adds.

Lemma inBounds_range r c : inBounds r c = true → 0 <= r < 8 ∧ 0 <= c < 8.
Proof.
  unfold inBounds. rewrite andb_true_iff, !bool_decide_eq_true. done.
Qed.

Lemma pyRange_of_bounds i : 0 <= i < 8 → pyRange i.
Proof. unfold pyRange. lia. Qed.

(** The candidate destinations of one direction scan. *)
Definition rayCands (row col : Z) (d : Z * Z) (steps : list Z) : list (Z * Z) :=
  (λ i, (row + d.1 * i, col + d.2 * i)) <$> steps.

Lemma slide_adds b ally enemy row col d steps acc acc' :
  enemy ≠ ally →
  slide b enemy row col d steps acc = Some acc' →
  adds b ally row col (rayCands row col d steps) acc acc'.
Proof.
  intros Hne. revert acc. induction steps as [|i rest IH]; intros acc H; simpl in H.
  { injection H as <-. apply adds_none. }
  unfold rayCands. rewrite fmap_cons. fold (rayCands row col d rest).
  destruct (inBounds _ _) eqn:Hin; [|injection H as <-; apply adds_none].
  apply inBounds_range in Hin as [Hr Hc].
  destruct (board_get b _ _) as [p|] eqn:Hp; simpl in H; [|done].
  destruct (decide (p = Empty)) as [->|Hp'].
  - destruct (appendMove _ _ _ _ _ acc) as [acc1|] eqn:Happ; simpl in H; [|done].
    eapply adds_cons; [|by apply IH].
    apply adds_one; [done|]. split_and!; simpl; [lia..|]. by exists Empty.
  - destruct (decide (colorOf p = Some enemy)) as [Hcol|Hcol].
    + apply adds_first, adds_one; [done|]. split_and!; simpl; [lia..|].
      exists p. split; [done|]. rewrite Hcol. congruence.
    + injection H as <-. apply adds_none.
Qed.

(** The candidate destinations of a rook, bishop or queen. *)
Definition slideCands (row col : Z) (directions : list (Z * Z)) : list (Z * Z) :=
  directions ≫= λ d, rayCands row col d range_1_8.

Lemma slideAll_adds b ally enemy row col directions acc acc' :
  enemy ≠ ally →
  slideAll b enemy row col directions acc = Some acc' →
  adds b ally row col (slideCands row col directions) acc acc'.
Proof.
  intros Hne. revert acc.
  induction directions as [|d rest IH]; intros acc H; cbn [slideAll] in H.
  { injection H as <-. apply adds_none. }
  destruct (slide _ _ _ _ _ _ acc) as [acc1|] eqn:Hs; cbn [mbind option_bind] in H;
    [|done].
  unfold slideCands. rewrite bind_cons. apply adds_app with acc1.
  - by eapply slide_adds.
  - by apply IH.
Qed.

(** The candidate destinations of a knight or king. *)
Definition stepCands (row col : Z) (offsets : list (Z * Z)) : list (Z * Z) :=
  (λ o, (row + o.1, col + o.2)) <$> offsets.

Lemma stepAll_adds b ally row col offsets acc acc' :
  stepAll b ally row col offsets acc = Some acc' →
  adds b ally row col (stepCands row col offsets) acc acc'.
Proof.
  revert acc. induction offsets as [|o rest IH]; intros acc H; simpl in H.
  { injection H as <-. apply adds_none. }
  unfold stepCands. rewrite fmap_cons. fold (stepCands row col rest).
  destruct (inBounds _ _) eqn:Hin.
  - apply inBounds_range in Hin as [Hr Hc].
    destruct (board_get b _ _) as [p|] eqn:Hp; simpl in H; [|done].
    destruct (decide (colorOf p ≠ Some ally)) as [Hcol|Hcol].
    + destruct (appendMove _ _ _ _ _ acc) as [acc1|] eqn:Happ; simpl in H; [|done].
      eapply adds_cons; [|by apply IH].
      apply adds_one; [done|]. split_and!; simpl; [lia..|]. by exists p.
    + simpl in H. by apply adds_skip, IH.
  - simpl in H. by apply adds_skip, IH.
Qed.

(** The candidate destinations of a pawn moving in row direction [dr]. *)
Definition pawnCands (dr row col : Z) : list (Z * Z) :=
  [(row + dr, col); (row + 2 * dr, col); (row + dr, col - 1); (row + dr, col + 1)].

Lemma pawnBranch_adds b ally enemy dr home row col acc acc' :
  wfBoard b → enemy ≠ ally → 0 <= row < 8 → 0 <= col < 8 →
  (dr = -1 ∧ home = 6) ∨ (dr = 1 ∧ home = 1) →
  pawnBranch b dr home enemy row col acc = Some acc' →
  adds b ally row col (pawnCands dr row col) acc acc'.
Proof.
  intros Hwf Hne Hrow Hcol Hdr H. unfold pawnBranch in H.
  destruct (board_get b (row + dr) col) as [ahead|] eqn:Hahead; simpl in H; [|done].
  pose proof (board_get_Some_range _ _ _ _ Hwf Hahead) as [Hr1 _].
  unfold pyRange in Hr1.
  assert (-1 <= row + dr < 8) as Hr1' by lia.
  apply bind_Some in H as (acc1 & H1 & H).
  apply bind_Some in H as (acc2 & H2 & H3).
  change (pawnCands dr row col) with
    ([(row + dr, col); (row + 2 * dr, col)] ++ [(row + dr, col - 1)]
       ++ [(row + dr, col + 1)]).
  apply adds_app with acc1; [|apply adds_app with acc2].
  - destruct (decide (ahead = Empty)) as [->|]; [|injection H1 as <-; apply adds_none].
    apply bind_Some in H1 as (acc0 & Ha & H1).
    assert (adds b ally row col [(row + dr, col)] acc acc0) as Hfirst.
    { apply adds_one; [done|]. split_and!; simpl; [lia..|]. by exists Empty. }
    destruct (bool_decide (row = home)) eqn:Hhome.
    + apply bool_decide_eq_true in Hhome.
      apply bind_Some in H1 as (ahead2 & Hahead2 & H1).
      destruct (decide (ahead2 = Empty)) as [->|].
      * eapply adds_cons; [done|]. apply adds_one; [done|].
        split_and!; simpl; [lia..|]. by exists Empty.
      * injection H1 as <-. by apply adds_first.
    + injection H1 as <-. by apply adds_first.
  - destruct (bool_decide (col - 1 >= 0)) eqn:Hc;
      [apply bool_decide_eq_true in Hc|injection H2 as <-; apply adds_none].
    apply bind_Some in H2 as (target & Ht & H2).
    destruct (decide (colorOf target = Some enemy)) as [Hcolor|];
      [|injection H2 as <-; apply adds_none].
    apply adds_one; [done|]. split_and!; simpl; [lia..|].
    exists target. split; [done|]. rewrite Hcolor. congruence.
  - destruct (bool_decide (col + 1 <= 7)) eqn:Hc;
      [apply bool_decide_eq_true in Hc|injection H3 as <-; apply adds_none].
    apply bind_Some in H3 as (target & Ht & H3).
    destruct (decide (colorOf target = Some enemy)) as [Hcolor|];
      [|injection H3 as <-; apply adds_none].
    apply adds_one; [done|]. split_and!; simpl; [lia..|].
    exists target. split; [done|]. rewrite Hcolor. congruence.
Qed.

(** ** The candidate destinations are pairwise distinct *)

Definition shift (row col : Z) (o : Z * Z) : Z * Z := (row + o.1, col + o.2).

#[local] Instance shift_inj row col : Inj (=) (=) (shift row col).
Proof. intros [a1 a2] [b1 b2]. unfold shift. simpl. intros [=]. f_equal; lia. Qed.

Definition rayOffsets (directions : list (Z * Z)) : list (Z * Z) :=
  directions ≫= λ d, (λ i, (d.1 * i, d.2 * i)) <$> range_1_8.

Lemma slideCands_shift row col directions :
  slideCands row col directions = shift row col <$> rayOffsets directions.
Proof.
  unfold slideCands, rayOffsets. induction directions as [|d rest IH]; [done|].
  rewrite !bind_cons, fmap_app, IH. by f_equal.
Qed.

Lemma NoDup_rayOffsets_all : NoDup (rayOffsets (rookDirections ++ bishopDirections)).
Proof. apply (bool_decide_unpack _). by vm_compute. Qed.

Lemma NoDup_slideCands row col directions :
  directions `sublist_of` rookDirections ++ bishopDirections →
  NoDup (slideCands row col directions).
Proof.
  intros Hsub. rewrite slideCands_shift. apply (NoDup_fmap_2 _).
  eapply sublist_NoDup; [apply NoDup_rayOffsets_all|].
  unfold rayOffsets. by apply bind_sublist.
Qed.

Lemma NoDup_stepCands row col offsets :
  NoDup offsets → NoDup (stepCands row col offsets).
Proof. intros. by apply (NoDup_fmap_2 (shift row col)). Qed.

Lemma NoDup_knightMoves : NoDup knightMoves.
Proof. apply (bool_decide_unpack _). by vm_compute. Qed.

Lemma NoDup_kingMoves : NoDup kingMoves.
Proof. apply (bool_decide_unpack _). by vm_compute. Qed.

Lemma NoDup_pawnCands dr row col : dr ≠ 0 → NoDup (pawnCands dr row col).
Proof.
  intros Hdr. unfold pawnCands.
  repeat (apply NoDup_cons; split;
          [rewrite ?elem_of_cons, elem_of_nil; intros H;
           repeat (destruct H as [H|H]; [injection H; lia|]); done|]).
  apply NoDup_nil_2.
Qed.

(** ** The pseudo-legal moves of a state *)

(** The colour whose pieces [getAllPossibleMoves] moves. *)
Definition mover (s : GameState) : color :=
  if whiteToMove s then White else Black.

(** What holds of every move [getAllPossibleMoves] returns in [s]. *)
Definition pseudo (s : GameState) (m : Move) : Prop :=
  0 <= startRow m < 8 ∧ 0 <= startCol m < 8 ∧
  fromSq (board s) (mover s) (startRow m) (startCol m) m ∧
  colorOf (pieceMoved m) = Some (mover s).

Lemma adds_NoDup b ally row col cands acc acc' :
  NoDup cands → adds b ally row col cands acc acc' →
  ∃ new, acc' = acc ++ new ∧ Forall (fromSq b ally row col) new ∧
         NoDup (endSq <$> new).
Proof.
  intros Hnd (new & -> & Hnew & Hsub). exists new. split_and!; [done..|].
  by eapply sublist_NoDup.
Qed.

Lemma moveFunctions_adds s k row col acc acc' :
  wfBoard (board s) → 0 <= row < 8 → 0 <= col < 8 →
  moveFunctions k s row col acc = Some acc' →
  ∃ new, acc' = acc ++ new ∧ Forall (fromSq (board s) (mover s) row col) new ∧
         NoDup (endSq <$> new).
Proof.
  intros Hwf Hrow Hcol H.
  assert ((if whiteToMove s then Black else White) ≠ mover s) as Hne
    by (unfold mover; by destruct (whiteToMove s)).
  destruct k; simpl in H.
  - unfold getPawnMoves in H. unfold mover in *.
    destruct (whiteToMove s).
    + apply (adds_NoDup _ _ _ _ (pawnCands (-1) row col)); [by apply NoDup_pawnCands|].
      eapply pawnBranch_adds; [done..|by left|done].
    + apply (adds_NoDup _ _ _ _ (pawnCands 1 row col)); [by apply NoDup_pawnCands|].
      eapply pawnBranch_adds; [done..|by right|done].
  - apply (adds_NoDup _ _ _ _ (slideCands row col rookDirections)).
    + apply NoDup_slideCands. by apply sublist_inserts_r.
    + by eapply slideAll_adds.
  - apply (adds_NoDup _ _ _ _ (stepCands row col knightMoves)).
    + apply NoDup_stepCands, NoDup_knightMoves.
    + by apply stepAll_adds.
  - apply (adds_NoDup _ _ _ _ (slideCands row col bishopDirections)).
    + apply NoDup_slideCands. by apply sublist_inserts_l.
    + by eapply slideAll_adds.
  - unfold getQueenMoves in H. apply bind_Some in H as (acc1 & H1 & H2).
    apply (adds_NoDup _ _ _ _ (slideCands row col (rookDirections ++ bishopDirections))).
    + by apply NoDup_slideCands.
    + unfold slideCands. rewrite bind_app. apply adds_app with acc1.
      * by eapply slideAll_adds.
      * by eapply slideAll_adds.
  - apply (adds_NoDup _ _ _ _ (stepCands row col kingMoves)).
    + apply NoDup_stepCands, NoDup_kingMoves.
    + by apply stepAll_adds.
Qed.

Lemma visitSquare_adds s row col acc acc' :
  wfBoard (board s) → 0 <= row < 8 → 0 <= col < 8 →
  visitSquare s row col acc = Some acc' →
  ∃ new, acc' = acc ++ new ∧ Forall (pseudo s) new ∧
         Forall (λ m, startRow m = row ∧ startCol m = col) new ∧
         NoDup (endSq <$> new).
Proof.
  intros Hwf Hrow Hcol H. unfold visitSquare in H.
  apply bind_Some in H as (p & Hp & H).
  assert (∀ acc, Some acc = Some acc' →
            ∃ new, acc' = acc ++ new ∧ Forall (pseudo s) new ∧
              Forall (λ m, startRow m = row ∧ startCol m = col) new ∧
              NoDup (endSq <$> new)) as Hnone.
  { intros ? [= <-]. exists []. rewrite app_nil_r.
    split_and!; [done|constructor..]. }
  destruct p as [|c k]; [by apply Hnone|].
  destruct (bool_decide (c = White) && whiteToMove s
            || bool_decide (c = Black) && negb (whiteToMove s)) eqn:Hturn;
    [|by apply Hnone].
  assert (c = mover s) as ->.
  { unfold mover. destruct c, (whiteToMove s); done. }
  destruct (moveFunctions_adds _ _ _ _ _ _ Hwf Hrow Hcol H) as (new & -> & Hnew & Hnd).
  exists new. split_and!; [done| | |done].
  - eapply Forall_impl; [exact Hnew|]. intros m [Hinit Hgood].
    pose proof (Move_init_Some _ _ _ _ Hinit) as (Hsr & Hsc & _ & _ & Hpm & _).
    simpl in *. unfold pseudo, fromSq. rewrite Hsr, Hsc. split_and!; [lia..|done|done|].
    rewrite Hp in Hpm. by injection Hpm as <-.
  - eapply Forall_impl; [exact Hnew|]. intros m [Hinit Hgood].
    by pose proof (Move_init_Some _ _ _ _ Hinit) as (Hsr & Hsc & _).
Qed.

Lemma coords_endSq_NoDup (new : list Move) row col :
  Forall (λ m, startRow m = row ∧ startCol m = col) new →
  NoDup (endSq <$> new) → NoDup (coords <$> new).
Proof.
  intros Hst Hnd.
  assert (coords <$> new = (λ e : Z * Z, (row, col, e.1, e.2)) <$> (endSq <$> new)) as ->.
  { rewrite <- list_fmap_compose. apply Forall_fmap_ext_1.
    eapply Forall_impl; [exact Hst|]. intros m [<- <-]. done. }
  apply NoDup_fmap_2; [|done]. intros [a1 a2] [b1 b2] [=]. by subst.
Qed.

Lemma visitCols_adds s row cols acc acc' :
  wfBoard (board s) → 0 <= row < 8 → Forall (λ c, 0 <= c < 8) cols → NoDup cols →
  visitCols s row cols acc = Some acc' →
  ∃ new, acc' = acc ++ new ∧ Forall (pseudo s) new ∧
         Forall (λ m, startRow m = row ∧ startCol m ∈ cols) new ∧
         NoDup (coords <$> new).
Proof.
  intros Hwf Hrow Hcols Hnd. revert acc.
  induction cols as [|col rest IH]; intros acc H; simpl in H.
  { injection H as <-. exists []. rewrite app_nil_r.
    split_and!; [done|constructor..]. }
  apply bind_Some in H as (acc1 & H1 & H2).
  apply Forall_cons in Hcols as [Hcol Hrest]. apply NoDup_cons in Hnd as [Hnotin Hnd].
  apply visitSquare_adds in H1 as (new1 & -> & Hps1 & Hst1 & Hnd1); [|done..].
  apply IH in H2 as (new2 & -> & Hps2 & Hst2 & Hnd2); [|done..].
  exists (new1 ++ new2). rewrite app_assoc. split_and!; [done| | |].
  - by apply Forall_app.
  - apply Forall_app. split.
    + eapply Forall_impl; [exact Hst1|]. intros m [-> ->]. split; [done|]. left.
    + eapply Forall_impl; [exact Hst2|]. intros m [-> ?]. split; [done|]. by right.
  - rewrite fmap_app. apply NoDup_app. split_and!; [|intros x|done].
    + by eapply coords_endSq_NoDup.
    + intros (m1 & -> & Hm1)%list_elem_of_fmap (m2 & Heq & Hm2)%list_elem_of_fmap.
      rewrite Forall_forall in Hst1, Hst2.
      destruct (Hst1 _ Hm1) as [_ Hc1]. destruct (Hst2 _ Hm2) as [_ Hc2].
      injection Heq as _ Hc _ _. rewrite Hc1 in Hc. by rewrite Hc in Hnotin.
Qed.

Lemma visitRows_adds s rows acc acc' :
  wfBoard (board s) → Forall (λ r, 0 <= r < 8) rows → NoDup rows →
  visitRows s rows acc = Some acc' →
  ∃ new, acc' = acc ++ new ∧ Forall (pseudo s) new ∧
         Forall (λ m, startRow m ∈ rows) new ∧
         NoDup (coords <$> new).
Proof.
  intros Hwf Hrows Hnd. revert acc.
  induction rows as [|row rest IH]; intros acc H; simpl in H.
  { injection H as <-. exists []. rewrite app_nil_r.
    split_and!; [done|constructor..]. }
  apply bind_Some in H as (r & Hr & H). apply bind_Some in H as (acc1 & H1 & H2).
  apply Forall_cons in Hrows as [Hrow Hrest]. apply NoDup_cons in Hnd as [Hnotin Hnd].
  assert (length r = 8%nat) as Hlen.
  { unfold py_get in Hr. apply bind_Some in Hr as (k & _ & Hk).
    by eapply wfBoard_row. }
  rewrite Hlen in H1.
  apply visitCols_adds in H1 as (new1 & -> & Hps1 & Hst1 & Hnd1); [|done..| |].
  2: { apply (bool_decide_unpack _). by vm_compute. }
  2: { apply (bool_decide_unpack _). by vm_compute. }
  apply IH in H2 as (new2 & -> & Hps2 & Hst2 & Hnd2); [|done..].
  exists (new1 ++ new2). rewrite app_assoc. split_and!; [done| | |].
  - by apply Forall_app.
  - apply Forall_app. split.
    + eapply Forall_impl; [exact Hst1|]. intros m [-> _]. left.
    + eapply Forall_impl; [exact Hst2|]. intros m ?. by right.
  - rewrite fmap_app. apply NoDup_app. split_and!; [done|intros x|done].
    intros (m1 & -> & Hm1)%list_elem_of_fmap (m2 & Heq & Hm2)%list_elem_of_fmap.
    rewrite Forall_forall in Hst1, Hst2.
    destruct (Hst1 _ Hm1) as [Hr1 _]. specialize (Hst2 _ Hm2).
    injection Heq as Hr' _ _ _. rewrite Hr1 in Hr'. by rewrite Hr' in Hnotin.
Qed.

(** Every move of [getAllPossibleMoves] is a pseudo-legal move of the side
    to move, and no two of them have the same four coordinates. *)
Lemma getAllPossibleMoves_pseudo s moves :
  wfBoard (board s) → getAllPossibleMoves s = Some moves →
  Forall (pseudo s) moves ∧ NoDup (coords <$> moves).
Proof.
  intros Hwf H. unfold getAllPossibleMoves in H.
  destruct (Hwf) as [Hlen _]. rewrite Hlen in H.
  apply visitRows_adds in H as (new & -> & Hps & _ & Hnd); [done|done| |].
  - apply (bool_decide_unpack _). by vm_compute.
  - apply (bool_decide_unpack _). by vm_compute.
Qed.

(** The identifier formula is injective on start squares in 0..7 and
    destinations with a row in -1..7 and a column in 0..7. *)
Lemma identifier_inj (sr sc er ec sr' sc' er' ec' : Z) :
  0 <= sr < 8 → 0 <= sc < 8 → -1 <= er < 8 → 0 <= ec < 8 →
  0 <= sr' < 8 → 0 <= sc' < 8 → -1 <= er' < 8 → 0 <= ec' < 8 →
  sr * 1000 + sc * 100 + er * 10 + ec = sr' * 1000 + sc' * 100 + er' * 10 + ec' →
  sr = sr' ∧ sc = sc' ∧ er = er' ∧ ec = ec'.
Proof.
  intros.
  assert (sr = sr') by lia. subst sr'.
  assert (sc = sc') by lia. subst sc'.
  assert (er = er') by lia. subst er'.
  lia.
Qed.

Lemma moveID_coords_inj (a b : Move) :
  0 <= startRow a < 8 → 0 <= startCol a < 8 → -1 <= endRow a < 8 → 0 <= endCol a < 8 →
  0 <= startRow b < 8 → 0 <= startCol b < 8 → -1 <= endRow b < 8 → 0 <= endCol b < 8 →
  startRow a * 1000 + startCol a * 100 + endRow a * 10 + endCol a =
  startRow b * 1000 + startCol b * 100 + endRow b * 10 + endCol b →
  coords a = coords b.
Proof.
  intros. unfold coords.
  destruct (identifier_inj (startRow a) (startCol a) (endRow a) (endCol a)
              (startRow b) (startCol b) (endRow b) (endCol b))
    as (-> & -> & -> & ->); done.
Qed.

Lemma pseudo_moveID s m :
  pseudo s m →
  moveID m = startRow m * 1000 + startCol m * 100 + endRow m * 10 + endCol m ∧
  -1 <= endRow m < 8 ∧ 0 <= endCol m < 8.
Proof.
  intros (_ & _ & [Hinit (Hr & Hc & _)] & _).
  apply Move_init_Some in Hinit as (_ & _ & _ & _ & _ & _ & Hid). done.
Qed.

Lemma pseudo_snapshot s m : pseudo s m → snapshotOf (board s) m.
Proof. intros (_ & _ & [Hinit _] & _). by eapply Move_init_snapshot. Qed.

(** Two pseudo-legal moves of one state with the same identifier are the
    same move. *)
Lemma pseudo_moveID_inj s a b :
  pseudo s a → pseudo s b → moveID a = moveID b → a = b.
Proof.
  intros Ha Hb Hid.
  destruct (pseudo_moveID _ _ Ha) as (Ha1 & ? & ?).
  destruct (pseudo_moveID _ _ Hb) as (Hb1 & ? & ?).
  destruct (Ha) as (? & ? & [Hia _] & _). destruct (Hb) as (? & ? & [Hib _] & _).
  rewrite Ha1, Hb1 in Hid. apply moveID_coords_inj in Hid; [|done..].
  unfold coords in Hid. injection Hid as Hsr Hsc Her Hec.
  unfold endSq in Hia, Hib. rewrite Hsr, Hsc, Her, Hec in Hia.
  rewrite Hia in Hib. by injection Hib.
Qed.

Lemma getAllPossibleMoves_NoDup_moveID s moves :
  wfBoard (board s) → getAllPossibleMoves s = Some moves →
  NoDup (moveID <$> moves).
Proof.
  intros Hwf H. apply getAllPossibleMoves_pseudo in H as [Hps Hnd]; [|done].
  apply NoDup_fmap_1 in Hnd. apply NoDup_fmap_2_strong; [|done].
  rewrite Forall_forall in Hps. intros a b Ha Hb. eapply pseudo_moveID_inj; eauto.
Qed.

(** ** Attack tests leave the state alone *)

Lemma flipTurn_involutive s : flipTurn (flipTurn s) = s.
Proof. destruct s. unfold flipTurn. simpl. by rewrite negb_involutive. Qed.

Lemma anyEndsAt_true oppMoves row col :
  anyEndsAt oppMoves row col = true ↔ ∃ o, o ∈ oppMoves ∧ endSq o = (row, col).
Proof.
  induction oppMoves as [|m rest IH]; simpl.
  { split; [done|]. intros (o & Ho & _). by apply elem_of_nil in Ho. }
  destruct (bool_decide (endRow m = row) && bool_decide (endCol m = col)) eqn:Hm.
  - split; [|done]. intros _. exists m. split; [left|].
    apply andb_true_iff in Hm as [H1%bool_decide_eq_true H2%bool_decide_eq_true].
    unfold endSq. by rewrite H1, H2.
  - rewrite IH. split.
    + intros (o & Ho & He). exists o. split; [by right|done].
    + intros (o & Ho & He). apply elem_of_cons in Ho as [->|Ho]; [|by exists o].
      unfold endSq in He. injection He as H1 H2.
      rewrite !bool_decide_eq_true_2 in Hm by done. done.
Qed.

Lemma squareUnderAttack_Some s row col chk s' :
  squareUnderAttack s row col = Some (chk, s') →
  s' = s ∧ ∃ oppMoves, getAllPossibleMoves (flipTurn s) = Some oppMoves ∧
                       chk = anyEndsAt oppMoves row col.
Proof.
  unfold squareUnderAttack. intros H. apply bind_Some in H as (opp & Hopp & H).
  injection H as <- <-. rewrite flipTurn_involutive. split; [done|]. by exists opp.
Qed.

(** The square [inCheck] asks about. *)
Definition kingLocation (c : color) (s : GameState) : Z * Z :=
  match c with
  | White => whiteKingLocation s
  | Black => blackKingLocation s
  end.

Lemma inCheck_Some s chk s' :
  inCheck s = Some (chk, s') →
  s' = s ∧ ∃ oppMoves, getAllPossibleMoves (flipTurn s) = Some oppMoves ∧
     chk = anyEndsAt oppMoves (kingLocation (mover s) s).1 (kingLocation (mover s) s).2.
Proof.
  unfold inCheck, mover. destruct (whiteToMove s); apply squareUnderAttack_Some.
Qed.

(** ** The filtering loop *)

(** The test the loop body applies to the candidate [m]: make it, look
    from the mover's side, ask [inCheck]. *)
Definition exposes (s : GameState) (m : Move) : option bool :=
  s1 ← makeMove s m;
  '(chk, _) ← inCheck (flipTurn s1);
  Some chk.

Lemma range_down_S n : range_down (S n) = Z.of_nat n :: range_down n.
Proof.
  unfold range_down, range.
  by rewrite seq_S, fmap_app, fmap_cons, fmap_nil, reverse_snoc.
Qed.

Lemma py_get_middle {A} (l1 l2 : list A) x :
  py_get (l1 ++ x :: l2) (Z.of_nat (length l1)) = Some x.
Proof.
  unfold py_get, py_index. rewrite length_app. simpl.
  rewrite bool_decide_eq_true_2 by lia. simpl.
  rewrite Nat2Z.id. by apply list_lookup_middle.
Qed.

Lemma py_remove_middle m pre post :
  Forall (λ y, moveID y ≠ moveID m) pre →
  py_remove m (pre ++ m :: post) = Some (pre ++ post).
Proof.
  induction 1 as [|y pre Hy _ IH]; simpl.
  - unfold Move_eq. by rewrite bool_decide_eq_true_2.
  - unfold Move_eq at 1. rewrite bool_decide_eq_false_2 by done.
    by rewrite IH.
Qed.

Lemma filterLoop_spec s pre post s' out :
  wfBoard (board s) →
  Forall (λ m, snapshotOf (board s) m ∧ kingAtStart s m) pre →
  NoDup (moveID <$> pre ++ post) →
  filterLoop (range_down (length pre)) s (pre ++ post) = Some (s', out) →
  s' = s ∧ out = filter (λ m, exposes s m = Some false) pre ++ post ∧
  Forall (λ m, is_Some (exposes s m)) pre.
Proof.
  intros Hwf. revert post.
  induction pre as [|m pre IH] using rev_ind; intros post Hpre Hnd H.
  { simpl in H. injection H as <- <-. split_and!; [done..|constructor]. }
  rewrite length_app, Nat.add_comm in H. simpl in H.
  rewrite range_down_S in H. cbn [filterLoop] in H.
  rewrite <- app_assoc in H, Hnd. simpl in H, Hnd.
  rewrite py_get_middle in H. cbn [mbind option_bind] in H.
  apply Forall_app in Hpre as [Hpre Hm]. apply Forall_singleton in Hm as [Hsnap Hking].
  destruct (makeMove s m) as [s1|] eqn:Hmake; cbn [mbind option_bind] in H; [|done].
  destruct (inCheck (flipTurn s1)) as [[chk s3]|] eqn:Hchk;
    cbn [mbind option_bind] in H; [|done].
  pose proof (inCheck_Some _ _ _ Hchk) as [-> _].
  rewrite flipTurn_involutive in H.
  rewrite (makeMove_undoMove s m s1) in H by done.
  assert (exposes s m = Some chk) as Hexp.
  { unfold exposes. rewrite Hmake. simpl. by rewrite Hchk. }
  rewrite fmap_app, fmap_cons in Hnd.
  destruct chk.
  - rewrite py_remove_middle in H.
    2: { apply NoDup_app in Hnd as (_ & Hdis & _). apply Forall_forall.
         intros y Hy Heq. apply (Hdis (moveID y)).
         - by apply list_elem_of_fmap_2.
         - rewrite Heq. left. }
    cbn [mbind option_bind] in H.
    apply IH in H as (-> & -> & Hall); [|done|].
    2: { rewrite fmap_app. eapply sublist_NoDup; [exact Hnd|].
         apply sublist_app; [done|]. by apply sublist_cons. }
    split_and!; [done| |].
    + rewrite filter_app, filter_cons_False, filter_nil, app_nil_r; [done|].
      by rewrite Hexp.
    + apply Forall_app. split; [done|]. apply Forall_singleton. by rewrite Hexp.
  - cbn [mbind option_bind] in H.
    apply IH in H as (-> & -> & Hall); [|done|].
    2: { by rewrite fmap_app, fmap_cons. }
    split_and!; [done| |].
    + rewrite filter_app, filter_cons_True, filter_nil by done.
      by rewrite <- app_assoc.
    + apply Forall_app. split; [done|]. apply Forall_singleton. by rewrite Hexp.
Qed.

(** The king-location fields name every square that holds a king cell. *)
Definition kingsTracked (s : GameState) : Prop :=
  ∀ r c, 0 <= r < 8 → 0 <= c < 8 →
    (board_get (board s) r c = Some wK → whiteKingLocation s = (r, c)) ∧
    (board_get (board s) r c = Some bK → blackKingLocation s = (r, c)).

Lemma pseudo_kingAtStart s m : kingsTracked s → pseudo s m → kingAtStart s m.
Proof.
  intros Hk (Hr & Hc & [Hinit _] & _).
  apply Move_init_Some in Hinit as (_ & _ & _ & _ & Hpm & _). simpl in Hpm.
  destruct (Hk _ _ Hr Hc) as [Hw Hb].
  split; intros Heq; rewrite Heq in Hpm; auto.
Qed.

(** [getValidMoves] returns the candidates that pass the test, in order,
    and comes back to the state it started in, flags apart. *)
Lemma getValidMoves_spec s valid s' :
  wfBoard (board s) → kingsTracked s →
  getValidMoves s = Some (valid, s') →
  ∃ cands, getAllPossibleMoves s = Some cands ∧
    valid = filter (λ m, exposes s m = Some false) cands ∧
    Forall (λ m, is_Some (exposes s m)) cands ∧
    ((valid = [] ∧ ∃ chk, inCheck s = Some (chk, s) ∧
        s' = (if chk then setFlags true (staleMate s) s
              else setFlags (checkMate s) true s)) ∨
     (valid ≠ [] ∧ s' = setFlags false false s)).
Proof.
  intros Hwf Hk H. unfold getValidMoves in H.
  apply bind_Some in H as (cands & Hcands & H). exists cands. split; [done|].
  apply bind_Some in H as ([s1 out] & Hloop & H).
  pose proof (getAllPossibleMoves_pseudo _ _ Hwf Hcands) as [Hps _].
  pose proof (getAllPossibleMoves_NoDup_moveID _ _ Hwf Hcands) as Hnd.
  rewrite <- (app_nil_r cands) in Hloop at 2.
  apply filterLoop_spec in Hloop as (-> & -> & Hall); [|done| |by rewrite app_nil_r].
  2: { eapply Forall_impl; [exact Hps|]. intros m Hm.
       split; [by eapply pseudo_snapshot|by apply pseudo_kingAtStart]. }
  rewrite app_nil_r in H.
  destruct (bool_decide _) eqn:Hlen.
  - apply bool_decide_eq_true in Hlen. apply nil_length_inv in Hlen.
    apply bind_Some in H as ([chk s2] & Hchk & H).
    pose proof (inCheck_Some _ _ _ Hchk) as [-> _].
    assert (valid = []) as -> by (destruct chk; by injection H as <- _).
    split_and!; [done..|]. left. split; [done|]. exists chk. split; [done|].
    destruct chk; by injection H as _ <-.
  - apply bool_decide_eq_false in Hlen. injection H as <- <-.
    split_and!; [done..|]. right. split; [|done].
    intros Hnil. by rewrite Hnil in Hlen.
Qed.

(** ** The test of the filter, as a statement about moves *)

(** After [m] is made in [s], some pseudo-legal move of the opponent has
    for end coordinates the king-location field of the side that made [m]:
    the comparison [squareUnderAttack] makes, on the numbers as they are. *)
Definition kingSquareTargeted (s : GameState) (m : Move) : Prop :=
  ∃ s1 oppMoves o,
    makeMove s m = Some s1 ∧ getAllPossibleMoves s1 = Some oppMoves ∧
    o ∈ oppMoves ∧ endSq o = kingLocation (mover s) s1.

Lemma makeMove_whiteToMove s m s1 :
  makeMove s m = Some s1 → whiteToMove s1 = negb (whiteToMove s).
Proof.
  unfold makeMove. intros H. apply bind_Some in H as (b1 & _ & H).
  apply bind_Some in H as (b2 & _ & H). by injection H as <-.
Qed.

Lemma exposes_kingSquareTargeted s m chk :
  exposes s m = Some chk → chk = true ↔ kingSquareTargeted s m.
Proof.
  unfold exposes. intros H. apply bind_Some in H as (s1 & Hmake & H).
  apply bind_Some in H as ([chk' s2] & Hchk & H). injection H as ->.
  apply inCheck_Some in Hchk as (_ & opp & Hopp & ->).
  rewrite flipTurn_involutive in Hopp.
  assert (mover (flipTurn s1) = mover s) as Hmover.
  { unfold mover, flipTurn. simpl.
    rewrite (makeMove_whiteToMove _ _ _ Hmake). by rewrite negb_involutive. }
  rewrite Hmover.
  assert (kingLocation (mover s) (flipTurn s1) = kingLocation (mover s) s1) as ->
    by (by destruct (mover s)).
  rewrite anyEndsAt_true. split.
  - intros (o & Ho & He). exists s1, opp, o. split_and!; [done..|].
    rewrite He. by destruct (kingLocation (mover s) s1).
  - intros (s1' & opp' & o & Hmake' & Hopp' & Ho & He).
    rewrite Hmake in Hmake'. injection Hmake' as <-.
    rewrite Hopp in Hopp'. injection Hopp' as <-.
    exists o. split; [done|]. rewrite He. by destruct (kingLocation (mover s) s1).
Qed.

Lemma py_in_true m valid :
  py_in m valid = true ↔ ∃ y, y ∈ valid ∧ moveID y = moveID m.
Proof.
  unfold py_in. rewrite existsb_exists. unfold Move_eq. split.
  - intros (y & Hy%list_elem_of_In & Heq%bool_decide_eq_true). by exists y.
  - intros (y & Hy%list_elem_of_In & Heq). exists y. split; [done|].
    by apply bool_decide_eq_true.
Qed.

Lemma py_remove_lookup (l : list Move) k m :
  NoDup (moveID <$> l) → l !! k = Some m → py_remove m l = Some (delete k l).
Proof.
  revert k. induction l as [|y l IH]; intros k Hnd Hk; [done|].
  rewrite fmap_cons in Hnd. apply NoDup_cons in Hnd as [Hy Hnd].
  destruct k as [|k]; simpl in *.
  - injection Hk as ->. unfold Move_eq. by rewrite bool_decide_eq_true_2.
  - unfold Move_eq at 1. rewrite bool_decide_eq_false_2.
    + by rewrite (IH k).
    + intros Heq. apply Hy. rewrite Heq. apply list_elem_of_fmap_2.
      by eapply list_elem_of_lookup_2.
Qed.

(** ** Games used as instances *)

(** 1. f3 e5 2. g4 Qh4 *)
Definition foolsMate : list (list event) :=
  play [((6, 5), (5, 5)); ((1, 4), (3, 4)); ((6, 6), (4, 6));
   ((0, 3), (4, 7))].

(** 1. e4 d5 2. Bb5+ Nc6 3. a3: the knight on c6 shields the black king
    from the bishop on b5. *)
Definition pinGame : list (list event) :=
  play [((6, 4), (4, 4)); ((1, 3), (3, 3)); ((7, 5), (3, 1));
   ((0, 1), (2, 2)); ((6, 0), (5, 0))].

(** 1. Nf3 h5 2. Ng1 h4 3. Nf3 h3 4. Ng1 hxg2 5. Nf3: the black pawn on
    g2 can now take the rook on h1. *)
Definition pawnRun : list (list event) :=
  play [((7, 6), (5, 5)); ((1, 7), (3, 7)); ((5, 5), (7, 6));
   ((3, 7), (4, 7)); ((7, 6), (5, 5)); ((4, 7), (5, 7));
   ((5, 5), (7, 6)); ((5, 7), (6, 6)); ((7, 6), (5, 5))].

Definition afterFoolsMate : option (GameState * list Move) :=
  Eval vm_compute in main foolsMate.
Definition afterPinGame : option (GameState * list Move) :=
  Eval vm_compute in main pinGame.
Definition afterPawnRun : option (GameState * list Move) :=
  Eval vm_compute in main pawnRun.

Lemma main_foolsMate : main foolsMate = afterFoolsMate.
Proof. by vm_compute. Qed.
Lemma main_pinGame : main pinGame = afterPinGame.
Proof. by vm_compute. Qed.
Lemma main_pawnRun : main pawnRun = afterPawnRun.
Proof. by vm_compute. Qed.

(** 1. h4 Nf6 2. h5 e6 3. h6 Ke7 4. hxg7 Nd5 5. g8 Kf6 6. Rh3 Kg5 7. Ra3
    Kh4 8. b3 a6 9. f4 a5 10. f5 Kg3 11. Nc3 Kh2 12. Na4: a white pawn
    stands on row 0 and the black king on h2. *)
Definition kingWalk : list (list event) :=
  play [((6, 7), (4, 7)); ((0, 6), (2, 5));
   ((4, 7), (3, 7)); ((1, 4), (2, 4));
   ((3, 7), (2, 7)); ((0, 4), (1, 4));
   ((2, 7), (1, 6)); ((2, 5), (3, 3));
   ((1, 6), (0, 6)); ((1, 4), (2, 5));
   ((7, 7), (5, 7)); ((2, 5), (3, 6));
   ((5, 7), (5, 0)); ((3, 6), (4, 7));
   ((6, 1), (5, 1)); ((1, 0), (2, 0));
   ((6, 5), (4, 5)); ((2, 0), (3, 0));
   ((4, 5), (3, 5)); ((4, 7), (5, 6));
   ((7, 1), (5, 2)); ((5, 6), (6, 7));
   ((5, 2), (4, 0))].

(** The same game followed by 12... Kh1: the black king now stands on
    h1. *)
Definition kingHunt : list (list event) :=
  kingWalk ++ clicks (6, 7) (7, 7).

Definition afterKingWalk : option (GameState * list Move) :=
  Eval vm_compute in main kingWalk.
Definition afterKingHunt : option (GameState * list Move) :=
  Eval vm_compute in main kingHunt.

Lemma main_kingWalk : main kingWalk = afterKingWalk.
Proof. by vm_compute. Qed.
Lemma main_kingHunt : main kingHunt = afterKingHunt.
Proof. by vm_compute. Qed.

(** The state in [o], or the initial state when the run raised. *)
Definition stateOf (o : option (GameState * list Move)) : GameState :=
  from_option fst init o.
Definition legalOf (o : option (GameState * list Move)) : list Move :=
  from_option snd [] o.

Lemma kingsTracked_compute s :
  wfBoard (board s) →
  forallb (λ r, forallb (λ c,
    match board_get (board s) r c with
    | Some p =>
      (if decide (p = wK) then bool_decide (whiteKingLocation s = (r, c)) else true)
      && (if decide (p = bK) then bool_decide (blackKingLocation s = (r, c)) else true)
    | None => true
    end) (range 8)) (range 8) = true →
  kingsTracked s.
Proof.
  intros Hwf H r c Hr Hc. rewrite forallb_forall in H.
  assert (∀ i, 0 <= i < 8 → In i (range 8)) as Hin.
  { intros i Hi. apply list_elem_of_In. unfold range. apply list_elem_of_fmap.
    exists (Z.to_nat i). split; [lia|]. apply elem_of_seq. lia. }
  specialize (H r (Hin r Hr)). rewrite forallb_forall in H.
  specialize (H c (Hin c Hc)).
  destruct (board_get (board s) r c) as [p|]; [|done].
  apply andb_true_iff in H as [Hw Hb]. split; intros [= ->].
  - rewrite decide_True in Hw by done. by apply bool_decide_eq_true in Hw.
  - rewrite decide_True in Hb by done. by apply bool_decide_eq_true in Hb.
Qed.

Lemma kingsTracked_init : kingsTracked init.
Proof. apply kingsTracked_compute; [apply wfBoard_init|by vm_compute]. Qed.

(** * The claims *)

Definition initLegal : option (list Move * GameState) :=
  Eval vm_compute in getValidMoves init.

Lemma getValidMoves_init : getValidMoves init = initLegal.
Proof. by vm_compute. Qed.

(** The sixteen pawn advances, file by file, and the four knight moves. *)
Definition pawnAdvances : list (Z * Z * Z * Z) :=
  range 8 ≫= λ c, [(6, c, 5, c); (6, c, 4, c)].
Definition knightJumps : list (Z * Z * Z * Z) :=
  [(7, 1, 5, 0); (7, 1, 5, 2); (7, 6, 5, 5); (7, 6, 5, 7)].

(** C7: in the initial state [getValidMoves] returns exactly 20 moves: for
    each of the 8 files the single and the double advance of the white pawn
    (all to empty squares), then the 4 moves of the two white knights. *)
Theorem C7_initial_position_has_twenty_moves :
  ∃ valid s',
    getValidMoves init = Some (valid, s') ∧
    length valid = 20%nat ∧
    coords <$> valid = pawnAdvances ++ knightJumps ∧
    Forall (λ m, pieceMoved m = wp ∧ pieceCaptured m = Empty) (take 16 valid) ∧
    Forall (λ m, pieceMoved m = wN ∧ pieceCaptured m = Empty) (drop 16 valid).
Proof.
  pose proof getValidMoves_init as H. unfold initLegal in H.
  eexists _, _. split; [exact H|].
  split_and!; [done|done|..]; simpl; repeat constructor.
Qed.

(** C8: two moves built from coordinates in 0..7, against any two boards,
    are equal under [Move.__eq__] exactly when their four coordinates are
    the same; their piece fields play no part.  The identifier is the
    stated formula and it determines the coordinates. *)
Theorem C8_move_equality_is_coordinate_equality
    (b1 b2 : Board) (s1 e1 s2 e2 : Z * Z) (m1 m2 : Move) :
  onBoard s1 = true → onBoard e1 = true →
  onBoard s2 = true → onBoard e2 = true →
  Move_init s1 e1 b1 = Some m1 → Move_init s2 e2 b2 = Some m2 →
  moveID m1 = startRow m1 * 1000 + startCol m1 * 100 + endRow m1 * 10 + endCol m1 ∧
  (Move_eq m1 m2 = true ↔ (s1, e1) = (s2, e2)) ∧
  (Move_eq m1 m2 = true ↔ coords m1 = coords m2).
Proof.
  intros [??]%inBounds_range [??]%inBounds_range [??]%inBounds_range
    [??]%inBounds_range Hm1 Hm2.
  apply Move_init_Some in Hm1 as (Hsr1 & Hsc1 & Her1 & Hec1 & _ & _ & Hid1).
  apply Move_init_Some in Hm2 as (Hsr2 & Hsc2 & Her2 & Hec2 & _ & _ & Hid2).
  unfold Move_eq, coords. rewrite bool_decide_eq_true.
  rewrite Hsr1, Hsc1, Her1, Hec1, Hsr2, Hsc2, Her2, Hec2, Hid1, Hid2.
  destruct s1 as [sr1 sc1], e1 as [er1 ec1], s2 as [sr2 sc2], e2 as [er2 ec2].
  simpl in *. split_and!; [done|split|split].
  - intros Hid. apply identifier_inj in Hid as (-> & -> & -> & ->); [done|lia..].
  - by intros [= -> -> -> ->].
  - intros Hid. apply identifier_inj in Hid as (-> & -> & -> & ->); [done|lia..].
  - by intros [= -> -> -> ->].
Qed.

(** The same squares against the initial board, where f2 holds a pawn, and
    against the board after the fool's mate, where f2 is empty. *)
Lemma C8_witness :
  ∃ m1 m2,
    Move_init (6, 5) (5, 5) initBoard = Some m1 ∧
    Move_init (6, 5) (5, 5) (board (stateOf afterFoolsMate)) = Some m2 ∧
    pieceMoved m1 ≠ pieceMoved m2 ∧
    (Move_eq m1 m2 = true ↔ ((6, 5), (5, 5)) = ((6, 5), (5, 5))).
Proof.
  eexists _, _. split; [reflexivity|]. split; [reflexivity|]. split; [done|].
  eapply (C8_move_equality_is_coordinate_equality initBoard
            (board (stateOf afterFoolsMate)) (6, 5) (5, 5) (6, 5) (5, 5));
    reflexivity.
Defined.

(** C1: after 1. Nf3 h5 2. Ng1 h4 3. Nf3 h3 4. Ng1 hxg2 5. Nf3 the
    capture gxh1 is a legal move; once it is made a black pawn stands on
    row 7, [getPawnMoves] reads [board[8][7]] for it with no check of the
    row against 0..7, and the move generation inside the next
    [getValidMoves] raises IndexError. *)
Theorem C1_pawn_generator_reads_past_the_last_row :
  ∃ gs valid m gs1,
    main pawnRun = Some (gs, valid) ∧
    Move_init (6, 6) (7, 7) (board gs) = Some m ∧
    py_in m valid = true ∧
    makeMove gs m = Some gs1 ∧
    wfBoard (board gs1) ∧
    board_get (board gs1) 7 7 = Some bp ∧
    board_get (board gs1) (7 + 1) 7 = None ∧
    getPawnMoves (flipTurn gs1) 7 7 [] = None ∧
    getAllPossibleMoves (flipTurn gs1) = None ∧
    getValidMoves gs1 = None ∧
    main (pawnRun ++ clicks (6, 6) (7, 7)) = None.
Proof.
  pose proof main_pawnRun as H. unfold afterPawnRun in H.
  eexists _, _, _, _. split; [exact H|].
  split; [reflexivity|]. split; [by vm_compute|]. split; [reflexivity|].
  split; [split; [done|repeat constructor]|].
  split_and!; by vm_compute.
Qed.

Lemma valid_subset s valid s' m :
  wfBoard (board s) → kingsTracked s →
  getValidMoves s = Some (valid, s') → m ∈ valid →
  ∃ cands, getAllPossibleMoves s = Some cands ∧ m ∈ cands ∧ pseudo s m.
Proof.
  intros Hwf Hk H Hm.
  apply getValidMoves_spec in H as (cands & Hcands & -> & _); [|done..].
  apply list_elem_of_filter in Hm as [_ Hm]. exists cands. split_and!; [done..|].
  apply getAllPossibleMoves_pseudo in Hcands as [Hps _]; [|done].
  rewrite Forall_forall in Hps. by apply Hps.
Qed.

Lemma wfBoard_of o :
  wfBoard (board (stateOf o)) ↔
  bool_decide (length (board (stateOf o)) = 8%nat) &&
  forallb (λ r, bool_decide (length r = 8%nat)) (board (stateOf o)) = true.
Proof.
  unfold wfBoard. rewrite andb_true_iff, bool_decide_eq_true, forallb_forall.
  rewrite Forall_forall. split; intros [? H]; (split; [done|]); intros r Hr.
  - apply bool_decide_eq_true, H. by apply list_elem_of_In.
  - apply list_elem_of_In, H in Hr. by apply bool_decide_eq_true in Hr.
Qed.

(** C2: the claim fails in a state reached by legal play.  After the game
    [kingWalk] black is to move with the king on h2 and a white pawn stands
    on g8, row 0.  [getValidMoves] keeps the king move h2-h1.  Once it is
    made, [getAllPossibleMoves] gives white the pawn move from (0, 6) to
    (-1, 7): [getPawnMoves] does not check the row, and [board[-1][7]] is
    h1, where the black king stands, so the move takes the king.  The test
    in [squareUnderAttack] compares the end coordinates (-1, 7) with the
    king's (7, 7) and sees no attack. *)
Theorem C2_filter_keeps_a_move_into_capture :
  ∃ gs valid cands m gs1 oppMoves o,
    main kingWalk = Some (gs, valid) ∧ whiteToMove gs = false ∧
    getAllPossibleMoves gs = Some cands ∧
    Move_init (6, 7) (7, 7) (board gs) = Some m ∧ pieceMoved m = bK ∧
    m ∈ cands ∧ m ∈ valid ∧ py_in m valid = true ∧
    makeMove gs m = Some gs1 ∧
    blackKingLocation gs1 = (7, 7) ∧ board_get (board gs1) 7 7 = Some bK ∧
    getAllPossibleMoves gs1 = Some oppMoves ∧ o ∈ oppMoves ∧
    coords o = (0, 6, -1, 7) ∧ pieceMoved o = wp ∧ pieceCaptured o = bK ∧
    board_get (board gs1) (endRow o) (endCol o) = Some bK ∧
    squareUnderAttack (flipTurn gs1) 7 7 = Some (false, flipTurn gs1) ∧
    inCheck (flipTurn gs1) = Some (false, flipTurn gs1).
Proof.
  pose proof main_kingWalk as H. unfold afterKingWalk in H.
  eexists _, _, _, _, _, _, (mkMove 0 6 (-1) 7 wp bK 597).
  split; [exact H|]. split; [done|]. split; [by vm_compute|].
  split; [reflexivity|]. split; [done|].
  split; [apply (bool_decide_unpack _); by vm_compute|].
  split; [apply (bool_decide_unpack _); by vm_compute|].
  split; [by vm_compute|]. split; [reflexivity|].
  split; [done|]. split; [by vm_compute|]. split; [by vm_compute|].
  split; [apply (bool_decide_unpack _); by vm_compute|].
  split_and!; by vm_compute.
Qed.

(** C3: when [getValidMoves] returns an empty list it has set [checkMate]
    if [inCheck] holds of the state it was called in (which [inCheck]
    leaves as it is) and [staleMate] otherwise; when the list is not empty
    both flags are false.  Instance: after 1. f3 e5 2. g4 Qh4 white has no
    legal move, [checkMate] is true and [staleMate] is false. *)
Theorem C3_mate_flags :
  (∀ s valid s',
     wfBoard (board s) → kingsTracked s →
     getValidMoves s = Some (valid, s') →
     (valid = [] →
        ∃ chk, inCheck s = Some (chk, s) ∧
               (chk = true → checkMate s' = true) ∧
               (chk = false → staleMate s' = true)) ∧
     (valid ≠ [] → checkMate s' = false ∧ staleMate s' = false)) ∧
  (∃ gs,
     main foolsMate = Some (gs, []) ∧ whiteToMove gs = true ∧
     checkMate gs = true ∧ staleMate gs = false ∧
     ∃ gs0, getValidMoves gs0 = Some ([], gs) ∧ board gs0 = board gs ∧
            inCheck gs0 = Some (true, gs0)).
Proof.
  split.
  - intros s valid s' Hwf Hk H.
    apply getValidMoves_spec in H as (cands & Hcands & _ & _ & Hcases); [|done..].
    destruct Hcases as [(Hnil & chk & Hchk & ->)|(Hne & ->)]; split; try done.
    intros _. exists chk. split; [done|]. by destruct chk.
  - pose proof main_foolsMate as H. unfold afterFoolsMate in H.
    eexists. split; [exact H|]. split_and!; [done..|].
    exists (setFlags false false (stateOf afterFoolsMate)).
    split_and!; vm_compute; reflexivity.
Qed.

Lemma C3_witness :
  (from_option fst [] initLegal = [] →
     ∃ chk, inCheck init = Some (chk, init) ∧
            (chk = true → checkMate (from_option snd init initLegal) = true) ∧
            (chk = false → staleMate (from_option snd init initLegal) = true)) ∧
  (from_option fst [] initLegal ≠ [] →
     checkMate (from_option snd init initLegal) = false ∧
     staleMate (from_option snd init initLegal) = false).
Proof.
  apply (proj1 C3_mate_flags init).
  - apply wfBoard_init.
  - apply kingsTracked_init.
  - apply getValidMoves_init.
Defined.

(** C4: for a legal move [m] of a state (a member of what [getValidMoves]
    returns there), [makeMove m] followed by [undoMove] succeeds and gives
    back the very state: board, turn flag, both king locations and the
    whole move log, hence its length.  This holds of the state
    [getValidMoves] was called in and of the state it returned. *)
Theorem C4_make_then_undo_restores s valid s' m :
  wfBoard (board s) → kingsTracked s →
  getValidMoves s = Some (valid, s') → m ∈ valid →
  (∃ s1, makeMove s m = Some s1 ∧ undoMove s1 = Some s ∧
         length (moveLog s1) = S (length (moveLog s))) ∧
  (∃ s1, makeMove s' m = Some s1 ∧ undoMove s1 = Some s' ∧
         length (moveLog s1) = S (length (moveLog s'))).
Proof.
  intros Hwf Hk H Hm.
  destruct (valid_subset _ _ _ _ Hwf Hk H Hm) as (cands & _ & _ & Hps).
  pose proof (pseudo_snapshot _ _ Hps) as Hsnap.
  pose proof (pseudo_kingAtStart _ _ Hk Hps) as Hking.
  assert (∀ t, board t = board s → whiteKingLocation t = whiteKingLocation s →
               blackKingLocation t = blackKingLocation s →
               ∃ t1, makeMove t m = Some t1 ∧ undoMove t1 = Some t ∧
                     length (moveLog t1) = S (length (moveLog t))) as Hany.
  { intros t Hb Hw Hbk.
    assert (wfBoard (board t)) as Hwft by (by rewrite Hb).
    assert (snapshotOf (board t) m) as Hsnapt by (by rewrite Hb).
    destruct (makeMove_is_Some t m Hwft Hsnapt) as (t1 & Ht1 & _).
    exists t1. split_and!; [done| |].
    - eapply makeMove_undoMove; [done..| |done].
      unfold kingAtStart. by rewrite Hw, Hbk.
    - unfold makeMove in Ht1. apply bind_Some in Ht1 as (b1 & _ & Ht1).
      apply bind_Some in Ht1 as (b2 & _ & Ht1). injection Ht1 as <-. simpl.
      rewrite length_app. simpl. lia. }
  split; [by apply Hany|].
  apply getValidMoves_spec in H as (_ & _ & _ & _ & Hcases); [|done..].
  apply Hany;
    destruct Hcases as [(_ & chk & _ & ->)|(_ & ->)]; try destruct chk; done.
Qed.

Lemma C4_witness :
  (∃ s1, makeMove init (mkMove 6 4 4 4 wp Empty 6444) = Some s1 ∧
         undoMove s1 = Some init ∧
         length (moveLog s1) = S (length (moveLog init))) ∧
  (∃ s1, makeMove (from_option snd init initLegal) (mkMove 6 4 4 4 wp Empty 6444)
           = Some s1 ∧
         undoMove s1 = Some (from_option snd init initLegal) ∧
         length (moveLog s1) = S (length (moveLog (from_option snd init initLegal)))).
Proof.
  apply (C4_make_then_undo_restores init (from_option fst [] initLegal)).
  - apply wfBoard_init.
  - apply kingsTracked_init.
  - apply getValidMoves_init.
  - apply (bool_decide_unpack _). by vm_compute.
Defined.

(** C6: [squareUnderAttack] returns the state it was given and answers
    whether some move generated for the opponent (the turn flag flipped)
    has (row, col) for destination.  [getValidMoves] returns the state it
    was given with at most the two flags changed: its filtering loop, which
    makes, tests and undoes each candidate, ends in the state it started
    in. *)
Theorem C6_attack_test_and_filter_restore_state s :
  wfBoard (board s) → kingsTracked s →
  (∀ row col chk s',
     squareUnderAttack s row col = Some (chk, s') →
     s' = s ∧
     ∃ oppMoves, getAllPossibleMoves (flipTurn s) = Some oppMoves ∧
       (chk = true ↔ ∃ o, o ∈ oppMoves ∧ endRow o = row ∧ endCol o = col)) ∧
  (∀ valid s',
     getValidMoves s = Some (valid, s') →
     (∃ cands, getAllPossibleMoves s = Some cands ∧
        ∃ kept, filterLoop (range_down (length cands)) s cands = Some (s, kept)) ∧
     s' = setFlags (checkMate s') (staleMate s') s ∧
     board s' = board s ∧ moveLog s' = moveLog s ∧
     whiteToMove s' = whiteToMove s ∧
     whiteKingLocation s' = whiteKingLocation s ∧
     blackKingLocation s' = blackKingLocation s).
Proof.
  intros Hwf Hk. split.
  - intros row col chk s' H.
    apply squareUnderAttack_Some in H as (-> & opp & Hopp & ->).
    split; [done|]. exists opp. split; [done|]. rewrite anyEndsAt_true.
    unfold endSq. split; intros (o & Ho & He); exists o; (split; [done|]).
    + by injection He.
    + by destruct He as [-> ->].
  - intros valid s' H. split.
    + unfold getValidMoves in H. apply bind_Some in H as (cands & Hcands & H).
      exists cands. split; [done|].
      apply bind_Some in H as ([s1 out] & Hloop & _).
      pose proof (getAllPossibleMoves_pseudo _ _ Hwf Hcands) as [Hps _].
      pose proof (getAllPossibleMoves_NoDup_moveID _ _ Hwf Hcands) as Hnd.
      pose proof Hloop as Hloop'. rewrite <- (app_nil_r cands) in Hloop' at 2.
      apply filterLoop_spec in Hloop' as (-> & _ & _);
        [by exists out|done| |by rewrite app_nil_r].
      eapply Forall_impl; [exact Hps|]. intros m Hm.
      split; [by eapply pseudo_snapshot|by apply pseudo_kingAtStart].
    + apply getValidMoves_spec in H as (_ & _ & _ & _ & Hcases); [|done..].
      destruct Hcases as [(_ & chk & _ & ->)|(_ & ->)]; try destruct chk; done.
Qed.

Lemma C6_witness :
  (∀ row col chk s',
     squareUnderAttack init row col = Some (chk, s') →
     s' = init ∧
     ∃ oppMoves, getAllPossibleMoves (flipTurn init) = Some oppMoves ∧
       (chk = true ↔ ∃ o, o ∈ oppMoves ∧ endRow o = row ∧ endCol o = col)) ∧
  (∀ valid s',
     getValidMoves init = Some (valid, s') →
     (∃ cands, getAllPossibleMoves init = Some cands ∧
        ∃ kept, filterLoop (range_down (length cands)) init cands
                = Some (init, kept)) ∧
     s' = setFlags (checkMate s') (staleMate s') init ∧
     board s' = board init ∧ moveLog s' = moveLog init ∧
     whiteToMove s' = whiteToMove init ∧
     whiteKingLocation s' = whiteKingLocation init ∧
     blackKingLocation s' = blackKingLocation init).
Proof.
  apply (C6_attack_test_and_filter_restore_state init).
  - apply wfBoard_init.
  - apply kingsTracked_init.
Defined.

(** C10: no two moves returned by [getAllPossibleMoves] have the same
    identifier, nor the same four coordinates.  Hence, in any list made of
    some of these moves in their order (the list [getValidMoves] is
    filtering), [remove] called with the element at a non-negative index
    [i] deletes the element at index [i] and no other. *)
Theorem C10_candidates_have_distinct_identifiers s moves :
  wfBoard (board s) → getAllPossibleMoves s = Some moves →
  NoDup (moveID <$> moves) ∧ NoDup (coords <$> moves) ∧
  ∀ rest i m,
    rest `sublist_of` moves → 0 <= i → py_get rest i = Some m →
    py_remove m rest = Some (delete (Z.to_nat i) rest).
Proof.
  intros Hwf H.
  pose proof (getAllPossibleMoves_NoDup_moveID _ _ Hwf H) as Hnd.
  apply getAllPossibleMoves_pseudo in H as [_ Hndc]; [|done].
  split_and!; [done..|]. intros rest i m Hsub Hi Hget.
  apply py_remove_lookup.
  - eapply sublist_NoDup; [exact Hnd|]. by apply fmap_sublist.
  - unfold py_get, py_index in Hget.
    destruct (bool_decide (0 <= i < Z.of_nat (length rest))); simpl in Hget; [done|].
    destruct (bool_decide (- Z.of_nat (length rest) <= i < 0)) eqn:Hneg;
      simpl in Hget; [|done].
    apply bool_decide_eq_true in Hneg. lia.
Qed.

Lemma C10_witness :
  NoDup (moveID <$> from_option fst [] initLegal) ∧
  NoDup (coords <$> from_option fst [] initLegal) ∧
  ∀ rest i m,
    rest `sublist_of` from_option fst [] initLegal → 0 <= i →
    py_get rest i = Some m →
    py_remove m rest = Some (delete (Z.to_nat i) rest).
Proof.
  apply (C10_candidates_have_distinct_identifiers init).
  - apply wfBoard_init.
  - by vm_compute.
Defined.

(** ** Direction scans *)

(** The square [i] steps from (row, col) in direction [d]. *)
Definition raySq (row col : Z) (d : Z * Z) (i : Z) : Z * Z :=
  (row + d.1 * i, col + d.2 * i).

(** The square is on the board and empty. *)
Definition passable (b : Board) (sq : Z * Z) : Prop :=
  inBounds sq.1 sq.2 = true ∧ board_get b sq.1 sq.2 = Some Empty.

(** The square is on the board and holds no piece or a piece of colour
    [enemyColor]. *)
Definition landable (b : Board) (enemyColor : color) (sq : Z * Z) : Prop :=
  inBounds sq.1 sq.2 = true ∧
  ∃ p, board_get b sq.1 sq.2 = Some p ∧ (p = Empty ∨ colorOf p = Some enemyColor).

(** Step [i] of the scan from (row, col) in direction [d] yields a move:
    every square before it is on the board and empty, and the square itself
    is on the board and empty or enemy-occupied. *)
Definition scanIncludes (b : Board) (enemyColor : color) (row col : Z)
    (d : Z * Z) (i : Z) : Prop :=
  1 <= i <= 7 ∧
  (∀ j, 1 <= j < i → passable b (raySq row col d j)) ∧
  landable b enemyColor (raySq row col d i).

Lemma appendMove_is_Some b row col er ec acc :
  wfBoard b → 0 <= row < 8 → 0 <= col < 8 → pyRange er → pyRange ec →
  ∃ m, appendMove b row col er ec acc = Some (acc ++ [m]) ∧
       Move_init (row, col) (er, ec) b = Some m ∧ endSq m = (er, ec).
Proof.
  intros Hwf Hr Hc Her Hec. unfold appendMove, Move_init. simpl.
  destruct (board_get_is_Some b row col) as [pm ->];
    [done|by apply pyRange_of_bounds..|].
  destruct (board_get_is_Some b er ec) as [pc ->]; [done..|]. simpl.
  eexists. split_and!; done.
Qed.

(** The scan over an arbitrary list of steps: a step yields a move exactly
    when all steps before it were passable and its own square is landable. *)
Lemma slide_steps b enemyColor row col d steps :
  wfBoard b → 0 <= row < 8 → 0 <= col < 8 →
  ∃ new,
    (∀ acc, slide b enemyColor row col d steps acc = Some (acc ++ new)) ∧
    Forall (λ m, Move_init (row, col) (endSq m) b = Some m) new ∧
    ∀ e, e ∈ endSq <$> new ↔
      ∃ pre i post, steps = pre ++ i :: post ∧ e = raySq row col d i ∧
        Forall (λ j, passable b (raySq row col d j)) pre ∧
        landable b enemyColor (raySq row col d i).
Proof.
  intros Hwf Hrow Hcol.
  induction steps as [|i rest IH].
  { exists []. simpl. split_and!; [intros acc; by rewrite app_nil_r|constructor|].
    intros e. split; [by intros ?%elem_of_nil|].
    intros (pre & i & post & Heq & _). by destruct pre. }
  assert (∀ new : list Move,
            (∀ e, e ∈ endSq <$> new → e = raySq row col d i ∧
                                      landable b enemyColor (raySq row col d i)) →
            (landable b enemyColor (raySq row col d i) →
               raySq row col d i ∈ endSq <$> new) →
            ¬ passable b (raySq row col d i) →
            ∀ e, e ∈ endSq <$> new ↔
              ∃ pre j post, i :: rest = pre ++ j :: post ∧ e = raySq row col d j ∧
                Forall (λ j, passable b (raySq row col d j)) pre ∧
                landable b enemyColor (raySq row col d j)) as Hstop.
  { intros new Hin Hland Hblock e. split.
    - intros He. destruct (Hin e He) as [-> Hl]. by exists [], i, rest.
    - intros (pre & j & post & Heq & -> & Hpre & Hl).
      destruct pre as [|j' pre]; simpl in Heq; injection Heq as <- ->; [by apply Hland|].
      by apply Forall_cons in Hpre as [? _]. }
  cbn [slide]. fold (raySq row col d i).
  change (row + d.1 * i) with (raySq row col d i).1.
  change (col + d.2 * i) with (raySq row col d i).2.
  set (sq := raySq row col d i) in *.
  destruct (inBounds sq.1 sq.2) eqn:Hin.
  2: { exists []. split_and!; [intros acc; by rewrite app_nil_r|constructor|].
       apply Hstop.
       - by intros e ?%elem_of_nil.
       - intros [Hin' _]. congruence.
       - intros [Hin' _]. congruence. }
  pose proof (inBounds_range _ _ Hin) as [Hr Hc].
  destruct (board_get_is_Some b sq.1 sq.2) as [p Hp];
    [done|by apply pyRange_of_bounds..|].
  rewrite Hp. cbn [mbind option_bind].
  destruct (appendMove_is_Some b row col sq.1 sq.2 []) as (m & _ & Hm & Hend);
    [done|done|done|by apply pyRange_of_bounds..|].
  assert (∀ acc, appendMove b row col sq.1 sq.2 acc = Some (acc ++ [m])) as Happ.
  { intros acc. unfold appendMove. by rewrite Hm. }
  assert (endSq m = sq) as Hend' by (by destruct sq).
  destruct (decide (p = Empty)) as [->|Hne].
  - destruct IH as (new & Hrest & Hnew & Hiff).
    exists (m :: new). split_and!.
    + intros acc. rewrite Happ. cbn [mbind option_bind].
      by rewrite Hrest, <- app_assoc.
    + constructor; [|done]. by rewrite Hend', (surjective_pairing sq).
    + intros e. rewrite fmap_cons, elem_of_cons, Hiff, Hend'. split.
      * intros [->|(pre & j & post & -> & -> & Hpre & Hl)].
        -- exists [], i, rest. split_and!; [done|done|constructor|].
           split; [done|]. exists Empty. split; [done|by left].
        -- exists (i :: pre), j, post. split_and!; [done|done| |done].
           constructor; [|done]. by split.
      * intros (pre & j & post & Heq & -> & Hpre & Hl).
        destruct pre as [|j' pre]; simpl in Heq; injection Heq as <- ->; [by left|].
        right. apply Forall_cons in Hpre as [_ Hpre]. by exists pre, j, post.
  - destruct (decide (colorOf p = Some enemyColor)) as [Hclr|Hclr].
    + exists [m]. split_and!; [done| |].
      * constructor; [|constructor]. by rewrite Hend', (surjective_pairing sq).
      * apply Hstop.
        -- intros e He. simpl in He. apply list_elem_of_singleton in He as ->.
           split; [done|]. split; [done|]. exists p. split; [done|by right].
        -- intros _. simpl. rewrite Hend'. left.
        -- intros [_ Hp']. rewrite Hp in Hp'. by injection Hp'.
    + exists []. split_and!; [intros acc; by rewrite app_nil_r|constructor|].
      apply Hstop.
      * by intros e ?%elem_of_nil.
      * intros (_ & p' & Hp' & Hor). rewrite Hp in Hp'. injection Hp' as <-.
        by destruct Hor.
      * intros [_ Hp']. rewrite Hp in Hp'. by injection Hp'.
Qed.

Lemma range_1_8_split pre i post :
  range_1_8 = pre ++ i :: post → 1 <= i <= 7 ∧ ∀ j, 1 <= j < i → j ∈ pre.
Proof.
  unfold range_1_8. intros H.
  do 7 (destruct pre as [|? pre];
        [injection H as <- <-; split; [lia|];
         intros j Hj; apply (bool_decide_unpack _);
         assert (j = 1 ∨ j = 2 ∨ j = 3 ∨ j = 4 ∨ j = 5 ∨ j = 6) as Hc by lia;
         repeat (destruct Hc as [->|Hc]; [first [lia|by vm_compute]|]);
         first [lia|subst; by vm_compute]|
         injection H as <- H]).
  by destruct pre.
Qed.

Lemma range_1_8_at i :
  1 <= i <= 7 →
  ∃ pre post, range_1_8 = pre ++ i :: post ∧ Forall (λ j, 1 <= j < i) pre.
Proof.
  intros Hi.
  assert (i = 1 ∨ i = 2 ∨ i = 3 ∨ i = 4 ∨ i = 5 ∨ i = 6 ∨ i = 7) as Hc by lia.
  destruct Hc as [->|[->|[->|[->|[->|[->| ->]]]]]].
  - exists [], [2; 3; 4; 5; 6; 7]. split; [done|]. repeat first [apply Forall_nil_2|apply Forall_cons_2; [lia|]].
  - exists [1], [3; 4; 5; 6; 7]. split; [done|]. repeat first [apply Forall_nil_2|apply Forall_cons_2; [lia|]].
  - exists [1; 2], [4; 5; 6; 7]. split; [done|]. repeat first [apply Forall_nil_2|apply Forall_cons_2; [lia|]].
  - exists [1; 2; 3], [5; 6; 7]. split; [done|]. repeat first [apply Forall_nil_2|apply Forall_cons_2; [lia|]].
  - exists [1; 2; 3; 4], [6; 7]. split; [done|]. repeat first [apply Forall_nil_2|apply Forall_cons_2; [lia|]].
  - exists [1; 2; 3; 4; 5], [7]. split; [done|]. repeat first [apply Forall_nil_2|apply Forall_cons_2; [lia|]].
  - exists [1; 2; 3; 4; 5; 6], []. split; [done|]. repeat first [apply Forall_nil_2|apply Forall_cons_2; [lia|]].
Qed.

(** One direction over [range(1, 8)]. *)
Lemma slide_scan b enemyColor row col d :
  wfBoard b → 0 <= row < 8 → 0 <= col < 8 →
  ∃ new,
    (∀ acc, slide b enemyColor row col d range_1_8 acc = Some (acc ++ new)) ∧
    Forall (λ m, Move_init (row, col) (endSq m) b = Some m) new ∧
    ∀ e, e ∈ endSq <$> new ↔
      ∃ i, e = raySq row col d i ∧ scanIncludes b enemyColor row col d i.
Proof.
  intros Hwf Hrow Hcol.
  destruct (slide_steps b enemyColor row col d range_1_8 Hwf Hrow Hcol)
    as (new & Hs & Hnew & Hiff).
  exists new. split_and!; [done..|]. intros e. rewrite Hiff. split.
  - intros (pre & i & post & Heq & -> & Hpre & Hl).
    apply range_1_8_split in Heq as [Hi Hbefore].
    exists i. split; [done|]. unfold scanIncludes. split; [done|]. split; [|done].
    intros j Hj. rewrite Forall_forall in Hpre. by apply Hpre, Hbefore.
  - intros (i & -> & Hi & Hbefore & Hl).
    destruct (range_1_8_at i Hi) as (pre & post & Heq & Hpre).
    exists pre, i, post. split_and!; [done..| |done].
    eapply Forall_impl; [exact Hpre|]. intros j Hj. by apply Hbefore.
Qed.

(** All the directions of one piece. *)
Lemma slideAll_scan b enemyColor row col directions :
  wfBoard b → 0 <= row < 8 → 0 <= col < 8 →
  ∃ new,
    (∀ acc, slideAll b enemyColor row col directions acc = Some (acc ++ new)) ∧
    Forall (λ m, Move_init (row, col) (endSq m) b = Some m) new ∧
    ∀ e, e ∈ endSq <$> new ↔
      ∃ d i, d ∈ directions ∧ e = raySq row col d i ∧
             scanIncludes b enemyColor row col d i.
Proof.
  intros Hwf Hrow Hcol.
  induction directions as [|d rest IH].
  { exists []. cbn [slideAll].
    split_and!; [intros acc; by rewrite app_nil_r|constructor|].
    intros e. split; [by intros ?%elem_of_nil|].
    by intros (d & i & ?%elem_of_nil & _). }
  destruct (slide_scan b enemyColor row col d Hwf Hrow Hcol)
    as (new1 & H1 & Hnew1 & Hiff1).
  destruct IH as (new2 & H2 & Hnew2 & Hiff2).
  exists (new1 ++ new2). split_and!.
  - intros acc. cbn [slideAll]. rewrite H1. cbn [mbind option_bind].
    by rewrite H2, app_assoc.
  - by apply Forall_app.
  - intros e. rewrite fmap_app, elem_of_app, Hiff1, Hiff2. split.
    + intros [(i & -> & Hi)|(d' & i & Hd & -> & Hi)].
      * exists d, i. split_and!; [left|done..].
      * exists d', i. split_and!; [by right|done..].
    + intros (d' & i & Hd & -> & Hi).
      apply elem_of_cons in Hd as [->|Hd]; [left; by exists i|].
      right. by exists d', i.
Qed.

(** The letter the sliding generators compare a blocking piece with. *)
Definition enemyOf (s : GameState) : color :=
  if whiteToMove s then Black else White.

(** C9: on every 8x8 board, from every square of it, the rook and bishop
    generators return, and the destinations they append are exactly the
    squares (row + d0*i, col + d1*i), [d] one of their four directions and
    [1 <= i <= 7], such that all squares at steps before [i] are on the
    board and empty and the square at step [i] is on the board and is empty
    or holds a piece of the enemy colour.  So a scan takes every empty
    square it passes, takes the first enemy-occupied square and nothing
    behind it, takes neither a friendly-occupied square nor anything behind
    it, and nothing off the board.  The queen generator is the rook
    generator followed by the bishop generator on the same square. *)
Theorem C9_sliding_scans s row col :
  wfBoard (board s) → 0 <= row < 8 → 0 <= col < 8 →
  ∃ newR newB,
    (∀ acc, getRookMoves s row col acc = Some (acc ++ newR)) ∧
    (∀ acc, getBishopMoves s row col acc = Some (acc ++ newB)) ∧
    (∀ acc, getQueenMoves s row col acc = Some (acc ++ newR ++ newB)) ∧
    Forall (λ m, Move_init (row, col) (endSq m) (board s) = Some m) (newR ++ newB) ∧
    (∀ e, e ∈ endSq <$> newR ↔
       ∃ d i, d ∈ rookDirections ∧ e = raySq row col d i ∧
              scanIncludes (board s) (enemyOf s) row col d i) ∧
    (∀ e, e ∈ endSq <$> newB ↔
       ∃ d i, d ∈ bishopDirections ∧ e = raySq row col d i ∧
              scanIncludes (board s) (enemyOf s) row col d i) ∧
    (∀ d i k,
       1 <= i < k → ¬ passable (board s) (raySq row col d i) →
       ¬ scanIncludes (board s) (enemyOf s) row col d k).
Proof.
  intros Hwf Hrow Hcol.
  destruct (slideAll_scan (board s) (enemyOf s) row col rookDirections
              Hwf Hrow Hcol) as (newR & HR & HnewR & HiffR).
  destruct (slideAll_scan (board s) (enemyOf s) row col bishopDirections
              Hwf Hrow Hcol) as (newB & HB & HnewB & HiffB).
  exists newR, newB. unfold getQueenMoves, getRookMoves, getBishopMoves.
  fold (enemyOf s). split_and!; [done|done| |by apply Forall_app|done|done|].
  - intros acc. rewrite HR. cbn [mbind option_bind]. by rewrite HB, app_assoc.
  - intros d i k Hik Hblock (_ & Hbefore & _). by apply Hblock, Hbefore.
Qed.

Lemma C9_witness :
  ∃ newR newB,
    (∀ acc, getRookMoves init 7 0 acc = Some (acc ++ newR)) ∧
    (∀ acc, getBishopMoves init 7 0 acc = Some (acc ++ newB)) ∧
    (∀ acc, getQueenMoves init 7 0 acc = Some (acc ++ newR ++ newB)) ∧
    Forall (λ m, Move_init (7, 0) (endSq m) (board init) = Some m) (newR ++ newB) ∧
    (∀ e, e ∈ endSq <$> newR ↔
       ∃ d i, d ∈ rookDirections ∧ e = raySq 7 0 d i ∧
              scanIncludes (board init) (enemyOf init) 7 0 d i) ∧
    (∀ e, e ∈ endSq <$> newB ↔
       ∃ d i, d ∈ bishopDirections ∧ e = raySq 7 0 d i ∧
              scanIncludes (board init) (enemyOf init) 7 0 d i) ∧
    (∀ d i k,
       1 <= i < k → ¬ passable (board init) (raySq 7 0 d i) →
       ¬ scanIncludes (board init) (enemyOf init) 7 0 d k).
Proof.
  apply (C9_sliding_scans init 7 0).
  - apply wfBoard_init.
  - lia.
  - lia.
Defined.

(** ** The king-location fields *)

(** The white king-location field is a square of the board, it holds the
    cell [wK] and no other square does; likewise for black. *)
Definition kingsPlaced (s : GameState) : Prop :=
  onBoard (whiteKingLocation s) = true ∧ onBoard (blackKingLocation s) = true ∧
  ∀ r c, 0 <= r < 8 → 0 <= c < 8 →
    (board_get (board s) r c = Some wK ↔ whiteKingLocation s = (r, c)) ∧
    (board_get (board s) r c = Some bK ↔ blackKingLocation s = (r, c)).

Lemma kingsPlaced_tracked s : kingsPlaced s → kingsTracked s.
Proof.
  intros (_ & _ & H) r c Hr Hc. destruct (H r c Hr Hc) as [Hw Hb].
  split; [apply Hw|apply Hb].
Qed.

Lemma nidx_inj r r' : 0 <= r < 8 → 0 <= r' < 8 → nidx r = nidx r' → r = r'.
Proof. intros ?? H. rewrite !nidx_small in H by done. lia. Qed.

(** The board after [makeMove], read at squares of the board, for a move
    between squares of the board. *)
Lemma makeMove_board_get s m s1 :
  wfBoard (board s) → snapshotOf (board s) m →
  0 <= startRow m < 8 → 0 <= startCol m < 8 →
  0 <= endRow m < 8 → 0 <= endCol m < 8 →
  makeMove s m = Some s1 →
  ∀ r c, 0 <= r < 8 → 0 <= c < 8 →
    board_get (board s1) r c =
      if decide ((r, c) = (endRow m, endCol m)) then Some (pieceMoved m)
      else if decide ((r, c) = (startRow m, startCol m)) then Some Empty
      else board_get (board s) r c.
Proof.
  intros Hwf Hsnap Hsr Hsc Her Hec Hmake r c Hr Hc.
  destruct (makeMove_is_Some s m Hwf Hsnap) as (s1' & Hmake' & Hwf1 & Hcells).
  rewrite Hmake in Hmake'. injection Hmake' as <-.
  rewrite !board_get_cellAt by (done || by apply pyRange_of_bounds).
  rewrite Hcells.
  destruct (decide ((r, c) = (endRow m, endCol m))) as [[= -> ->]|Hne].
  { rewrite decide_True; [done|]. split_and!; [done..|apply nidx_lt]. }
  rewrite decide_False.
  2: { intros (H1 & H2 & _). apply nidx_inj in H1, H2; [|done..]. congruence. }
  destruct (decide ((r, c) = (startRow m, startCol m))) as [[= -> ->]|Hne'].
  { rewrite decide_True; [done|]. split_and!; [done..|apply nidx_lt]. }
  rewrite decide_False; [done|].
  intros (H1 & H2 & _). apply nidx_inj in H1, H2; [|done..]. congruence.
Qed.

Lemma makeMove_fields s m s1 :
  makeMove s m = Some s1 →
  whiteToMove s1 = negb (whiteToMove s) ∧ moveLog s1 = moveLog s ++ [m] ∧
  whiteKingLocation s1 =
    (if decide (pieceMoved m = wK) then (endRow m, endCol m)
     else whiteKingLocation s) ∧
  blackKingLocation s1 =
    (if decide (pieceMoved m = bK) then (endRow m, endCol m)
     else blackKingLocation s) ∧
  checkMate s1 = checkMate s ∧ staleMate s1 = staleMate s.
Proof.
  unfold makeMove. intros H. apply bind_Some in H as (b1 & _ & H).
  apply bind_Some in H as (b2 & _ & H). injection H as <-. simpl.
  split_and!; try done.
  destruct (decide (pieceMoved m = wK)) as [e|]; [|done].
  rewrite e. by rewrite decide_False.
Qed.

(** Making a move between squares of the board that does not take a king
    keeps the king-location fields right. *)
Lemma makeMove_kingsPlaced s m s1 :
  wfBoard (board s) → kingsPlaced s → snapshotOf (board s) m →
  0 <= startRow m < 8 → 0 <= startCol m < 8 →
  0 <= endRow m < 8 → 0 <= endCol m < 8 →
  pieceCaptured m ≠ wK → pieceCaptured m ≠ bK →
  makeMove s m = Some s1 → kingsPlaced s1.
Proof.
  intros Hwf (Hwon & Hbon & Hk) Hsnap Hsr Hsc Her Hec HnotW HnotB Hmake.
  pose proof (makeMove_board_get s m s1 Hwf Hsnap Hsr Hsc Her Hec Hmake) as Hget.
  pose proof (makeMove_fields s m s1 Hmake) as (_ & _ & Hw & Hb & _).
  destruct Hsnap as [Hpm Hpc].
  destruct (Hk _ _ Hsr Hsc) as [HwS HbS]. destruct (Hk _ _ Her Hec) as [HwE HbE].
  rewrite Hpm in HwS, HbS. rewrite Hpc in HwE, HbE.
  assert (∀ k : cell, k ≠ Empty → ∀ loc loc1 : Z * Z,
            onBoard loc = true →
            (Some (pieceMoved m) = Some k ↔ loc = (startRow m, startCol m)) →
            (Some (pieceCaptured m) = Some k ↔ loc = (endRow m, endCol m)) →
            pieceCaptured m ≠ k →
            loc1 = (if decide (pieceMoved m = k) then (endRow m, endCol m) else loc) →
            (∀ r c, 0 <= r < 8 → 0 <= c < 8 →
               board_get (board s) r c = Some k ↔ loc = (r, c)) →
            onBoard loc1 = true ∧
            ∀ r c, 0 <= r < 8 → 0 <= c < 8 →
              board_get (board s1) r c = Some k ↔ loc1 = (r, c)) as Hone.
  { intros k Hk0 loc loc1 Hon HS HE Hnot -> Hold. split.
    - destruct (decide (pieceMoved m = k)); [|done].
      unfold onBoard, inBounds. simpl.
      by rewrite !bool_decide_eq_true_2.
    - intros r c Hr Hc. rewrite (Hget r c Hr Hc).
      destruct (decide ((r, c) = (endRow m, endCol m))) as [Heq|Hne].
      + destruct (decide (pieceMoved m = k)) as [Hpk|Hpk].
        * split; intros _; [by rewrite Heq|by rewrite Hpk].
        * split; [intros [= ?]; done|]. intros Hloc. exfalso. apply Hnot.
          rewrite Heq in Hloc.
          assert (Some (pieceCaptured m) = Some k) as [= ?] by (by apply HE). done.
      + destruct (decide ((r, c) = (startRow m, startCol m))) as [Heq'|Hne'].
        * split; [intros [= ?]; by subst k|].
          destruct (decide (pieceMoved m = k)) as [Hpk|Hpk]; [congruence|].
          intros Hloc. exfalso. apply Hpk. rewrite Heq' in Hloc.
          assert (Some (pieceMoved m) = Some k) as [= ?] by (by apply HS). done.
        * rewrite (Hold r c Hr Hc).
          destruct (decide (pieceMoved m = k)) as [Hpk|Hpk]; [|done].
          assert (loc = (startRow m, startCol m)) as ->
            by (apply HS; by rewrite Hpk).
          split; intros H; congruence. }
  destruct (Hone wK ltac:(done) (whiteKingLocation s) (whiteKingLocation s1))
    as [Hon1 Hiff1]; [done..| |].
  { intros r c Hr Hc. apply Hk; done. }
  destruct (Hone bK ltac:(done) (blackKingLocation s) (blackKingLocation s1))
    as [Hon2 Hiff2]; [done..| |].
  { intros r c Hr Hc. apply Hk; done. }
  split_and!; [done..|]. intros r c Hr Hc. split; [by apply Hiff1|by apply Hiff2].
Qed.

Lemma kingsPlaced_init : kingsPlaced init.
Proof.
  split_and!; [done..|]. intros r c Hr Hc.
  assert (r = 0 ∨ r = 1 ∨ r = 2 ∨ r = 3 ∨ r = 4 ∨ r = 5 ∨ r = 6 ∨ r = 7) as Hrs by lia.
  assert (c = 0 ∨ c = 1 ∨ c = 2 ∨ c = 3 ∨ c = 4 ∨ c = 5 ∨ c = 6 ∨ c = 7) as Hcs by lia.
  destruct Hrs as [->|[->|[->|[->|[->|[->|[->| ->]]]]]]];
    destruct Hcs as [->|[->|[->|[->|[->|[->|[->| ->]]]]]]];
    vm_compute; split; split; congruence.
Qed.

Lemma kingsPlaced_compute s :
  onBoard (whiteKingLocation s) = true → onBoard (blackKingLocation s) = true →
  forallb (λ r, forallb (λ c,
    bool_decide (board_get (board s) r c = Some wK ↔ whiteKingLocation s = (r, c))
    && bool_decide (board_get (board s) r c = Some bK ↔ blackKingLocation s = (r, c)))
    (range 8)) (range 8) = true →
  kingsPlaced s.
Proof.
  intros Hw Hb H. split_and!; [done..|]. intros r c Hr Hc.
  rewrite forallb_forall in H.
  assert (∀ i, 0 <= i < 8 → In i (range 8)) as Hin.
  { intros i Hi. apply list_elem_of_In. unfold range. apply list_elem_of_fmap.
    exists (Z.to_nat i). split; [lia|]. apply elem_of_seq. lia. }
  specialize (H r (Hin r Hr)). rewrite forallb_forall in H.
  specialize (H c (Hin c Hc)).
  apply andb_true_iff in H as [H1%bool_decide_eq_true H2%bool_decide_eq_true].
  done.
Qed.

(** C5, as stated, fails.  In the initial state, the move built from e2 to
    e1 (which [makeMove] accepts: it checks nothing) replaces the white
    king by a pawn.  And after the legal game [kingHunt], the list
    [getValidMoves] returns holds the move of the pawn on row 0 to row -1,
    column 7, that is onto h1 where the black king stands; [getValidMoves]
    makes this move while filtering.  After either [makeMove] no square
    holds the king and the field still names its old square. *)
Lemma C5_counterexample :
  (∃ m s1,
     kingsPlaced init ∧ Move_init (6, 4) (7, 4) (board init) = Some m ∧
     makeMove init m = Some s1 ∧ ¬ kingsPlaced s1) ∧
  (∃ gs valid m gs1,
     main kingHunt = Some (gs, valid) ∧ kingsPlaced gs ∧
     m ∈ valid ∧ coords m = (0, 6, -1, 7) ∧ pieceCaptured m = bK ∧
     makeMove gs m = Some gs1 ∧ ¬ kingsPlaced gs1).
Proof.
  split.
  - eexists _, _. split; [apply kingsPlaced_init|].
    split; [reflexivity|]. split; [reflexivity|].
    intros (_ & _ & H). destruct (H 7 4) as [[_ Hw] _]; [lia..|].
    specialize (Hw eq_refl). by vm_compute in Hw.
  - pose proof main_kingHunt as H. unfold afterKingHunt in H.
    eexists _, _, (mkMove 0 6 (-1) 7 wp bK 597), _. split; [exact H|].
    split; [apply kingsPlaced_compute; by vm_compute|].
    split; [apply (bool_decide_unpack _); by vm_compute|].
    split; [done|]. split; [done|]. split; [reflexivity|].
    intros (_ & _ & Hk). destruct (Hk 7 7) as [_ [_ Hb]]; [lia..|].
    specialize (Hb eq_refl). by vm_compute in Hb.
Qed.

(** C5, amended: the king-location fields are right in the initial state;
    [makeMove] keeps them right for every move built against the current
    board between squares with coordinates in 0..7 that does not take a
    king, changing a field exactly when the moved piece is that king (to
    the destination square, read off the move, not off the board); and the
    [undoMove] that follows gives back the state before, fields
    included. *)
Theorem C5_king_fields_follow_the_kings :
  kingsPlaced init ∧
  ∀ s m s1,
    wfBoard (board s) → kingsPlaced s → snapshotOf (board s) m →
    0 <= startRow m < 8 → 0 <= startCol m < 8 →
    0 <= endRow m < 8 → 0 <= endCol m < 8 →
    pieceCaptured m ≠ wK → pieceCaptured m ≠ bK →
    makeMove s m = Some s1 →
    kingsPlaced s1 ∧
    whiteKingLocation s1 =
      (if decide (pieceMoved m = wK) then (endRow m, endCol m)
       else whiteKingLocation s) ∧
    blackKingLocation s1 =
      (if decide (pieceMoved m = bK) then (endRow m, endCol m)
       else blackKingLocation s) ∧
    undoMove s1 = Some s.
Proof.
  split; [apply kingsPlaced_init|].
  intros s m s1 Hwf Hk Hsnap Hsr Hsc Her Hec HnW HnB Hmake.
  pose proof (makeMove_fields s m s1 Hmake) as (_ & _ & Hw & Hb & _).
  split_and!; [|done|done|].
  - by eapply makeMove_kingsPlaced.
  - eapply makeMove_undoMove; [done..| |done].
    destruct Hsnap as [Hpm _]. destruct Hk as (_ & _ & Hk).
    destruct (Hk _ _ Hsr Hsc) as [HwS HbS]. rewrite Hpm in HwS, HbS.
    split; intros Heq; [apply HwS|apply HbS]; by rewrite Heq.
Qed.

Lemma C5_witness :
  ∃ s1,
    makeMove init (mkMove 7 6 5 5 wN Empty 7655) = Some s1 ∧
    kingsPlaced s1 ∧
    whiteKingLocation s1 = (7, 4) ∧ blackKingLocation s1 = (0, 4) ∧
    undoMove s1 = Some init.
Proof.
  eexists. split; [reflexivity|].
  apply (proj2 C5_king_fields_follow_the_kings init
           (mkMove 7 6 5 5 wN Empty 7655)); try done; try lia.
  - apply wfBoard_init.
  - apply kingsPlaced_init.
Defined.

(** * Further properties of the engine and its driver *)

(** ** When [getValidMoves] returns *)

(** The filtering loop returns as soon as the test of every candidate
    does. *)
Lemma filterLoop_total s pre post :
  wfBoard (board s) →
  Forall (λ m, snapshotOf (board s) m ∧ kingAtStart s m) pre →
  NoDup (moveID <$> pre ++ post) →
  Forall (λ m, is_Some (exposes s m)) pre →
  filterLoop (range_down (length pre)) s (pre ++ post)
  = Some (s, filter (λ m, exposes s m = Some false) pre ++ post).
Proof.
  intros Hwf. revert post.
  induction pre as [|m pre IH] using rev_ind; intros post Hpre Hnd Hall; [done|].
  rewrite length_app, Nat.add_comm. simpl.
  rewrite range_down_S. cbn [filterLoop].
  rewrite <- app_assoc in Hnd |- *. simpl in Hnd |- *.
  rewrite py_get_middle. cbn [mbind option_bind].
  apply Forall_app in Hpre as [Hpre Hm]. apply Forall_singleton in Hm as [Hsnap Hking].
  apply Forall_app in Hall as [Hall [chk Hexp]%Forall_singleton].
  pose proof Hexp as Hexp'. unfold exposes in Hexp'.
  apply bind_Some in Hexp' as (s1 & Hmake & Hexp').
  apply bind_Some in Hexp' as ([chk' s3] & Hchk & [= ->]).
  pose proof (inCheck_Some _ _ _ Hchk) as [-> _].
  rewrite Hmake. cbn [mbind option_bind]. rewrite Hchk. cbn [mbind option_bind].
  rewrite flipTurn_involutive.
  rewrite (makeMove_undoMove s m s1) by done.
  rewrite fmap_app, fmap_cons in Hnd.
  destruct chk.
  - rewrite py_remove_middle.
    2: { apply NoDup_app in Hnd as (_ & Hdis & _). apply Forall_forall.
         intros y Hy Heq. apply (Hdis (moveID y)).
         - by apply list_elem_of_fmap_2.
         - rewrite Heq. left. }
    cbn [mbind option_bind]. rewrite IH; [|done| |done].
    2: { rewrite fmap_app. eapply sublist_NoDup; [exact Hnd|].
         apply sublist_app; [done|]. by apply sublist_cons. }
    rewrite filter_app, filter_cons_False, filter_nil, app_nil_r; [done|].
    by rewrite Hexp.
  - cbn [mbind option_bind]. rewrite IH; [|done| |done].
    2: { by rewrite fmap_app, fmap_cons. }
    rewrite filter_app, filter_cons_True, filter_nil by done.
    by rewrite <- app_assoc.
Qed.

(** The flags [getValidMoves] leaves, given the list it returns and the
    answer of [inCheck]. *)
Definition flagsAfter (valid : list Move) (chk : bool) (s : GameState) : GameState :=
  match valid with
  | [] => if chk then setFlags true (staleMate s) s else setFlags (checkMate s) true s
  | _ :: _ => setFlags false false s
  end.

Lemma getValidMoves_returns s cands :
  wfBoard (board s) → kingsTracked s →
  getAllPossibleMoves s = Some cands →
  Forall (λ m, is_Some (exposes s m)) cands →
  (filter (λ m, exposes s m = Some false) cands = [] → is_Some (inCheck s)) →
  ∃ chk,
    (filter (λ m, exposes s m = Some false) cands = [] → inCheck s = Some (chk, s)) ∧
    getValidMoves s
    = Some (filter (λ m, exposes s m = Some false) cands,
            flagsAfter (filter (λ m, exposes s m = Some false) cands) chk s).
Proof.
  intros Hwf Hk Hcands Hall Hchk. unfold getValidMoves. rewrite Hcands.
  cbn [mbind option_bind].
  pose proof (getAllPossibleMoves_pseudo _ _ Hwf Hcands) as [Hps _].
  pose proof (getAllPossibleMoves_NoDup_moveID _ _ Hwf Hcands) as Hnd.
  pose proof (filterLoop_total s cands [] Hwf) as Hloop.
  rewrite !app_nil_r in Hloop. rewrite Hloop; [|
    eapply Forall_impl; [exact Hps|]; intros m Hm;
    split; [by eapply pseudo_snapshot|by apply pseudo_kingAtStart] |done|done].
  cbn [mbind option_bind].
  destruct (filter _ cands) as [|v valid] eqn:Hf.
  - destruct (Hchk eq_refl) as [[chk s2] Hc].
    pose proof (inCheck_Some _ _ _ Hc) as [-> _].
    exists chk. split; [done|]. simpl. rewrite Hc. cbn [mbind option_bind].
    by destruct chk.
  - exists false. split; [done|]. done.
Qed.

(** ** Knight and king steps *)

(** The square is on the board and holds no piece of colour [allyColor]. *)
Definition stepIncludes (b : Board) (allyColor : color) (sq : Z * Z) : Prop :=
  inBounds sq.1 sq.2 = true ∧
  ∃ p, board_get b sq.1 sq.2 = Some p ∧ colorOf p ≠ Some allyColor.

Lemma stepAll_scan b allyColor row col offsets :
  wfBoard b → 0 <= row < 8 → 0 <= col < 8 →
  ∃ new,
    (∀ acc, stepAll b allyColor row col offsets acc = Some (acc ++ new)) ∧
    Forall (λ m, Move_init (row, col) (endSq m) b = Some m) new ∧
    ∀ e, e ∈ endSq <$> new ↔
      ∃ o, o ∈ offsets ∧ e = (row + o.1, col + o.2) ∧ stepIncludes b allyColor e.
Proof.
  intros Hwf Hrow Hcol.
  induction offsets as [|o rest IH].
  { exists []. split_and!; [intros acc; simpl; by rewrite app_nil_r|constructor|].
    intros e. split; [by intros ?%elem_of_nil|].
    by intros (o & ?%elem_of_nil & _). }
  destruct IH as (new & Hrest & Hnew & Hiff).
  set (sq := (row + o.1, col + o.2)).
  assert (∀ skipped : ¬ stepIncludes b allyColor sq,
            ∀ e, e ∈ endSq <$> new ↔
              ∃ o', o' ∈ o :: rest ∧ e = (row + o'.1, col + o'.2) ∧
                    stepIncludes b allyColor e) as Hskip.
  { intros Hno e. rewrite Hiff. split.
    - intros (o' & Ho' & He). exists o'. split; [by right|done].
    - intros (o' & Ho' & -> & Hinc). apply elem_of_cons in Ho' as [->|Ho'];
        [done|]. by exists o'. }
  destruct (inBounds sq.1 sq.2) eqn:Hin.
  2: { exists new. split_and!; [|done|].
       - intros acc. cbn [stepAll]. fold sq. simpl in Hin. rewrite Hin.
         cbn [mbind option_bind]. apply Hrest.
       - apply Hskip. intros [Hin' _]. congruence. }
  pose proof (inBounds_range _ _ Hin) as [Hr Hc].
  destruct (board_get_is_Some b sq.1 sq.2) as [p Hp];
    [done|by apply pyRange_of_bounds..|].
  destruct (decide (colorOf p ≠ Some allyColor)) as [Hclr|Hclr].
  - destruct (appendMove_is_Some b row col sq.1 sq.2 []) as (m & _ & Hm & Hend);
      [done|done|done|by apply pyRange_of_bounds..|].
    exists (m :: new). split_and!.
    + intros acc. cbn [stepAll]. simpl in Hin, Hp. rewrite Hin, Hp.
      cbn [mbind option_bind]. rewrite decide_True by done.
      unfold appendMove. simpl in Hm. rewrite Hm. cbn [mbind option_bind].
      by rewrite Hrest, <- app_assoc.
    + constructor; [|done]. by rewrite Hend.
    + intros e. rewrite fmap_cons, elem_of_cons, Hiff, Hend. split.
      * intros [->|(o' & Ho' & He)].
        -- exists o. split_and!; [left|done|]. split; [done|]. by exists p.
        -- exists o'. split; [by right|done].
      * intros (o' & Ho' & -> & Hinc).
        apply elem_of_cons in Ho' as [->|Ho']; [by left|]. right. by exists o'.
  - exists new. split_and!; [|done|].
    + intros acc. cbn [stepAll]. simpl in Hin, Hp. rewrite Hin, Hp.
      cbn [mbind option_bind]. rewrite decide_False by done.
      cbn [mbind option_bind]. apply Hrest.
    + apply Hskip. intros (_ & p' & Hp' & Hc'). rewrite Hp in Hp'.
      injection Hp' as <-. done.
Qed.

(** The colour of the pieces [getAllPossibleMoves] moves, as the knight and
    king generators compute it. *)
Lemma allyColor_mover s : (if whiteToMove s then White else Black) = mover s.
Proof. done. Qed.

(** X1: on every 8x8 board and from every square of it, the knight and king
    generators return, and the destinations they append are exactly the
    squares at one of their eight offsets that are on the board and do not
    hold a piece of the colour to move. *)
Theorem knight_and_king_destinations s row col :
  wfBoard (board s) → 0 <= row < 8 → 0 <= col < 8 →
  ∃ newN newK,
    (∀ acc, getKnightMoves s row col acc = Some (acc ++ newN)) ∧
    (∀ acc, getKingMoves s row col acc = Some (acc ++ newK)) ∧
    Forall (λ m, Move_init (row, col) (endSq m) (board s) = Some m) (newN ++ newK) ∧
    (∀ e, e ∈ endSq <$> newN ↔
       ∃ o, o ∈ knightMoves ∧ e = (row + o.1, col + o.2) ∧
            stepIncludes (board s) (mover s) e) ∧
    (∀ e, e ∈ endSq <$> newK ↔
       ∃ o, o ∈ kingMoves ∧ e = (row + o.1, col + o.2) ∧
            stepIncludes (board s) (mover s) e).
Proof.
  intros Hwf Hrow Hcol.
  destruct (stepAll_scan (board s) (mover s) row col knightMoves Hwf Hrow Hcol)
    as (newN & HN & HnewN & HiffN).
  destruct (stepAll_scan (board s) (mover s) row col kingMoves Hwf Hrow Hcol)
    as (newK & HK & HnewK & HiffK).
  exists newN, newK. unfold getKnightMoves, getKingMoves.
  rewrite allyColor_mover. split_and!; [done..|by apply Forall_app|done|done].
Qed.

Lemma knight_and_king_destinations_witness :
  ∃ newN newK,
    (∀ acc, getKnightMoves init 7 1 acc = Some (acc ++ newN)) ∧
    (∀ acc, getKingMoves init 7 1 acc = Some (acc ++ newK)) ∧
    Forall (λ m, Move_init (7, 1) (endSq m) (board init) = Some m) (newN ++ newK) ∧
    (∀ e, e ∈ endSq <$> newN ↔
       ∃ o, o ∈ knightMoves ∧ e = (7 + o.1, 1 + o.2) ∧
            stepIncludes (board init) (mover init) e) ∧
    (∀ e, e ∈ endSq <$> newK ↔
       ∃ o, o ∈ kingMoves ∧ e = (7 + o.1, 1 + o.2) ∧
            stepIncludes (board init) (mover init) e).
Proof.
  apply (knight_and_king_destinations init 7 1).
  - apply wfBoard_init.
  - lia.
  - lia.
Defined.

(** ** Pawn moves *)

(** The destinations of a pawn on (row, col) that advances by [dr] rows,
    starts on row [home] and captures pieces of colour [enemy].  Cells are
    read the way Python reads them: row -1 is the last row of the board. *)
Definition pawnIncludes (b : Board) (dr home : Z) (enemy : color)
    (row col : Z) (e : Z * Z) : Prop :=
  (e = (row + dr, col) ∧ board_get b (row + dr) col = Some Empty) ∨
  (e = (row + 2 * dr, col) ∧ row = home ∧
   board_get b (row + dr) col = Some Empty ∧
   board_get b (row + 2 * dr) col = Some Empty) ∨
  (e = (row + dr, col - 1) ∧ col - 1 >= 0 ∧
   ∃ p, board_get b (row + dr) (col - 1) = Some p ∧ colorOf p = Some enemy) ∨
  (e = (row + dr, col + 1) ∧ col + 1 <= 7 ∧
   ∃ p, board_get b (row + dr) (col + 1) = Some p ∧ colorOf p = Some enemy).

Lemma appendMove_any b row col er ec :
  wfBoard b → 0 <= row < 8 → 0 <= col < 8 → pyRange er → pyRange ec →
  ∃ m, (∀ acc, appendMove b row col er ec acc = Some (acc ++ [m])) ∧
       Move_init (row, col) (endSq m) b = Some m ∧ endSq m = (er, ec).
Proof.
  intros Hwf Hr Hc Her Hec.
  destruct (appendMove_is_Some b row col er ec [] Hwf Hr Hc Her Hec)
    as (m & _ & Hm & Hend).
  exists m. split_and!; [|by rewrite Hend|done].
  intros acc. unfold appendMove. by rewrite Hm.
Qed.

(** One optional capture of the pawn: the two [if]s around an [append]. *)
Lemma pawnCapture_scan b enemy row col er ec (guard : bool) :
  wfBoard b → 0 <= row < 8 → 0 <= col < 8 → pyRange er →
  (guard = true → pyRange ec) →
  ∃ new,
    (∀ acc,
       (if guard then
          target ← board_get b er ec;
          if decide (colorOf target = Some enemy)
          then appendMove b row col er ec acc
          else Some acc
        else Some acc) = Some (acc ++ new)) ∧
    Forall (λ m, Move_init (row, col) (endSq m) b = Some m) new ∧
    ∀ e, e ∈ endSq <$> new ↔
      e = (er, ec) ∧ guard = true ∧
      ∃ p, board_get b er ec = Some p ∧ colorOf p = Some enemy.
Proof.
  intros Hwf Hrow Hcol Her Hec.
  assert (∀ P : Prop, ¬ P →
            ∀ e, e ∈ endSq <$> ([] : list Move) ↔ e = (er, ec) ∧ P) as Hnone.
  { intros P HP e. split; [by intros ?%elem_of_nil|]. by intros [_ ?]. }
  destruct guard.
  2: { exists []. split_and!; [intros acc; by rewrite app_nil_r|constructor|].
       intros e. rewrite Hnone; [done|]. by intros [? _]. }
  specialize (Hec eq_refl).
  destruct (board_get_is_Some b er ec Hwf Her Hec) as [p Hp]. rewrite Hp.
  cbn [mbind option_bind].
  destruct (decide (colorOf p = Some enemy)) as [Hclr|Hclr].
  - destruct (appendMove_any b row col er ec Hwf Hrow Hcol Her Hec)
      as (m & Happ & Hm & Hend).
    exists [m]. split_and!; [done|by constructor|].
    intros e. simpl. rewrite list_elem_of_singleton, Hend. split.
    + intros ->. split_and!; [done..|]. by exists p.
    + by intros [-> _].
  - exists []. split_and!; [intros acc; by rewrite app_nil_r|constructor|].
    intros e. rewrite Hnone; [done|].
    intros (_ & p' & [= <-] & Hc'). done.
Qed.

Lemma pawnBranch_scan b dr home enemy row col :
  wfBoard b → 0 <= row < 8 → 0 <= col < 8 →
  (dr = -1 ∧ home = 6) ∨ (dr = 1 ∧ home = 1) →
  pyRange (row + dr) →
  ∃ new,
    (∀ acc, pawnBranch b dr home enemy row col acc = Some (acc ++ new)) ∧
    Forall (λ m, Move_init (row, col) (endSq m) b = Some m) new ∧
    ∀ e, e ∈ endSq <$> new ↔ pawnIncludes b dr home enemy row col e.
Proof.
  intros Hwf Hrow Hcol Hdr Hr1.
  destruct (board_get_is_Some b (row + dr) col Hwf Hr1) as [ahead Hahead];
    [by apply pyRange_of_bounds|].
  assert (row = home → pyRange (row + 2 * dr)) as Hr2 by (unfold pyRange; lia).
  (* the advances *)
  assert (∃ new1,
    (∀ acc,
       (if decide (ahead = Empty) then
          moves ← appendMove b row col (row + dr) col acc;
          if bool_decide (row = home) then
            ahead2 ← board_get b (row + 2 * dr) col;
            if decide (ahead2 = Empty)
            then appendMove b row col (row + 2 * dr) col moves
            else Some moves
          else Some moves
        else Some acc) = Some (acc ++ new1)) ∧
    Forall (λ m, Move_init (row, col) (endSq m) b = Some m) new1 ∧
    ∀ e, e ∈ endSq <$> new1 ↔
      (e = (row + dr, col) ∧ ahead = Empty) ∨
      (e = (row + 2 * dr, col) ∧ row = home ∧ ahead = Empty ∧
       board_get b (row + 2 * dr) col = Some Empty)) as (new1 & H1 & Hb1 & Hiff1).
  { destruct (decide (ahead = Empty)) as [Ha|Ha].
    2: { exists []. split_and!; [intros acc; by rewrite app_nil_r|constructor|].
         intros e. split; [by intros ?%elem_of_nil|]. by intros [[_ ?]|(_ & _ & ? & _)]. }
    destruct (appendMove_any b row col (row + dr) col Hwf Hrow Hcol Hr1)
      as (m1 & Happ1 & Hm1 & Hend1); [by apply pyRange_of_bounds|].
    destruct (bool_decide (row = home)) eqn:Hhome.
    2: { apply bool_decide_eq_false in Hhome.
         exists [m1]. split_and!; [|by constructor|].
         - intros acc. by rewrite Happ1.
         - intros e. simpl. rewrite list_elem_of_singleton, Hend1. split.
           + intros ->. by left.
           + by intros [[-> _]|(_ & ? & _)]. }
    apply bool_decide_eq_true in Hhome. specialize (Hr2 Hhome).
    destruct (board_get_is_Some b (row + 2 * dr) col Hwf Hr2) as [ahead2 Hahead2];
      [by apply pyRange_of_bounds|].
    destruct (decide (ahead2 = Empty)) as [Ha2|Ha2].
    - destruct (appendMove_any b row col (row + 2 * dr) col Hwf Hrow Hcol Hr2)
        as (m2 & Happ2 & Hm2 & Hend2); [by apply pyRange_of_bounds|].
      exists [m1; m2]. split_and!; [|by repeat constructor|].
      + intros acc. rewrite Happ1. cbn [mbind option_bind]. rewrite Hahead2.
        cbn [mbind option_bind]. rewrite decide_True by done.
        by rewrite Happ2, <- app_assoc.
      + intros e. simpl. rewrite !elem_of_cons, elem_of_nil, Hend1, Hend2. split.
        * intros [->|[->|[]]]; [by left|right]. rewrite Hahead2, Ha2. done.
        * intros [[-> _]|(-> & _)]; tauto.
    - exists [m1]. split_and!; [|by constructor|].
      + intros acc. rewrite Happ1. cbn [mbind option_bind]. rewrite Hahead2.
        cbn [mbind option_bind]. by rewrite decide_False.
      + intros e. simpl. rewrite list_elem_of_singleton, Hend1. split.
        * intros ->. by left.
        * intros [[-> _]|(_ & _ & _ & Hc)]; [done|].
          rewrite Hahead2 in Hc. by injection Hc. }
  destruct (pawnCapture_scan b enemy row col (row + dr) (col - 1)
              (bool_decide (col - 1 >= 0)) Hwf Hrow Hcol Hr1)
    as (new2 & H2 & Hb2 & Hiff2).
  { intros ?%bool_decide_eq_true. unfold pyRange. lia. }
  destruct (pawnCapture_scan b enemy row col (row + dr) (col + 1)
              (bool_decide (col + 1 <= 7)) Hwf Hrow Hcol Hr1)
    as (new3 & H3 & Hb3 & Hiff3).
  { intros ?%bool_decide_eq_true. unfold pyRange. lia. }
  exists (new1 ++ new2 ++ new3). split_and!.
  - intros acc. unfold pawnBranch. rewrite Hahead. cbn [mbind option_bind].
    rewrite H1. cbn [mbind option_bind]. rewrite H2. cbn [mbind option_bind].
    by rewrite H3, <- !app_assoc.
  - by rewrite !Forall_app.
  - intros e. rewrite !fmap_app, !elem_of_app, Hiff1, Hiff2, Hiff3.
    unfold pawnIncludes. rewrite !bool_decide_eq_true, Hahead.
    split.
    + intros [[[-> ->]|(-> & ? & -> & ?)]|[(-> & ? & ?)|(-> & ? & ?)]]; tauto.
    + intros [[-> [= ->]]|[(-> & ? & [= ->] & ?)|[(-> & ? & ?)|(-> & ? & ?)]]];
        tauto.
Qed.

Lemma pawnBranch_raises b dr home enemy row col acc :
  wfBoard b → ¬ pyRange (row + dr) →
  pawnBranch b dr home enemy row col acc = None.
Proof.
  intros Hwf Hr. unfold pawnBranch.
  destruct (board_get b (row + dr) col) as [p|] eqn:Hp; [|done].
  by apply board_get_Some_range in Hp as [? _].
Qed.

(** X2: the pawn generator, on an 8x8 board and a square of it.  With black
    to move and the pawn on row 7 it raises (it reads row 8).  Otherwise it
    returns and appends exactly: the square ahead when empty; the square
    two ahead when the pawn is on its starting row and both are empty; the
    two squares diagonally ahead when they hold an enemy piece.  For a
    white pawn on row 0 "ahead" is row -1, which Python reads as row 7. *)
Theorem pawn_destinations s row col :
  wfBoard (board s) → 0 <= row < 8 → 0 <= col < 8 →
  (whiteToMove s = false → row = 7 →
     ∀ acc, getPawnMoves s row col acc = None) ∧
  (whiteToMove s = false → row ≠ 7 →
     ∃ new,
       (∀ acc, getPawnMoves s row col acc = Some (acc ++ new)) ∧
       Forall (λ m, Move_init (row, col) (endSq m) (board s) = Some m) new ∧
       ∀ e, e ∈ endSq <$> new ↔ pawnIncludes (board s) 1 1 White row col e) ∧
  (whiteToMove s = true →
     ∃ new,
       (∀ acc, getPawnMoves s row col acc = Some (acc ++ new)) ∧
       Forall (λ m, Move_init (row, col) (endSq m) (board s) = Some m) new ∧
       ∀ e, e ∈ endSq <$> new ↔ pawnIncludes (board s) (-1) 6 Black row col e).
Proof.
  intros Hwf Hrow Hcol. unfold getPawnMoves. split_and!.
  - intros -> -> acc. apply pawnBranch_raises; [done|]. unfold pyRange. lia.
  - intros -> Hne. apply pawnBranch_scan; [done..|by right|]. unfold pyRange. lia.
  - intros ->. apply pawnBranch_scan; [done..|by left|]. unfold pyRange. lia.
Qed.

Lemma pawn_destinations_witness :
  (whiteToMove init = false → 6 = 7 →
     ∀ acc, getPawnMoves init 6 4 acc = None) ∧
  (whiteToMove init = false → 6 ≠ 7 →
     ∃ new,
       (∀ acc, getPawnMoves init 6 4 acc = Some (acc ++ new)) ∧
       Forall (λ m, Move_init (6, 4) (endSq m) (board init) = Some m) new ∧
       ∀ e, e ∈ endSq <$> new ↔ pawnIncludes (board init) 1 1 White 6 4 e) ∧
  (whiteToMove init = true →
     ∃ new,
       (∀ acc, getPawnMoves init 6 4 acc = Some (acc ++ new)) ∧
       Forall (λ m, Move_init (6, 4) (endSq m) (board init) = Some m) new ∧
       ∀ e, e ∈ endSq <$> new ↔ pawnIncludes (board init) (-1) 6 Black 6 4 e).
Proof.
  apply (pawn_destinations init 6 4).
  - apply wfBoard_init.
  - lia.
  - lia.
Defined.

(** ** When [getAllPossibleMoves] returns *)

(** No black pawn stands on row 7. *)
Definition lastRowClear (b : Board) : Prop :=
  ∀ c, 0 <= c < 8 → board_get b 7 c ≠ Some bp.

Lemma moveFunctions_scan s k row col :
  wfBoard (board s) → 0 <= row < 8 → 0 <= col < 8 →
  (k = Pawn → whiteToMove s = false → row ≠ 7) →
  ∃ new, ∀ acc, moveFunctions k s row col acc = Some (acc ++ new).
Proof.
  intros Hwf Hrow Hcol Hpawn.
  destruct (slideAll_scan (board s) (enemyOf s) row col rookDirections
              Hwf Hrow Hcol) as (newR & HR & _).
  destruct (slideAll_scan (board s) (enemyOf s) row col bishopDirections
              Hwf Hrow Hcol) as (newB & HB & _).
  destruct (stepAll_scan (board s) (mover s) row col knightMoves Hwf Hrow Hcol)
    as (newN & HN & _).
  destruct (stepAll_scan (board s) (mover s) row col kingMoves Hwf Hrow Hcol)
    as (newK & HK & _).
  destruct k; simpl; eauto.
  - unfold getPawnMoves. destruct (whiteToMove s) eqn:Hturn.
    + destruct (pawnBranch_scan (board s) (-1) 6 Black row col Hwf Hrow Hcol)
        as (new & Hnew & _); [by left|unfold pyRange; lia|]. eauto.
    + destruct (pawnBranch_scan (board s) 1 1 White row col Hwf Hrow Hcol)
        as (new & Hnew & _); [by right| |by eauto].
      specialize (Hpawn eq_refl eq_refl). unfold pyRange. lia.
  - exists (newR ++ newB). intros acc. unfold getQueenMoves, getRookMoves.
    fold (enemyOf s). rewrite HR. cbn [mbind option_bind].
    unfold getBishopMoves. fold (enemyOf s). by rewrite HB, app_assoc.
Qed.

Lemma visitSquare_scan s row col :
  wfBoard (board s) → 0 <= row < 8 → 0 <= col < 8 →
  (board_get (board s) row col = Some bp → whiteToMove s = false → row ≠ 7) →
  ∃ new, ∀ acc, visitSquare s row col acc = Some (acc ++ new).
Proof.
  intros Hwf Hrow Hcol Hpawn. unfold visitSquare.
  destruct (board_get_is_Some (board s) row col Hwf) as [p Hp];
    [by apply pyRange_of_bounds..|].
  rewrite Hp. cbn [mbind option_bind].
  destruct p as [|c k]; [exists []; intros acc; by rewrite app_nil_r|].
  destruct (bool_decide (c = White) && whiteToMove s
            || bool_decide (c = Black) && negb (whiteToMove s)) eqn:Hturn;
    [|exists []; intros acc; by rewrite app_nil_r].
  apply moveFunctions_scan; [done..|]. intros -> Hblack. apply Hpawn; [|done].
  rewrite Hblack in Hturn. destruct c; [done|]. by rewrite Hp.
Qed.

Lemma visitSquare_raises s col acc :
  wfBoard (board s) → 0 <= col < 8 → whiteToMove s = false →
  board_get (board s) 7 col = Some bp →
  visitSquare s 7 col acc = None.
Proof.
  intros Hwf Hcol Hturn Hp. unfold visitSquare. rewrite Hp, Hturn. simpl.
  unfold getPawnMoves. rewrite Hturn. apply pawnBranch_raises; [done|].
  unfold pyRange. lia.
Qed.

Lemma visitCols_scan s row cols :
  wfBoard (board s) → 0 <= row < 8 → Forall (λ c, 0 <= c < 8) cols →
  (whiteToMove s = false → row = 7 → lastRowClear (board s)) →
  ∃ new, ∀ acc, visitCols s row cols acc = Some (acc ++ new).
Proof.
  intros Hwf Hrow Hcols Hclear.
  induction Hcols as [|col rest Hcol _ IH].
  { exists []. intros acc. simpl. by rewrite app_nil_r. }
  destruct IH as (new2 & H2).
  destruct (visitSquare_scan s row col Hwf Hrow Hcol) as (new1 & H1).
  { intros Hp Hturn ->. by apply (Hclear Hturn eq_refl col). }
  exists (new1 ++ new2). intros acc. simpl. rewrite H1. cbn [mbind option_bind].
  by rewrite H2, app_assoc.
Qed.

Lemma visitCols_raises s cols col acc :
  wfBoard (board s) → Forall (λ c, 0 <= c < 8) cols → col ∈ cols →
  whiteToMove s = false → board_get (board s) 7 col = Some bp →
  visitCols s 7 cols acc = None.
Proof.
  intros Hwf Hcols Hin Hturn Hp. revert acc.
  induction cols as [|c rest IH]; intros acc; [by apply elem_of_nil in Hin|].
  apply Forall_cons in Hcols as [Hc Hrest]. simpl.
  apply elem_of_cons in Hin as [<-|Hin].
  - by rewrite visitSquare_raises.
  - destruct (visitSquare s 7 c acc) as [acc1|]; [|done]. by apply IH.
Qed.

Lemma range_8 : range 8 = [0; 1; 2; 3; 4; 5; 6; 7].
Proof. done. Qed.

Lemma range_8_bounds : Forall (λ c, 0 <= c < 8) (range 8).
Proof. rewrite range_8. repeat first [apply Forall_nil_2|apply Forall_cons_2; [lia|]]. Qed.

Lemma elem_of_range_8 i : i ∈ range 8 ↔ 0 <= i < 8.
Proof.
  unfold range. rewrite list_elem_of_fmap. split.
  - intros (k & -> & Hk%elem_of_seq). lia.
  - intros Hi. exists (Z.to_nat i). split; [lia|]. apply elem_of_seq. lia.
Qed.

Lemma visitRows_scan s rows :
  wfBoard (board s) → Forall (λ r, 0 <= r < 8) rows →
  (whiteToMove s = false → lastRowClear (board s)) →
  ∃ new, ∀ acc, visitRows s rows acc = Some (acc ++ new).
Proof.
  intros Hwf Hrows Hclear.
  induction Hrows as [|row rest Hrow _ IH].
  { exists []. intros acc. simpl. by rewrite app_nil_r. }
  destruct IH as (new2 & H2).
  assert (∃ r, py_get (board s) row = Some r ∧ length r = 8%nat) as (r & Hr & Hlen).
  { unfold py_get. destruct (Hwf) as [Hl _]. rewrite Hl.
    rewrite py_index_8 by (by apply pyRange_of_bounds). simpl.
    destruct (lookup_lt_is_Some_2 (board s) (nidx row)) as [r Hr];
      [pose proof (nidx_lt row); lia|].
    exists r. split; [done|]. by eapply wfBoard_row. }
  destruct (visitCols_scan s row (range 8) Hwf Hrow range_8_bounds)
    as (new1 & H1); [by intros ? _; apply Hclear|].
  exists (new1 ++ new2). intros acc. simpl. rewrite Hr. cbn [mbind option_bind].
  rewrite Hlen, H1. cbn [mbind option_bind]. by rewrite H2, app_assoc.
Qed.

Lemma visitRows_raises s rows col acc :
  wfBoard (board s) → Forall (λ r, 0 <= r < 8) rows → 7 ∈ rows →
  0 <= col < 8 → whiteToMove s = false → board_get (board s) 7 col = Some bp →
  visitRows s rows acc = None.
Proof.
  intros Hwf Hrows Hin Hcol Hturn Hp. revert acc.
  induction rows as [|row rest IH]; intros acc; [by apply elem_of_nil in Hin|].
  apply Forall_cons in Hrows as [Hrow Hrest]. simpl.
  destruct (py_get (board s) row) as [r|] eqn:Hr; [|done]. cbn [mbind option_bind].
  assert (length r = 8%nat) as ->.
  { unfold py_get in Hr. apply bind_Some in Hr as (k & _ & Hk).
    by eapply wfBoard_row. }
  apply elem_of_cons in Hin as [<-|Hin].
  - rewrite (visitCols_raises s (range 8) col); try done.
    + apply range_8_bounds.
    + by apply elem_of_range_8.
  - destruct (visitCols s row (range 8) acc) as [acc1|]; [|done]. by apply IH.
Qed.

Lemma lastRowClear_dec b : lastRowClear b ∨ ∃ c, 0 <= c < 8 ∧ board_get b 7 c = Some bp.
Proof.
  destruct (decide (Exists (λ c, board_get b 7 c = Some bp) (range 8))) as [He|He].
  - right. apply Exists_exists in He as (c & Hc%elem_of_range_8 & Hp). eauto.
  - left. intros c Hc Hp. apply He, Exists_exists. exists c.
    split; [by apply elem_of_range_8|done].
Qed.

(** X3: on an 8x8 board [getAllPossibleMoves] raises exactly when black is
    to move and a black pawn stands on row 7; with white to move it always
    returns. *)
Theorem getAllPossibleMoves_raises_iff s :
  wfBoard (board s) →
  getAllPossibleMoves s = None ↔
  whiteToMove s = false ∧ ∃ c, 0 <= c < 8 ∧ board_get (board s) 7 c = Some bp.
Proof.
  intros Hwf. unfold getAllPossibleMoves. destruct (Hwf) as [Hlen _]. rewrite Hlen.
  split.
  - intros Hnone. destruct (whiteToMove s) eqn:Hturn.
    + destruct (visitRows_scan s (range 8) Hwf range_8_bounds) as (new & Hnew);
        [by rewrite Hturn|]. by rewrite Hnew in Hnone.
    + split; [done|]. destruct (lastRowClear_dec (board s)) as [Hclear|Hex]; [|done].
      destruct (visitRows_scan s (range 8) Hwf range_8_bounds) as (new & Hnew);
        [done|]. by rewrite Hnew in Hnone.
  - intros (Hturn & c & Hc & Hp).
    eapply visitRows_raises; try done; [apply range_8_bounds|].
    by apply elem_of_range_8.
Qed.

Lemma getAllPossibleMoves_raises_iff_witness :
  getAllPossibleMoves init = None ↔
  whiteToMove init = false ∧ ∃ c, 0 <= c < 8 ∧ board_get (board init) 7 c = Some bp.
Proof. apply (getAllPossibleMoves_raises_iff init), wfBoard_init. Defined.

Lemma getAllPossibleMoves_total s :
  wfBoard (board s) → (whiteToMove s = false → lastRowClear (board s)) →
  is_Some (getAllPossibleMoves s).
Proof.
  intros Hwf Hclear. unfold getAllPossibleMoves. destruct (Hwf) as [Hlen _].
  rewrite Hlen.
  destruct (visitRows_scan s (range 8) Hwf range_8_bounds Hclear) as (new & Hnew).
  by rewrite Hnew.
Qed.

Lemma nidx_7 : nidx 7 = 7%nat.
Proof. done. Qed.

Lemma inCheck_total s :
  is_Some (getAllPossibleMoves (flipTurn s)) → ∃ chk, inCheck s = Some (chk, s).
Proof.
  intros [opp Hopp]. unfold inCheck, squareUnderAttack. cbv zeta.
  rewrite Hopp, flipTurn_involutive. cbn [mbind option_bind].
  destruct (whiteToMove s); eauto.
Qed.

(** The test of a pseudo-legal candidate returns when no black pawn stands
    on row 7. *)
Lemma exposes_total s m :
  wfBoard (board s) → pseudo s m → lastRowClear (board s) →
  is_Some (exposes s m).
Proof.
  intros Hwf Hps Hclear. pose proof (pseudo_snapshot _ _ Hps) as Hsnap.
  destruct (makeMove_is_Some s m Hwf Hsnap) as (s1 & Hmake & Hwf1 & Hcells).
  unfold exposes. rewrite Hmake. cbn [mbind option_bind].
  destruct (getAllPossibleMoves_total s1 Hwf1) as [opp Hopp].
  { intros Hturn c Hc.
    rewrite (makeMove_whiteToMove _ _ _ Hmake) in Hturn.
    apply negb_false_iff in Hturn.
    destruct Hps as (_ & _ & _ & Hcolor). unfold mover in Hcolor.
    rewrite Hturn in Hcolor.
    rewrite board_get_cellAt by (done || by apply pyRange_of_bounds).
    rewrite Hcells. repeat case_decide.
    - intros [= Hpm]. by rewrite Hpm in Hcolor.
    - done.
    - rewrite <- board_get_cellAt by (done || by apply pyRange_of_bounds).
      by apply Hclear. }
  destruct (inCheck_total (flipTurn s1)) as [chk Hchk].
  { rewrite flipTurn_involutive. by exists opp. }
  by rewrite Hchk.
Qed.

(** X4: [getValidMoves] returns on every state with an 8x8 board, king
    fields that name the kings' squares and no black pawn on row 7; it
    raises when black is to move and a black pawn stands on row 7. *)
Theorem getValidMoves_returns_iff_no_pawn_on_last_row s :
  wfBoard (board s) → kingsTracked s →
  (lastRowClear (board s) → ∃ valid s', getValidMoves s = Some (valid, s')) ∧
  (whiteToMove s = false →
   (∃ c, 0 <= c < 8 ∧ board_get (board s) 7 c = Some bp) →
   getValidMoves s = None).
Proof.
  intros Hwf Hk. split.
  - intros Hclear.
    destruct (getAllPossibleMoves_total s Hwf) as [cands Hcands]; [done|].
    pose proof (getAllPossibleMoves_pseudo _ _ Hwf Hcands) as [Hps _].
    destruct (getValidMoves_returns s cands Hwf Hk Hcands) as (chk & _ & Hret).
    + eapply Forall_impl; [exact Hps|]. intros m Hm. by apply exposes_total.
    + intros _. destruct (inCheck_total s) as [chk Hchk]; [|by rewrite Hchk].
      by apply getAllPossibleMoves_total.
    + eauto.
  - intros Hturn (c & Hc & Hp). unfold getValidMoves, getAllPossibleMoves.
    destruct (Hwf) as [Hlen _]. rewrite Hlen.
    rewrite (visitRows_raises s (range 8) c); try done.
    + apply range_8_bounds.
    + by apply elem_of_range_8.
Qed.

Lemma lastRowClear_compute b :
  forallb (λ c, bool_decide (board_get b 7 c ≠ Some bp)) (range 8) = true →
  lastRowClear b.
Proof.
  intros H c Hc. rewrite forallb_forall in H.
  specialize (H c). rewrite bool_decide_eq_true in H.
  apply H, list_elem_of_In, elem_of_range_8. done.
Qed.

Lemma getValidMoves_returns_iff_no_pawn_on_last_row_witness :
  ∃ valid s', getValidMoves init = Some (valid, s').
Proof.
  apply (proj1 (getValidMoves_returns_iff_no_pawn_on_last_row init
                  wfBoard_init kingsTracked_init)).
  apply lastRowClear_compute. by vm_compute.
Defined.

(** ** The flags play no part in move generation *)

(** [s] and [t] differ at most in the two flags. *)
Definition sameGame (s t : GameState) : Prop :=
  board s = board t ∧ whiteToMove s = whiteToMove t ∧ moveLog s = moveLog t ∧
  whiteKingLocation s = whiteKingLocation t ∧
  blackKingLocation s = blackKingLocation t.

Lemma sameGame_setFlags a b s : sameGame (setFlags a b s) s.
Proof. done. Qed.

Lemma sameGame_eq s t :
  sameGame s t → t = setFlags (checkMate t) (staleMate t) s.
Proof.
  destruct s, t. unfold sameGame, setFlags. simpl.
  intros (-> & -> & -> & -> & ->). done.
Qed.

Lemma moveFunctions_ext s t k row col acc :
  board s = board t → whiteToMove s = whiteToMove t →
  moveFunctions k s row col acc = moveFunctions k t row col acc.
Proof.
  intros Hb Ht.
  destruct k; simpl;
    unfold getPawnMoves, getQueenMoves, getRookMoves, getBishopMoves,
      getKnightMoves, getKingMoves; by rewrite Hb, Ht.
Qed.

Lemma visitSquare_ext s t row col acc :
  board s = board t → whiteToMove s = whiteToMove t →
  visitSquare s row col acc = visitSquare t row col acc.
Proof.
  intros Hb Ht. unfold visitSquare. rewrite Hb, Ht.
  destruct (board_get (board t) row col) as [[|c k]|]; try done. simpl.
  destruct (_ || _); [|done]. by apply moveFunctions_ext.
Qed.

Lemma visitCols_ext s t row cols acc :
  board s = board t → whiteToMove s = whiteToMove t →
  visitCols s row cols acc = visitCols t row cols acc.
Proof.
  intros Hb Ht. revert acc. induction cols as [|c rest IH]; intros acc; [done|].
  simpl. rewrite (visitSquare_ext s t) by done.
  destruct (visitSquare t row c acc); [|done]. apply IH.
Qed.

Lemma visitRows_ext s t rows acc :
  board s = board t → whiteToMove s = whiteToMove t →
  visitRows s rows acc = visitRows t rows acc.
Proof.
  intros Hb Ht. revert acc. induction rows as [|r rest IH]; intros acc; [done|].
  simpl. rewrite Hb. destruct (py_get (board t) r) as [row|]; [|done]. simpl.
  rewrite (visitCols_ext s t) by done.
  destruct (visitCols t r _ acc); [|done]. apply IH.
Qed.

Lemma getAllPossibleMoves_ext s t :
  board s = board t → whiteToMove s = whiteToMove t →
  getAllPossibleMoves s = getAllPossibleMoves t.
Proof.
  intros Hb Ht. unfold getAllPossibleMoves. rewrite Hb at 1.
  by apply visitRows_ext.
Qed.

(** [inCheck], result and state apart. *)
Lemma inCheck_unfold s :
  inCheck s =
  (oppMoves ← getAllPossibleMoves (flipTurn s);
   Some (anyEndsAt oppMoves (kingLocation (mover s) s).1
           (kingLocation (mover s) s).2, s)).
Proof.
  unfold inCheck, squareUnderAttack, mover. cbv zeta.
  rewrite flipTurn_involutive. by destruct (whiteToMove s).
Qed.

Lemma inCheck_ext s t chk :
  sameGame s t → inCheck s = Some (chk, s) → inCheck t = Some (chk, t).
Proof.
  intros (Hb & Ht & _ & Hw & Hk). rewrite !inCheck_unfold.
  rewrite (getAllPossibleMoves_ext (flipTurn s) (flipTurn t))
    by (simpl; congruence).
  unfold mover, kingLocation. rewrite Ht, Hw, Hk.
  destruct (getAllPossibleMoves (flipTurn t)); [|done]. simpl.
  by intros [= ->].
Qed.

Lemma makeMove_ext s t m s1 :
  sameGame s t → makeMove s m = Some s1 →
  ∃ t1, makeMove t m = Some t1 ∧ sameGame s1 t1.
Proof.
  intros (Hb & Ht & Hl & Hw & Hk). unfold makeMove. rewrite Hb.
  destruct (board_set (board t) _ _ Empty) as [b1|]; [|done]. simpl.
  destruct (board_set b1 _ _ _) as [b2|]; [|done]. simpl.
  intros [= <-]. eexists. split; [done|]. unfold sameGame. simpl.
  by rewrite Ht, Hl, Hw, Hk.
Qed.

Lemma exposes_ext s t m :
  sameGame s t → is_Some (exposes s m) → exposes t m = exposes s m.
Proof.
  intros Hst [chk Hexp]. rewrite Hexp. unfold exposes in *.
  apply bind_Some in Hexp as (s1 & Hmake & Hexp).
  apply bind_Some in Hexp as ([chk' s2] & Hchk & [= ->]).
  destruct (makeMove_ext s t m s1 Hst Hmake) as (t1 & Hmake' & Hst1).
  rewrite Hmake'. cbn [mbind option_bind].
  pose proof (inCheck_Some _ _ _ Hchk) as [-> _].
  rewrite (inCheck_ext (flipTurn s1) (flipTurn t1) chk); [done| |done].
  destruct Hst1 as (Hb & Ht & Hl & Hw & Hk). unfold sameGame. simpl.
  by rewrite Hb, Ht, Hl, Hw, Hk.
Qed.

Lemma filter_exposes_ext s t (cands : list Move) :
  sameGame s t → Forall (λ m, is_Some (exposes s m)) cands →
  filter (λ m, exposes t m = Some false) cands
  = filter (λ m, exposes s m = Some false) cands.
Proof.
  intros Hst. induction 1 as [|m rest Hm _ IH]; [done|].
  rewrite !filter_cons, IH, (exposes_ext s t m Hst Hm). done.
Qed.

(** X5: the list [getValidMoves] returns keeps the order of
    [getAllPossibleMoves] (it is a sublist of it), and a second call, made
    on the state the first call returned, returns the same list and leaves
    that state as it is: the flags are then up to date. *)
Theorem getValidMoves_stable s valid s' :
  wfBoard (board s) → kingsTracked s →
  getValidMoves s = Some (valid, s') →
  (∃ cands, getAllPossibleMoves s = Some cands ∧ valid `sublist_of` cands) ∧
  getValidMoves s' = Some (valid, s').
Proof.
  intros Hwf Hk H.
  apply getValidMoves_spec in H as (cands & Hcands & Hvalid & Hall & Hcases);
    [|done..].
  split.
  { exists cands. split; [done|]. rewrite Hvalid. apply sublist_filter. }
  assert (sameGame s s') as Hst.
  { destruct Hcases as [(_ & chk & _ & ->)|(_ & ->)]; [by destruct chk|done]. }
  destruct (Hst) as (Hb & Ht & _ & Hw & Hbk).
  assert (wfBoard (board s')) as Hwf' by (by rewrite <- Hb).
  assert (kingsTracked s') as Hk'.
  { intros r c Hr Hc. rewrite <- Hb, <- Hw, <- Hbk. by apply Hk. }
  pose proof (filter_exposes_ext s s' cands Hst Hall) as Hfilter.
  destruct (getValidMoves_returns s' cands Hwf' Hk') as (chk' & Hchk' & Hret).
  - by rewrite <- (getAllPossibleMoves_ext s s').
  - eapply Forall_impl; [exact Hall|]. intros m Hm. simpl.
    by rewrite (exposes_ext s s').
  - rewrite Hfilter, <- Hvalid. intros Hnil.
    destruct Hcases as [(_ & chk & Hchk & _)|(Hne & _)]; [|done].
    exists (chk, s'). by apply (inCheck_ext s s').
  - rewrite Hfilter, <- Hvalid in Hret, Hchk'. rewrite Hret. do 2 f_equal.
    destruct Hcases as [(-> & chk & Hchk & ->)|(Hne & ->)].
    + specialize (Hchk' eq_refl).
      assert (chk' = chk) as ->.
      { destruct chk.
        - rewrite (inCheck_ext s (setFlags true (staleMate s) s) true) in Hchk';
            [by injection Hchk'|done|done].
        - rewrite (inCheck_ext s (setFlags (checkMate s) true s) false) in Hchk';
            [by injection Hchk'|done|done]. }
      by destruct chk.
    + by destruct valid.
Qed.

Lemma getValidMoves_stable_witness :
  (∃ cands, getAllPossibleMoves init = Some cands ∧
            from_option fst [] initLegal `sublist_of` cands) ∧
  getValidMoves (from_option snd init initLegal) = initLegal.
Proof.
  apply (getValidMoves_stable init).
  - apply wfBoard_init.
  - apply kingsTracked_init.
  - apply getValidMoves_init.
Defined.

(** ** What the filter keeps *)

(** X17: when [getValidMoves] returns, a candidate of [getAllPossibleMoves]
    is in the returned list (as an element, and under Python's [in]) if and
    only if, once it is made, no pseudo-legal move of the opponent has for
    end coordinates the king-location field of the mover.  The comparison
    is on the numbers: an end row of -1 is not the king's row 7.  Instance:
    after 1. e4 d5 2. Bb5+ Nc6 3. a3 the knight move c6-d4 is generated,
    would let the bishop on b5 end on the black king's square, and is not
    among the legal moves. *)
Theorem getValidMoves_keeps_iff_king_square_not_targeted :
  (∀ s valid s',
     wfBoard (board s) → kingsTracked s →
     getValidMoves s = Some (valid, s') →
     ∃ cands,
       getAllPossibleMoves s = Some cands ∧
       ∀ m, m ∈ cands →
         (m ∈ valid ↔ ¬ kingSquareTargeted s m) ∧
         (py_in m valid = true ↔ ¬ kingSquareTargeted s m)) ∧
  (∃ gs valid cands m,
     main pinGame = Some (gs, valid) ∧
     getAllPossibleMoves gs = Some cands ∧
     Move_init (2, 2) (4, 3) (board gs) = Some m ∧
     pieceMoved m = bN ∧
     m ∈ cands ∧ kingSquareTargeted gs m ∧ (m ∉ valid) ∧ py_in m valid = false).
Proof.
  split.
  - intros s valid s' Hwf Hk H.
    apply getValidMoves_spec in H as (cands & Hcands & -> & Hall & _); [|done..].
    exists cands. split; [done|]. intros m Hm.
    rewrite Forall_forall in Hall. destruct (Hall m Hm) as [chk Hchk].
    pose proof (exposes_kingSquareTargeted _ _ _ Hchk) as Hiff.
    assert (m ∈ filter (λ m, exposes s m = Some false) cands
            ↔ ¬ kingSquareTargeted s m) as Hmem.
    { rewrite list_elem_of_filter, <- Hiff, Hchk.
      destruct chk; split; [by intros [[=] _]|done|done|by intros _]. }
    split; [done|]. rewrite <- Hmem, py_in_true. split.
    + intros (y & Hy & Hid). replace m with y; [done|].
      pose proof (getAllPossibleMoves_pseudo _ _ Hwf Hcands) as [Hps _].
      rewrite Forall_forall in Hps.
      eapply pseudo_moveID_inj; [| |exact Hid]; apply Hps; [|done].
      by apply list_elem_of_filter in Hy as [_ Hy].
    + intros Hin. by exists m.
  - pose proof main_pinGame as H. unfold afterPinGame in H.
    eexists _, _, _, _. split; [exact H|]. split; [by vm_compute|].
    split; [reflexivity|]. split; [done|]. split_and!.
    + apply (bool_decide_unpack _). by vm_compute.
    + eexists _, _, _. split; [by vm_compute|]. split; [by vm_compute|]. split.
      * apply (bool_decide_unpack _).
        instantiate (1 := mkMove 3 1 0 4 wB bK 3104). by vm_compute.
      * reflexivity.
    + apply (bool_decide_unpack _). by vm_compute.
    + by vm_compute.
Qed.

Lemma getValidMoves_keeps_iff_king_square_not_targeted_witness :
  ∃ cands,
    getAllPossibleMoves init = Some cands ∧
    ∀ m, m ∈ cands →
      (m ∈ from_option fst [] initLegal ↔ ¬ kingSquareTargeted init m) ∧
      (py_in m (from_option fst [] initLegal) = true ↔ ¬ kingSquareTargeted init m).
Proof.
  apply (proj1 getValidMoves_keeps_iff_king_square_not_targeted init _
           (from_option snd init initLegal)).
  - apply wfBoard_init.
  - apply kingsTracked_init.
  - apply getValidMoves_init.
Defined.

(** ** Calls in states that differ in the flags *)

(** What [getValidMoves] returns in a state that differs from [s] in the
    flags only. *)
Lemma getValidMoves_ext s t valid s' :
  wfBoard (board s) → kingsTracked s → sameGame s t →
  getValidMoves s = Some (valid, s') →
  ∃ chk,
    s' = flagsAfter valid chk s ∧
    getValidMoves t = Some (valid, flagsAfter valid chk t).
Proof.
  intros Hwf Hk Hst H.
  apply getValidMoves_spec in H as (cands & Hcands & Hvalid & Hall & Hcases);
    [|done..].
  destruct (Hst) as (Hb & Ht & _ & Hw & Hbk).
  assert (wfBoard (board t)) as Hwf' by (by rewrite <- Hb).
  assert (kingsTracked t) as Hk'.
  { intros r c Hr Hc. rewrite <- Hb, <- Hw, <- Hbk. by apply Hk. }
  pose proof (filter_exposes_ext s t cands Hst Hall) as Hfilter.
  destruct (getValidMoves_returns t cands Hwf' Hk') as (chk' & Hchk' & Hret).
  - by rewrite <- (getAllPossibleMoves_ext s t).
  - eapply Forall_impl; [exact Hall|]. intros m Hm. simpl.
    by rewrite (exposes_ext s t).
  - rewrite Hfilter, <- Hvalid. intros Hnil.
    destruct Hcases as [(_ & chk & Hchk & _)|(Hne & _)]; [|done].
    exists (chk, t). by apply (inCheck_ext s t).
  - rewrite Hfilter, <- Hvalid in Hret, Hchk'.
    destruct Hcases as [(-> & chk & Hchk & ->)|(Hne & ->)].
    + exists chk. split; [done|]. rewrite Hret. do 3 f_equal.
      specialize (Hchk' eq_refl).
      rewrite (inCheck_ext s t chk Hst Hchk) in Hchk'. by injection Hchk'.
    + exists false. split; [by destruct valid|]. rewrite Hret.
      by destruct valid.
Qed.

Lemma undoMove_ext s t s0 :
  sameGame s t → undoMove s = Some s0 →
  ∃ t0, undoMove t = Some t0 ∧ sameGame s0 t0 ∧
        checkMate t0 = checkMate t ∧ staleMate t0 = staleMate t.
Proof.
  intros (Hb & Ht & Hl & Hw & Hk). unfold undoMove. rewrite Hl.
  destruct (last (moveLog t)) as [m|].
  2: { intros [= <-]. exists t. by split_and!. }
  rewrite Hb.
  destruct (board_set (board t) _ _ _) as [b1|]; [|done]. simpl.
  destruct (board_set b1 _ _ _) as [b2|]; [|done]. simpl.
  intros [= <-]. eexists. split; [done|]. unfold sameGame. simpl.
  by rewrite Ht, Hw, Hk.
Qed.

(** ** Move notation *)

Lemma reversed_lookup_None (items : list (string * Z)) (k : Z) :
  k ∉ items.*2 →
  py_dict ((λ kv : string * Z, (kv.2, kv.1)) <$> items) !! k = None.
Proof.
  intros Hk. unfold py_dict. apply not_elem_of_list_to_map_1.
  rewrite <- fmap_reverse, <- list_fmap_compose.
  intros Hin. apply Hk. apply list_elem_of_fmap in Hin as (kv & -> & Hin).
  apply list_elem_of_fmap. exists kv. split; [done|].
  by apply elem_of_reverse.
Qed.

Lemma colsToFiles_None col : ¬ 0 <= col < 8 → colsToFiles !! col = None.
Proof.
  intros Hc. apply reversed_lookup_None. simpl.
  rewrite !elem_of_cons, elem_of_nil. lia.
Qed.

Lemma rowsToRanks_None row : ¬ 0 <= row < 8 → rowsToRanks !! row = None.
Proof.
  intros Hr. apply reversed_lookup_None. simpl.
  rewrite !elem_of_cons, elem_of_nil. lia.
Qed.

Lemma getRankFile_Some row col :
  0 <= row < 8 → 0 <= col < 8 →
  ∃ file rank,
    getRankFile row col = Some (file +:+ rank) ∧
    String.length file = 1%nat ∧ String.length rank = 1%nat ∧
    filesToCols !! file = Some col ∧ ranksToRows !! rank = Some row.
Proof.
  intros Hr Hc.
  assert (row = 0 ∨ row = 1 ∨ row = 2 ∨ row = 3 ∨ row = 4 ∨ row = 5 ∨ row = 6
          ∨ row = 7) as Hrs by lia.
  assert (col = 0 ∨ col = 1 ∨ col = 2 ∨ col = 3 ∨ col = 4 ∨ col = 5 ∨ col = 6
          ∨ col = 7) as Hcs by lia.
  exists (default ""%string (colsToFiles !! col)),
    (default ""%string (rowsToRanks !! row)).
  destruct Hrs as [->|[->|[->|[->|[->|[->|[->| ->]]]]]]];
    destruct Hcs as [->|[->|[->|[->|[->|[->|[->| ->]]]]]]];
    split_and!; by vm_compute.
Qed.

Lemma getRankFile_None row col :
  ¬ (0 <= row < 8 ∧ 0 <= col < 8) → getRankFile row col = None.
Proof.
  intros Hno. unfold getRankFile.
  destruct (decide (0 <= col < 8)) as [Hc|Hc].
  - rewrite (rowsToRanks_None row) by tauto.
    by destruct (colsToFiles !! col).
  - by rewrite colsToFiles_None.
Qed.

(** X12: for a row and a column in 0..7 [getRankFile] returns a file letter
    followed by a rank digit from which [filesToCols] and [ranksToRows]
    give the column and the row back; for any other row or column it
    raises KeyError. *)
Theorem getRankFile_round_trip row col :
  (0 <= row < 8 → 0 <= col < 8 →
   ∃ file rank,
     getRankFile row col = Some (file +:+ rank) ∧
     String.length file = 1%nat ∧ String.length rank = 1%nat ∧
     filesToCols !! file = Some col ∧ ranksToRows !! rank = Some row) ∧
  (¬ (0 <= row < 8 ∧ 0 <= col < 8) → getRankFile row col = None).
Proof. split; [apply getRankFile_Some|apply getRankFile_None]. Qed.

Lemma getRankFile_round_trip_witness :
  ∃ file rank,
    getRankFile 7 4 = Some (file +:+ rank) ∧
    String.length file = 1%nat ∧ String.length rank = 1%nat ∧
    filesToCols !! file = Some 4 ∧ ranksToRows !! rank = Some 7.
Proof. apply (proj1 (getRankFile_round_trip 7 4)); lia. Defined.

Lemma append_inj_length (a a' b b' : string) :
  String.length a = String.length a' → a +:+ b = a' +:+ b' → a = a' ∧ b = b'.
Proof.
  revert a'. induction a as [|x a IH]; intros [|x' a'] Hlen Heq; try done.
  simpl in *. injection Hlen as Hlen. injection Heq as -> Heq.
  destruct (IH a' Hlen Heq) as [-> ->]. done.
Qed.

Lemma getRankFile_inj row col row' col' s :
  getRankFile row col = Some s → getRankFile row' col' = Some s →
  row = row' ∧ col = col'.
Proof.
  intros H1 H2.
  destruct (decide (0 <= row < 8 ∧ 0 <= col < 8)) as [[Hr Hc]|Hno];
    [|by rewrite getRankFile_None in H1].
  destruct (decide (0 <= row' < 8 ∧ 0 <= col' < 8)) as [[Hr' Hc']|Hno];
    [|by rewrite getRankFile_None in H2].
  destruct (getRankFile_Some row col Hr Hc) as (f & r & Hs & Hf & Hrl & Hcf & Hrr).
  destruct (getRankFile_Some row' col' Hr' Hc')
    as (f' & r' & Hs' & Hf' & Hrl' & Hcf' & Hrr').
  rewrite Hs in H1. rewrite Hs' in H2. injection H1 as <-. injection H2 as H2.
  apply append_inj_length in H2 as [-> ->]; [|congruence].
  split; congruence.
Qed.

Lemma string_length_append (a b : string) :
  String.length (a +:+ b) = (String.length a + String.length b)%nat.
Proof. induction a as [|x a IH]; [done|]. simpl. by rewrite IH. Qed.

Lemma getRankFile_length row col s :
  getRankFile row col = Some s → String.length s = 2%nat.
Proof.
  intros H.
  destruct (decide (0 <= row < 8 ∧ 0 <= col < 8)) as [[Hr Hc]|Hno];
    [|by rewrite getRankFile_None in H].
  destruct (getRankFile_Some row col Hr Hc) as (f & r & Hs & Hf & Hrl & _).
  rewrite Hs in H. injection H as <-.
  destruct f as [|? [|]]; try done. destruct r as [|? [|]]; done.
Qed.

(** X13: [getChessNotation] returns exactly for the moves whose four
    coordinates lie in 0..7 (for any other move, such as the pawn move onto
    row -1, it raises KeyError); the notation has four characters, and two
    moves have the same notation only if they have the same coordinates. *)
Theorem getChessNotation_faithful (m m' : Move) :
  (is_Some (getChessNotation m) ↔
   0 <= startRow m < 8 ∧ 0 <= startCol m < 8 ∧
   0 <= endRow m < 8 ∧ 0 <= endCol m < 8) ∧
  (∀ s, getChessNotation m = Some s →
        String.length s = 4%nat ∧
        (getChessNotation m' = Some s → coords m = coords m')).
Proof.
  split.
  - unfold getChessNotation. split.
    + intros [s Hs]. apply bind_Some in Hs as (a & Ha & Hs).
      apply bind_Some in Hs as (b & Hb & _).
      destruct (decide (0 <= startRow m < 8 ∧ 0 <= startCol m < 8)) as [?|Hno];
        [|by rewrite getRankFile_None in Ha].
      destruct (decide (0 <= endRow m < 8 ∧ 0 <= endCol m < 8)) as [?|Hno];
        [|by rewrite getRankFile_None in Hb].
      tauto.
    + intros (Hsr & Hsc & Her & Hec).
      destruct (getRankFile_Some _ _ Hsr Hsc) as (f & r & -> & _).
      destruct (getRankFile_Some _ _ Her Hec) as (f' & r' & -> & _).
      by eexists.
  - intros s Hs. unfold getChessNotation in *.
    apply bind_Some in Hs as (a & Ha & Hs). apply bind_Some in Hs as (b & Hb & [= <-]).
    pose proof (getRankFile_length _ _ _ Ha) as Hla.
    pose proof (getRankFile_length _ _ _ Hb) as Hlb.
    split.
    + rewrite string_length_append. rewrite Hla, Hlb. done.
    + intros Hs'. apply bind_Some in Hs' as (a' & Ha' & Hs').
      apply bind_Some in Hs' as (b' & Hb' & [= Heq]).
      pose proof (getRankFile_length _ _ _ Ha') as Hla'.
      apply append_inj_length in Heq as [-> ->]; [|congruence].
      destruct (getRankFile_inj _ _ _ _ _ Ha Ha') as [E1 E2].
      destruct (getRankFile_inj _ _ _ _ _ Hb Hb') as [E3 E4].
      unfold coords. by rewrite E1, E2, E3, E4.
Qed.

(** ** The order of the pseudo-legal moves *)

(** The position of a move's start square in the scan of the board, row by
    row and column by column. *)
Definition scanIndex (m : Move) : Z := startRow m * 8 + startCol m.

Definition scanOrder (a b : Move) : Prop := scanIndex a <= scanIndex b.

Lemma same_square_sorted (l : list Move) k :
  Forall (λ m, scanIndex m = k) l → StronglySorted scanOrder l.
Proof.
  induction 1 as [|m l Hm Hl IH]; [constructor|].
  apply StronglySorted_cons. split; [|done].
  eapply Forall_impl; [exact Hl|]. intros m' Hm'. unfold scanOrder.
  simpl in *. rewrite Hm, Hm'. lia.
Qed.

Lemma visitCols_order s row cols acc acc' :
  wfBoard (board s) → 0 <= row < 8 → Forall (λ c, 0 <= c < 8) cols →
  StronglySorted Z.lt cols →
  visitCols s row cols acc = Some acc' →
  ∃ new, acc' = acc ++ new ∧
         Forall (λ m, startRow m = row ∧ startCol m ∈ cols) new ∧
         StronglySorted scanOrder new.
Proof.
  intros Hwf Hrow Hcols Hsorted. revert acc.
  induction cols as [|col rest IH]; intros acc H; simpl in H.
  { injection H as <-. exists []. rewrite app_nil_r.
    split_and!; [done|constructor..]. }
  apply bind_Some in H as (acc1 & H1 & H2).
  apply Forall_cons in Hcols as [Hcol Hrest].
  apply StronglySorted_cons in Hsorted as [Hlt Hsorted].
  apply visitSquare_adds in H1 as (new1 & -> & _ & Hst1 & _); [|done..].
  apply IH in H2 as (new2 & -> & Hst2 & Hsort2); [|done..].
  exists (new1 ++ new2). rewrite app_assoc. split_and!; [done| |].
  - apply Forall_app. split.
    + eapply Forall_impl; [exact Hst1|]. intros m [-> ->]. split; [done|]. left.
    + eapply Forall_impl; [exact Hst2|]. intros m [-> ?]. split; [done|]. by right.
  - apply StronglySorted_app_2; [| |done].
    + intros a b Ha Hb. rewrite Forall_forall in Hst1.
      rewrite Forall_forall in Hst2. rewrite Forall_forall in Hlt.
      destruct (Hst1 _ Ha) as [Ha1 Ha2]. destruct (Hst2 _ Hb) as [Hb1 Hb2].
      specialize (Hlt _ Hb2). unfold scanOrder, scanIndex. lia.
    + apply (same_square_sorted _ (row * 8 + col)).
      eapply Forall_impl; [exact Hst1|]. intros m [E1 E2].
      unfold scanIndex. by rewrite E1, E2.
Qed.

Lemma visitRows_order s rows acc acc' :
  wfBoard (board s) → Forall (λ r, 0 <= r < 8) rows →
  StronglySorted Z.lt rows →
  visitRows s rows acc = Some acc' →
  ∃ new, acc' = acc ++ new ∧
         Forall (λ m, startRow m ∈ rows ∧ 0 <= startCol m < 8) new ∧
         StronglySorted scanOrder new.
Proof.
  intros Hwf Hrows Hsorted. revert acc.
  induction rows as [|row rest IH]; intros acc H; simpl in H.
  { injection H as <-. exists []. rewrite app_nil_r.
    split_and!; [done|constructor..]. }
  apply bind_Some in H as (r & Hr & H). apply bind_Some in H as (acc1 & H1 & H2).
  apply Forall_cons in Hrows as [Hrow Hrest].
  apply StronglySorted_cons in Hsorted as [Hlt Hsorted].
  assert (length r = 8%nat) as Hlen.
  { unfold py_get in Hr. apply bind_Some in Hr as (k & _ & Hk).
    by eapply wfBoard_row. }
  rewrite Hlen in H1.
  apply visitCols_order in H1 as (new1 & -> & Hst1 & Hsort1);
    [|done|done|apply range_8_bounds|].
  2: { rewrite range_8.
       repeat first [apply SSorted_nil
                    |apply SSorted_cons;
                     [|repeat first [apply Forall_nil_2|apply Forall_cons_2; [lia|]]]]. }
  apply IH in H2 as (new2 & -> & Hst2 & Hsort2); [|done..].
  exists (new1 ++ new2). rewrite app_assoc. split_and!; [done| |].
  - apply Forall_app. split.
    + eapply Forall_impl; [exact Hst1|]. intros m [-> Hc%elem_of_range_8].
      split; [left|done].
    + eapply Forall_impl; [exact Hst2|]. intros m [? ?]. split; [by right|done].
  - apply StronglySorted_app_2; [|done|done].
    intros a b Ha Hb. rewrite Forall_forall in Hst1.
    rewrite Forall_forall in Hst2. rewrite Forall_forall in Hlt.
    destruct (Hst1 _ Ha) as [Ha1 Ha2%elem_of_range_8].
    destruct (Hst2 _ Hb) as [Hb1 Hb2].
    specialize (Hlt _ Hb1). unfold scanOrder, scanIndex. lia.
Qed.

(** What [getAllPossibleMoves] says of each move it returns. *)
Definition ownMove (s : GameState) (m : Move) : Prop :=
  0 <= startRow m < 8 ∧ 0 <= startCol m < 8 ∧
  board_get (board s) (startRow m) (startCol m) = Some (pieceMoved m) ∧
  colorOf (pieceMoved m) = Some (mover s) ∧
  board_get (board s) (endRow m) (endCol m) = Some (pieceCaptured m) ∧
  colorOf (pieceCaptured m) ≠ Some (mover s) ∧
  moveID m = startRow m * 1000 + startCol m * 100 + endRow m * 10 + endCol m.

(** X6: every move [getAllPossibleMoves] returns starts on a square of the
    board that holds a piece of the side to move, ends on a cell that holds
    no piece of that side, carries the two cells and its identifier; and
    the moves come in the order the board is scanned: by row, then by
    column, of their start squares. *)
Theorem getAllPossibleMoves_own_moves_in_scan_order s moves :
  wfBoard (board s) → getAllPossibleMoves s = Some moves →
  Forall (ownMove s) moves ∧ StronglySorted scanOrder moves.
Proof.
  intros Hwf H. split.
  - apply getAllPossibleMoves_pseudo in H as [Hps _]; [|done].
    eapply Forall_impl; [exact Hps|]. intros m Hm.
    pose proof (pseudo_snapshot _ _ Hm) as [Hpm Hpc].
    pose proof (pseudo_moveID _ _ Hm) as (Hid & _).
    destruct Hm as (Hr & Hc & [_ (_ & _ & x & Hx & Hcolor)] & Hown).
    unfold endSq in Hx. simpl in Hx. rewrite Hpc in Hx. injection Hx as <-.
    unfold ownMove. repeat (split; [done|]). done.
  - unfold getAllPossibleMoves in H. destruct (Hwf) as [Hlen _].
    rewrite Hlen in H.
    apply visitRows_order in H as (new & -> & _ & Hsort);
      [done|done|apply range_8_bounds|].
    rewrite range_8.
    repeat first [apply SSorted_nil
                 |apply SSorted_cons;
                  [|repeat first [apply Forall_nil_2|apply Forall_cons_2; [lia|]]]].
Qed.

Lemma getAllPossibleMoves_own_moves_in_scan_order_witness :
  Forall (ownMove init) (from_option id [] (getAllPossibleMoves init)) ∧
  StronglySorted scanOrder (from_option id [] (getAllPossibleMoves init)).
Proof.
  apply (getAllPossibleMoves_own_moves_in_scan_order init).
  - apply wfBoard_init.
  - by vm_compute.
Defined.

(** ** Moves built from arbitrary coordinates *)

(** X14: on an 8x8 board [Move.__init__] returns exactly when its four
    coordinates are valid Python indices, that is lie in -8..7, and raises
    IndexError otherwise; the two cells it records are those at the
    coordinates taken modulo 8, while the move keeps the coordinates as
    given. *)
Theorem Move_init_accepts_python_indices (b : Board) (sq1 sq2 : Z * Z) :
  wfBoard b →
  (is_Some (Move_init sq1 sq2 b) ↔
   pyRange sq1.1 ∧ pyRange sq1.2 ∧ pyRange sq2.1 ∧ pyRange sq2.2) ∧
  ∀ m, Move_init sq1 sq2 b = Some m →
    cellAt b (nidx sq1.1) (nidx sq1.2) = Some (pieceMoved m) ∧
    cellAt b (nidx sq2.1) (nidx sq2.2) = Some (pieceCaptured m) ∧
    coords m = (sq1.1, sq1.2, sq2.1, sq2.2).
Proof.
  intros Hwf. split.
  - split.
    + intros [m Hm]. apply Move_init_Some in Hm as (_ & _ & _ & _ & Hpm & Hpc & _).
      apply board_get_Some_range in Hpm as [??]; [|done].
      apply board_get_Some_range in Hpc as [??]; [|done]. done.
    + intros (H1 & H2 & H3 & H4). unfold Move_init.
      destruct (board_get_is_Some b sq1.1 sq1.2 Hwf H1 H2) as [pm ->].
      destruct (board_get_is_Some b sq2.1 sq2.2 Hwf H3 H4) as [pc ->].
      by eexists.
  - intros m Hm.
    apply Move_init_Some in Hm as (Hsr & Hsc & Her & Hec & Hpm & Hpc & _).
    pose proof (board_get_Some_range _ _ _ _ Hwf Hpm) as [??].
    pose proof (board_get_Some_range _ _ _ _ Hwf Hpc) as [??].
    rewrite board_get_cellAt in Hpm, Hpc by done.
    unfold coords. by rewrite Hsr, Hsc, Her, Hec.
Qed.

Lemma Move_init_accepts_python_indices_witness :
  (is_Some (Move_init (0, 6) (-1, 7) initBoard) ↔
   pyRange 0 ∧ pyRange 6 ∧ pyRange (-1) ∧ pyRange 7) ∧
  ∀ m, Move_init (0, 6) (-1, 7) initBoard = Some m →
    cellAt initBoard (nidx 0) (nidx 6) = Some (pieceMoved m) ∧
    cellAt initBoard (nidx (-1)) (nidx 7) = Some (pieceCaptured m) ∧
    coords m = (0, 6, -1, 7).
Proof.
  apply (Move_init_accepts_python_indices initBoard (0, 6) (-1, 7)).
  apply wfBoard_init.
Defined.

(** X15: for any move built by [Move.__init__] against the current 8x8
    board, legal or not, [makeMove] returns, and the [undoMove] that
    follows gives back the state exactly, provided the king-location field
    of a king that is moved names the move's start square.  With an empty
    log [undoMove] changes nothing. *)
Theorem make_then_undo_any_built_move s sq1 sq2 m :
  wfBoard (board s) → Move_init sq1 sq2 (board s) = Some m → kingAtStart s m →
  (∃ s1, makeMove s m = Some s1 ∧ moveLog s1 = moveLog s ++ [m] ∧
         whiteToMove s1 = negb (whiteToMove s) ∧ undoMove s1 = Some s) ∧
  (moveLog s = [] → undoMove s = Some s).
Proof.
  intros Hwf Hinit Hking.
  pose proof (Move_init_snapshot _ _ _ _ Hinit) as Hsnap.
  split.
  - destruct (makeMove_is_Some s m Hwf Hsnap) as (s1 & Hmake & _).
    exists s1. pose proof (makeMove_fields _ _ _ Hmake) as (Ht & Hl & _).
    split_and!; [done..|]. by eapply makeMove_undoMove.
  - intros Hlog. unfold undoMove. by rewrite Hlog.
Qed.

Lemma make_then_undo_any_built_move_witness :
  (∃ s1, makeMove init (mkMove 6 4 7 4 wp wK 6474) = Some s1 ∧
         moveLog s1 = moveLog init ++ [mkMove 6 4 7 4 wp wK 6474] ∧
         whiteToMove s1 = negb (whiteToMove init) ∧ undoMove s1 = Some init) ∧
  (moveLog init = [] → undoMove init = Some init).
Proof.
  apply (make_then_undo_any_built_move init (6, 4) (7, 4)).
  - apply wfBoard_init.
  - reflexivity.
  - by split.
Defined.

(** ** The game states the driver reaches *)

(** No pseudo-legal move of the side to move has for end coordinates the
    king-location field of the other side. *)
Definition kingNotTakable (s : GameState) : Prop :=
  ∀ cands, getAllPossibleMoves s = Some cands →
    anyEndsAt cands (kingLocation (opposite (mover s)) s).1
      (kingLocation (opposite (mover s)) s).2 = false.

(** The game state and the legal moves held after the statements before
    the loop and any number of moves, each built from two squares of the
    board against the current board, found [in] the legal moves held, made,
    and followed by a new computation of the legal moves. *)
Inductive Reached : GameState * list Move → Prop :=
| Reached_start gs valid :
    getValidMoves init = Some (valid, gs) → Reached (gs, valid)
| Reached_move gs valid sq1 sq2 move gs1 valid1 gs1' :
    Reached (gs, valid) →
    onBoard sq1 = true → onBoard sq2 = true →
    Move_init sq1 sq2 (board gs) = Some move →
    py_in move valid = true →
    makeMove gs move = Some gs1 →
    getValidMoves gs1 = Some (valid1, gs1') →
    Reached (gs1', valid1).

Definition Sound (st : GameState * list Move) : Prop :=
  wfBoard (board st.1) ∧ kingsPlaced st.1 ∧ kingNotTakable st.1 ∧
  getValidMoves st.1 = Some (st.2, st.1) ∧
  whiteToMove st.1 = Nat.even (length (moveLog st.1)).

(** What a pass in which [z] was pressed once does to the game state and
    the legal moves. *)
Definition undoStep (st : GameState * list Move)
  : option (GameState * list Move) :=
  gs ← undoMove st.1;
  '(validMoves, gs) ← getValidMoves gs;
  Some (gs, validMoves).

Lemma Sound_start gs valid :
  getValidMoves init = Some (valid, gs) → Sound (gs, valid).
Proof.
  rewrite getValidMoves_init. unfold initLegal. intros [= <- <-].
  split_and!.
  - split; [done|]. repeat first [apply Forall_nil_2|apply Forall_cons_2; [done|]].
  - apply kingsPlaced_compute; by vm_compute.
  - intros cands Hc. vm_compute in Hc. injection Hc as <-. by vm_compute.
  - by vm_compute.
  - done.
Qed.

(** A move built from two squares of the board that is [in] the legal
    moves is one of them. *)
Lemma py_in_legal s valid s' sq1 sq2 move :
  wfBoard (board s) → kingsTracked s →
  getValidMoves s = Some (valid, s') →
  onBoard sq1 = true → onBoard sq2 = true →
  Move_init sq1 sq2 (board s) = Some move →
  py_in move valid = true → move ∈ valid.
Proof.
  intros Hwf Hk Hvalid [??]%inBounds_range [??]%inBounds_range Hinit Hin.
  apply py_in_true in Hin as (y & Hy & Hid).
  destruct (valid_subset _ _ _ _ Hwf Hk Hvalid Hy) as (cands & _ & _ & Hps).
  replace move with y; [done|].
  destruct (pseudo_moveID _ _ Hps) as (Hyid & ? & ?).
  destruct Hps as (? & ? & [Hyinit _] & _).
  pose proof (Move_init_Some _ _ _ _ Hinit) as (Hsr & Hsc & Her & Hec & _ & _ & Hmid).
  rewrite Hyid, Hmid in Hid.
  apply identifier_inj in Hid as (E1 & E2 & E3 & E4); [|lia..].
  unfold endSq in Hyinit. rewrite E1, E2, E3, E4 in Hyinit.
  destruct sq1, sq2. simpl in *. rewrite Hinit in Hyinit. by injection Hyinit.
Qed.

Lemma opposite_involutive c : opposite (opposite c) = c.
Proof. by destruct c. Qed.

Lemma makeMove_mover s m s1 : makeMove s m = Some s1 → mover s1 = opposite (mover s).
Proof.
  intros H. unfold mover. rewrite (makeMove_whiteToMove _ _ _ H).
  by destruct (whiteToMove s).
Qed.

Lemma flagsAfter_idem valid chk s :
  flagsAfter valid chk (flagsAfter valid chk s) = flagsAfter valid chk s.
Proof. destruct valid, chk; done. Qed.

Lemma sameGame_flagsAfter valid chk s : sameGame s (flagsAfter valid chk s).
Proof. destruct valid, chk; done. Qed.

Lemma kingsPlaced_sameGame s t : sameGame s t → kingsPlaced s → kingsPlaced t.
Proof.
  intros (Hb & _ & _ & Hw & Hk). unfold kingsPlaced. by rewrite Hb, Hw, Hk.
Qed.

Lemma kingNotTakable_sameGame s t :
  sameGame s t → kingNotTakable s → kingNotTakable t.
Proof.
  intros (Hb & Ht & _ & Hw & Hk) Hs cands Hc.
  rewrite <- (getAllPossibleMoves_ext s t) in Hc by done.
  specialize (Hs cands Hc). unfold mover, kingLocation in *.
  by rewrite <- Ht, <- Hw, <- Hk.
Qed.

(** The piece a legal move built from two squares of the board takes is
    not a king, in a state where the kings are placed and the king of the
    side not to move cannot be taken. *)
Lemma legal_move_takes_no_king s cands m :
  kingsPlaced s → kingNotTakable s →
  getAllPossibleMoves s = Some cands → m ∈ cands → pseudo s m →
  0 <= endRow m < 8 → 0 <= endCol m < 8 →
  pieceCaptured m ≠ wK ∧ pieceCaptured m ≠ bK.
Proof.
  intros (_ & _ & Hk) Hnt Hcands Hm Hps Her Hec.
  pose proof (pseudo_snapshot _ _ Hps) as [_ Hpc].
  destruct Hps as (_ & _ & [_ (_ & _ & x & Hx & Hcolor)] & _).
  unfold endSq in Hx. simpl in Hx. rewrite Hpc in Hx. injection Hx as <-.
  specialize (Hnt cands Hcands).
  assert (∀ c, pieceCaptured m = Piece c King →
               kingLocation c s = (endRow m, endCol m)) as Hloc.
  { intros c Hc. destruct (Hk _ _ Her Hec) as [Hw Hb]. rewrite Hpc, Hc in Hw, Hb.
    destruct c; simpl; [by apply Hw|by apply Hb]. }
  assert (∀ c, pieceCaptured m = Piece c King → False) as Hno.
  { intros c Hc. destruct (decide (c = mover s)) as [->|Hne].
    - apply Hcolor. by rewrite Hc.
    - assert (c = opposite (mover s)) as -> by (by destruct c, (mover s)).
      rewrite (Hloc _ Hc) in Hnt. simpl in Hnt.
      assert (anyEndsAt cands (endRow m) (endCol m) = true) as Htrue
        by (apply anyEndsAt_true; by exists m).
      congruence. }
  split; intros Hc; by eapply Hno.
Qed.

Lemma Sound_move gs valid sq1 sq2 move gs1 valid1 gs1' :
  Sound (gs, valid) →
  onBoard sq1 = true → onBoard sq2 = true →
  Move_init sq1 sq2 (board gs) = Some move →
  py_in move valid = true →
  makeMove gs move = Some gs1 →
  getValidMoves gs1 = Some (valid1, gs1') →
  Sound (gs1', valid1) ∧ sameGame gs1 gs1' ∧ undoMove gs1 = Some gs ∧
  move ∈ valid ∧ moveLog gs1 = moveLog gs ++ [move].
Proof.
  intros (Hwf & Hkp & Hnt & Hv & Hpar) Hsq1 Hsq2 Hinit Hin Hmake Hv1.
  simpl in *.
  pose proof (kingsPlaced_tracked _ Hkp) as Hk.
  pose proof (py_in_legal _ _ _ _ _ _ Hwf Hk Hv Hsq1 Hsq2 Hinit Hin) as Hmem.
  pose proof Hv as Hspec.
  apply getValidMoves_spec in Hspec as (cands & Hcands & Hfilter & _ & _); [|done..].
  pose proof Hmem as Hmem'. rewrite Hfilter in Hmem'.
  apply list_elem_of_filter in Hmem' as [Hexp Hmc].
  pose proof (getAllPossibleMoves_pseudo _ _ Hwf Hcands) as [Hps _].
  rewrite Forall_forall in Hps. specialize (Hps _ Hmc).
  pose proof (pseudo_snapshot _ _ Hps) as Hsnap.
  pose proof (Move_init_Some _ _ _ _ Hinit) as (Hsr & Hsc & Her & Hec & _).
  apply inBounds_range in Hsq1 as [??]. apply inBounds_range in Hsq2 as [??].
  destruct (legal_move_takes_no_king gs cands move Hkp Hnt Hcands Hmc Hps)
    as [HnW HnB]; [rewrite Her; lia|rewrite Hec; lia|].
  destruct (makeMove_is_Some gs move Hwf Hsnap) as (gs1_ & Hmake_ & Hwf1 & _).
  rewrite Hmake in Hmake_. injection Hmake_ as <-.
  assert (kingsPlaced gs1) as Hkp1.
  { eapply makeMove_kingsPlaced; [exact Hwf|done|done| | | | |done|done|done];
      [rewrite Hsr|rewrite Hsc|rewrite Her|rewrite Hec]; lia. }
  assert (kingNotTakable gs1) as Hnt1.
  { intros cands1 Hc1.
    destruct (anyEndsAt cands1 _ _) eqn:E; [exfalso|done].
    apply anyEndsAt_true in E as (o & Ho & He).
    pose proof (exposes_kingSquareTargeted _ _ _ Hexp) as Hiff.
    assert (false = true) as Habs; [|done]. apply Hiff.
    exists gs1, cands1, o. split_and!; [done..|].
    rewrite (makeMove_mover _ _ _ Hmake), opposite_involutive in He.
    rewrite He. by destruct (kingLocation (mover gs) gs1). }
  pose proof (makeMove_fields _ _ _ Hmake) as (Hturn & Hlog & _).
  assert (whiteToMove gs1 = Nat.even (length (moveLog gs1))) as Hpar1.
  { rewrite Hturn, Hlog, length_app, Hpar. simpl. rewrite Nat.add_1_r.
    by rewrite Nat.even_succ, <- Nat.negb_even. }
  destruct (getValidMoves_ext gs1 gs1' valid1 gs1' Hwf1
              (kingsPlaced_tracked _ Hkp1)) as (chk & Heq & Hagain).
  { apply getValidMoves_spec in Hv1 as (_ & _ & _ & _ & Hcases);
      [|done|by apply kingsPlaced_tracked].
    destruct Hcases as [(_ & chk & _ & ->)|(_ & ->)]; [by destruct chk|done]. }
  { done. }
  assert (sameGame gs1 gs1') as Hsame by (rewrite Heq; apply sameGame_flagsAfter).
  split_and!; try done.
  - split_and!; simpl.
    + destruct Hsame as (<- & _). done.
    + by eapply kingsPlaced_sameGame.
    + by eapply kingNotTakable_sameGame.
    + rewrite Hagain. do 2 f_equal. rewrite Heq. apply flagsAfter_idem.
    + destruct Hsame as (_ & <- & <- & _). done.
  - eapply makeMove_undoMove; [done..|by apply pseudo_kingAtStart|done].
Qed.

Lemma Reached_Sound st : Reached st → Sound st.
Proof.
  induction 1 as [gs valid Hst|gs valid sq1 sq2 move gs1 valid1 gs1' _ IH
                    Hsq1 Hsq2 Hinit Hin Hmake Hv1].
  - by apply Sound_start.
  - by destruct (Sound_move _ _ _ _ _ _ _ _ IH Hsq1 Hsq2 Hinit Hin Hmake Hv1)
      as [HS _].
Qed.

Lemma start_undo gs valid :
  getValidMoves init = Some (valid, gs) → undoStep (gs, valid) = Some (gs, valid).
Proof.
  rewrite getValidMoves_init. unfold initLegal. intros [= <- <-]. by vm_compute.
Qed.

Lemma start_log gs valid :
  getValidMoves init = Some (valid, gs) → moveLog gs = [].
Proof. rewrite getValidMoves_init. unfold initLegal. by intros [= <- <-]. Qed.

(** After a move made by the driver, [z] gives back the state and the
    legal moves from before it. *)
Lemma move_undo gs valid sq1 sq2 move gs1 valid1 gs1' :
  Reached (gs, valid) →
  onBoard sq1 = true → onBoard sq2 = true →
  Move_init sq1 sq2 (board gs) = Some move →
  py_in move valid = true →
  makeMove gs move = Some gs1 →
  getValidMoves gs1 = Some (valid1, gs1') →
  undoStep (gs1', valid1) = Some (gs, valid) ∧
  length (moveLog gs1') = S (length (moveLog gs)).
Proof.
  intros HR Hsq1 Hsq2 Hinit Hin Hmake Hv1.
  pose proof (Reached_Sound _ HR) as HS.
  destruct (Sound_move _ _ _ _ _ _ _ _ HS Hsq1 Hsq2 Hinit Hin Hmake Hv1)
    as (_ & Hsame & Hundo & Hmem & Hlog).
  destruct HS as (Hwf & Hkp & _ & Hv & _). simpl in *.
  destruct (undoMove_ext gs1 gs1' gs Hsame Hundo) as (t0 & Hundo' & Hsame0 & _).
  split.
  - unfold undoStep. cbn [fst snd]. rewrite Hundo'. cbn [mbind option_bind].
    destruct (getValidMoves_ext gs t0 valid gs Hwf (kingsPlaced_tracked _ Hkp)
                Hsame0 Hv) as (chk & Heq & Hagain).
    rewrite Hagain. cbn [mbind option_bind]. do 2 f_equal.
    destruct valid as [|v valid]; [by apply elem_of_nil in Hmem|]. simpl in *.
    rewrite Heq. destruct Hsame0 as (Hb & Ht & Hl & Hw & Hk).
    unfold setFlags. by rewrite Hb, Ht, Hl, Hw, Hk.
  - destruct Hsame as (_ & _ & <- & _). rewrite Hlog, length_app. simpl. lia.
Qed.

(** [z] always returns in such a state, to such a state, and the log does
    not grow. *)
Lemma Reached_undo st :
  Reached st →
  ∃ st', undoStep st = Some st' ∧ Reached st' ∧
         (length (moveLog st'.1) ≤ length (moveLog st.1))%nat.
Proof.
  intros HR.
  destruct HR as [gs valid Hst|gs valid sq1 sq2 move gs1 valid1 gs1' HR
                    Hsq1 Hsq2 Hinit Hin Hmake Hv1].
  - exists (gs, valid). split; [by apply start_undo|].
    split; [by apply Reached_start|done].
  - destruct (move_undo gs valid sq1 sq2 move gs1 valid1 gs1'
                HR Hsq1 Hsq2 Hinit Hin Hmake Hv1) as [Hu Hlen].
    exists (gs, valid). split; [exact Hu|]. split; [exact HR|].
    cbn [fst]. lia.
Qed.

(** [z] pressed [n] times, once per pass. *)
Fixpoint undoSteps (n : nat) (st : GameState * list Move)
  : option (GameState * list Move) :=
  match n with
  | O => Some st
  | S n => st ← undoStep st; undoSteps n st
  end.

Lemma Reached_drain st :
  Reached st →
  ∃ gs0 valid0, getValidMoves init = Some (valid0, gs0) ∧
    undoSteps (length (moveLog st.1)) st = Some (gs0, valid0).
Proof.
  induction 1 as [gs valid Hst|gs valid sq1 sq2 move gs1 valid1 gs1' HR IH
                    Hsq1 Hsq2 Hinit Hin Hmake Hv1].
  - exists gs, valid. split; [done|]. cbn [fst]. by rewrite (start_log _ _ Hst).
  - destruct (move_undo gs valid sq1 sq2 move gs1 valid1 gs1'
                HR Hsq1 Hsq2 Hinit Hin Hmake Hv1) as [Hu Hlen].
    destruct IH as (gs0 & valid0 & H0 & Hd). exists gs0, valid0. split; [done|].
    cbn [fst snd] in *. rewrite Hlen. cbn [undoSteps]. rewrite Hu.
    cbn [mbind option_bind]. exact Hd.
Qed.

(** ** Passes of the loop with at most one click or key press *)

(** A mouse click falls inside the window. *)
Definition inWindow (e : event) : Prop :=
  match e with
  | MouseDown location => 0 <= location.1 < WIDTH ∧ 0 <= location.2 < HEIGHT
  | _ => True
  end.

(** The events that can change the game: a mouse click and the [z] key. *)
Definition acts (e : event) : bool :=
  match e with
  | MouseDown _ | KeyZ => true
  | _ => false
  end.

(** At most one of the events of the pass is a mouse click or the [z]
    key. *)
Definition quiet (events : list event) : Prop :=
  (length (List.filter acts events) ≤ 1)%nat.

Definition view (st : Loop.t) : GameState * list Move :=
  (Loop.gs st, Loop.validMoves st).

Definition withRunning (r : bool) (st : Loop.t) : Loop.t :=
  Loop.mk (Loop.gs st) (Loop.validMoves st) (Loop.moveMade st) r
    (Loop.sqSelected st) (Loop.playerClicks st).

(** No square is selected, or one square of the board is and it is the
    only element of [playerClicks]. *)
Definition selOK (st : Loop.t) : Prop :=
  (Loop.sqSelected st = None ∧ Loop.playerClicks st = []) ∨
  ∃ sq, onBoard sq = true ∧ Loop.sqSelected st = Some sq ∧
        Loop.playerClicks st = [Some sq].

(** The square under a mouse position. *)
Definition squareAt (location : Z * Z) : Z * Z :=
  (location.2 `div` SQ_SIZE, location.1 `div` SQ_SIZE).

Lemma squareAt_onBoard location :
  inWindow (MouseDown location) → onBoard (squareAt location) = true.
Proof.
  unfold inWindow, WIDTH, HEIGHT. intros [Hx Hy].
  unfold onBoard, inBounds, squareAt. cbn [fst snd].
  change SQ_SIZE with 64.
  rewrite !bool_decide_eq_true_2; [done|split..].
  - apply Z.div_pos; lia.
  - apply Z.div_lt_upper_bound; lia.
  - apply Z.div_pos; lia.
  - apply Z.div_lt_upper_bound; lia.
Qed.

Lemma getChessNotation_is_Some m :
  0 <= startRow m < 8 → 0 <= startCol m < 8 →
  0 <= endRow m < 8 → 0 <= endCol m < 8 →
  is_Some (getChessNotation m).
Proof.
  intros Hsr Hsc Her Hec. unfold getChessNotation.
  destruct (getRankFile_Some _ _ Hsr Hsc) as (f & r & -> & _).
  destruct (getRankFile_Some _ _ Her Hec) as (f' & r' & -> & _).
  by eexists.
Qed.

(** A move built from two squares of an 8x8 board: the constructor, the
    notation and [makeMove] all return. *)
Lemma built_move_returns s sq1 sq2 :
  wfBoard (board s) → onBoard sq1 = true → onBoard sq2 = true →
  ∃ move s1,
    Move_init sq1 sq2 (board s) = Some move ∧
    is_Some (getChessNotation move) ∧
    makeMove s move = Some s1 ∧ wfBoard (board s1).
Proof.
  intros Hwf Hsq1 Hsq2.
  pose proof (inBounds_range _ _ Hsq1) as [??].
  pose proof (inBounds_range _ _ Hsq2) as [??].
  destruct (appendMove_is_Some (board s) sq1.1 sq1.2 sq2.1 sq2.2 [] Hwf)
    as (move & _ & Hinit & _); [done|done|by apply pyRange_of_bounds..|].
  rewrite <- !surjective_pairing in Hinit.
  pose proof (Move_init_Some _ _ _ _ Hinit) as (Hsr & Hsc & Her & Hec & _).
  pose proof (Move_init_snapshot _ _ _ _ Hinit) as Hsnap.
  destruct (makeMove_is_Some s move Hwf Hsnap) as (s1 & Hmake & Hwf1 & _).
  exists move, s1. split_and!; [done| |done|done].
  apply getChessNotation_is_Some; [rewrite Hsr|rewrite Hsc|rewrite Her|rewrite Hec];
    lia.
Qed.
(** What the mouse handler does when the board is 8x8 and the click falls
    inside the window: it returns; it changes the selection only, or it
    makes the move from the selected square to the clicked one, which is
    [in] the legal moves held. *)
Lemma mouseDown_cases st location :
  wfBoard (board (Loop.gs st)) → selOK st → inWindow (MouseDown location) →
  ∃ st1, mouseDown location st = Some st1 ∧ selOK st1 ∧
    Loop.running st1 = Loop.running st ∧
    Loop.validMoves st1 = Loop.validMoves st ∧
    ((Loop.gs st1 = Loop.gs st ∧ Loop.moveMade st1 = Loop.moveMade st) ∨
     (∃ sq1 move,
        Loop.playerClicks st = [Some sq1] ∧ onBoard sq1 = true ∧
        Move_init sq1 (squareAt location) (board (Loop.gs st)) = Some move ∧
        py_in move (Loop.validMoves st) = true ∧
        makeMove (Loop.gs st) move = Some (Loop.gs st1) ∧
        Loop.moveMade st1 = true)).
Proof.
  intros Hwf Hsel Hwin. pose proof (squareAt_onBoard _ Hwin) as Hsq.
  destruct st as [gs valid mm rn sel cl]. unfold selOK in Hsel. cbn in Hwf, Hsel.
  unfold mouseDown. cbn [Loop.gs Loop.validMoves Loop.moveMade Loop.running
                          Loop.sqSelected Loop.playerClicks].
  change (location.2 `div` SQ_SIZE, location.1 `div` SQ_SIZE)
    with (squareAt location).
  destruct Hsel as [[-> ->]|(sq1 & Hsq1 & -> & ->)].
  - rewrite decide_False by done. cbn [app length].
    rewrite decide_False by done.
    eexists. split; [done|]. split; [right; by exists (squareAt location)|].
    cbn. split_and!; [done..|]. by left.
  - destruct (decide (Some sq1 = Some (squareAt location))) as [Heq|Hne].
    + cbn [length]. rewrite decide_False by done.
      eexists. split; [done|]. split; [by left|].
      cbn. split_and!; [done..|]. by left.
    + cbn [app length]. rewrite decide_True by done.
      destruct (built_move_returns gs sq1 (squareAt location) Hwf Hsq1 Hsq)
        as (move & gs1 & Hinit & [txt Htxt] & Hmake & _).
      change (py_get [Some sq1; Some (squareAt location)] 0 ≫= id)
        with (Some sq1).
      change (py_get [Some sq1; Some (squareAt location)] 1 ≫= id)
        with (Some (squareAt location)).
      cbn [mbind option_bind]. rewrite Hinit. cbn [mbind option_bind].
      rewrite Htxt. cbn [mbind option_bind].
      destruct (py_in move valid) eqn:Hin.
      * rewrite Hmake. cbn [mbind option_bind].
        eexists. split; [done|]. split; [by left|].
        cbn. split_and!; [done..|]. right. by exists sq1, move.
      * eexists. split; [done|].
        split; [right; by exists (squareAt location)|].
        cbn. split_and!; [done..|]. by left.
Qed.

Lemma withRunning_idem r r' st : withRunning r (withRunning r' st) = withRunning r st.
Proof. done. Qed.

Lemma withRunning_same st : withRunning (Loop.running st) st = st.
Proof. by destruct st. Qed.

Lemma handleAll_app l1 l2 st :
  handleAll (l1 ++ l2) st = (st1 ← handleAll l1 st; handleAll l2 st1).
Proof.
  revert st. induction l1 as [|e l1 IH]; intros st; [done|]. simpl.
  destruct (handle st e) as [st1|]; [|done]. simpl. apply IH.
Qed.

(** Events other than clicks and [z] change [running] at most. *)
Lemma handleAll_calm events st :
  Forall (λ e, acts e = false) events →
  ∃ r, handleAll events st = Some (withRunning r st).
Proof.
  intros Hcalm. revert st. induction Hcalm as [|e rest He _ IH]; intros st.
  { exists (Loop.running st). simpl. by rewrite withRunning_same. }
  destruct e; try done; simpl.
  - destruct (IH (withRunning false st)) as [r Hr]. exists r.
    change (Loop.mk _ _ _ false _ _) with (withRunning false st). by rewrite Hr.
  - apply IH.
Qed.

Lemma quiet_split events :
  quiet events →
  Forall (λ e, acts e = false) events ∨
  ∃ pre e post, events = pre ++ e :: post ∧ acts e = true ∧
    Forall (λ e, acts e = false) pre ∧ Forall (λ e, acts e = false) post.
Proof.
  unfold quiet. induction events as [|e rest IH]; intros Hq; [by left|].
  simpl in Hq. destruct (acts e) eqn:He.
  - right. exists [], e, rest. split_and!; [done..|].
    simpl in Hq. assert (List.filter acts rest = []) as Hnil
      by (apply nil_length_inv; lia).
    apply Forall_forall. intros x Hx. destruct (acts x) eqn:Hax; [|done].
    assert (In x (List.filter acts rest)) as Hin
      by (apply filter_In; split; [by apply list_elem_of_In|done]).
    by rewrite Hnil in Hin.
  - destruct (IH Hq) as [Hall|(pre & x & post & -> & Hx & Hpre & Hpost)].
    + left. by apply Forall_cons.
    + right. exists (e :: pre), x, post. split_and!; [done..| |done].
      by apply Forall_cons.
Qed.
Lemma legal_click_facts gs valid sq1 sq2 move :
  Sound (gs, valid) →
  onBoard sq1 = true → onBoard sq2 = true →
  Move_init sq1 sq2 (board gs) = Some move →
  py_in move valid = true →
  pseudo gs move ∧
  (0 <= startRow move < 8 ∧ 0 <= startCol move < 8 ∧
   0 <= endRow move < 8 ∧ 0 <= endCol move < 8) ∧
  pieceCaptured move ≠ wK ∧ pieceCaptured move ≠ bK.
Proof.
  intros (Hwf & Hkp & Hnt & Hv & Hpar) Hsq1 Hsq2 Hinit Hin. simpl in *.
  pose proof (kingsPlaced_tracked _ Hkp) as Hk.
  pose proof (py_in_legal _ _ _ _ _ _ Hwf Hk Hv Hsq1 Hsq2 Hinit Hin) as Hmem.
  pose proof Hv as Hspec.
  apply getValidMoves_spec in Hspec as (cands & Hcands & Hfilter & _ & _); [|done..].
  rewrite Hfilter in Hmem. apply list_elem_of_filter in Hmem as [_ Hmc].
  pose proof (getAllPossibleMoves_pseudo _ _ Hwf Hcands) as [Hps _].
  rewrite Forall_forall in Hps. specialize (Hps _ Hmc).
  pose proof (Move_init_Some _ _ _ _ Hinit) as (Hsr & Hsc & Her & Hec & _).
  apply inBounds_range in Hsq1 as [??]. apply inBounds_range in Hsq2 as [??].
  assert (0 <= endRow move < 8) by (rewrite Her; lia).
  assert (0 <= endCol move < 8) by (rewrite Hec; lia).
  assert (0 <= startRow move < 8) by (rewrite Hsr; lia).
  assert (0 <= startCol move < 8) by (rewrite Hsc; lia).
  split; [done|]. split; [done|].
  by apply (legal_move_takes_no_king gs cands move).
Qed.

(** When the legal moves cannot be computed after a move of the driver, a
    black pawn stands on row 7. *)
Lemma legal_move_raises gs valid sq1 sq2 move gs1 :
  Reached (gs, valid) → onBoard sq1 = true → onBoard sq2 = true →
  Move_init sq1 sq2 (board gs) = Some move → py_in move valid = true →
  makeMove gs move = Some gs1 → getValidMoves gs1 = None →
  ∃ c, 0 <= c < 8 ∧ board_get (board gs1) 7 c = Some bp.
Proof.
  intros HR Hsq1 Hsq2 Hinit Hin Hmake Hnone.
  pose proof (Reached_Sound _ HR) as HS.
  pose proof HS as (Hwf & Hkp & _). cbn [fst snd] in *.
  destruct (legal_click_facts _ _ _ _ _ HS Hsq1 Hsq2 Hinit Hin)
    as (Hps & (Hsr & Hsc & Her & Hec) & HnW & HnB).
  pose proof (pseudo_snapshot _ _ Hps) as Hsnap.
  destruct (makeMove_is_Some gs move Hwf Hsnap) as (gs1_ & Hmake_ & Hwf1 & _).
  rewrite Hmake in Hmake_. injection Hmake_ as <-.
  destruct (lastRowClear_dec (board gs1)) as [Hclear|Hex]; [exfalso|done].
  pose proof (makeMove_kingsPlaced gs move gs1 Hwf Hkp Hsnap Hsr Hsc Her Hec
                HnW HnB Hmake) as Hkp1.
  pose proof (kingsPlaced_tracked _ Hkp1) as Hk1.
  destruct (getAllPossibleMoves_total gs1 Hwf1) as [cands Hcands]; [done|].
  pose proof (getAllPossibleMoves_pseudo _ _ Hwf1 Hcands) as [Hps1 _].
  destruct (getValidMoves_returns gs1 cands Hwf1 Hk1 Hcands) as (chk & _ & Hret).
  - eapply Forall_impl; [exact Hps1|]. intros m Hm. by apply exposes_total.
  - intros _. destruct (inCheck_total gs1) as [chk Hchk]; [|by rewrite Hchk].
    by apply getAllPossibleMoves_total.
  - rewrite Hret in Hnone. done.
Qed.

(** Between two passes: the game state and the legal moves are among those
    reached by legal moves, the selection is in order and [moveMade] is
    down. *)
Definition Good (st : Loop.t) : Prop :=
  Reached (view st) ∧ selOK st ∧ Loop.moveMade st = false.

(** What one pass does to the game state and the legal moves: nothing, a
    move found [in] the legal moves, or an undo. *)
Inductive Step : GameState * list Move → GameState * list Move → Prop :=
| Step_none st : Step st st
| Step_move gs valid sq1 sq2 move gs1 valid1 gs1' :
    onBoard sq1 = true → onBoard sq2 = true →
    Move_init sq1 sq2 (board gs) = Some move →
    py_in move valid = true →
    makeMove gs move = Some gs1 →
    getValidMoves gs1 = Some (valid1, gs1') →
    Step (gs, valid) (gs1', valid1)
| Step_undo st st' : undoStep st = Some st' → Step st st'.

(** The pass holds a click that completes a move found [in] the legal
    moves; the move is made, a black pawn then stands on row 7 and
    [getValidMoves] raises. *)
Definition raisedBy (st : Loop.t) (events : list event) : Prop :=
  ∃ location sq1 move gs1,
    MouseDown location ∈ events ∧ Loop.playerClicks st = [Some sq1] ∧
    Move_init sq1 (squareAt location) (board (Loop.gs st)) = Some move ∧
    py_in move (Loop.validMoves st) = true ∧
    makeMove (Loop.gs st) move = Some gs1 ∧ getValidMoves gs1 = None ∧
    ∃ c, 0 <= c < 8 ∧ board_get (board gs1) 7 c = Some bp.

Lemma frame_quiet st events :
  Good st → Forall inWindow events → quiet events →
  (∃ st', frame events st = Some st' ∧ Good st' ∧ Step (view st) (view st')) ∨
  (frame events st = None ∧ raisedBy st events).
Proof.
  intros (HR & Hsel & Hmm) Hwin Hq.
  destruct (quiet_split _ Hq) as [Hcalm|(pre & e & post & -> & He & Hpre & Hpost)].
  { left. destruct (handleAll_calm events st Hcalm) as [r Hr].
    exists (withRunning r st). unfold frame. rewrite Hr. cbn [mbind option_bind].
    change (Loop.moveMade (withRunning r st)) with (Loop.moveMade st).
    rewrite Hmm. split; [done|]. split; [by split_and!|apply Step_none]. }
  destruct (handleAll_calm pre st Hpre) as [r0 Hr0].
  pose proof (Reached_Sound _ HR) as (Hwf & _). cbn [view fst] in Hwf.
  apply Forall_app in Hwin as [_ Hwin]. apply Forall_cons in Hwin as [Hwe _].
  unfold frame. rewrite handleAll_app, Hr0. cbn [mbind option_bind handleAll].
  destruct e as [|location| |]; try done.
  - destruct (mouseDown_cases (withRunning r0 st) location Hwf Hsel Hwe)
      as (st1 & Hst1 & Hsel1 & _ & Hval1 & Hcases).
    cbn [handle]. rewrite Hst1. cbn [mbind option_bind].
    destruct (handleAll_calm post st1 Hpost) as [r1 Hr1]. rewrite Hr1.
    cbn [mbind option_bind].
    change (Loop.moveMade (withRunning r1 st1)) with (Loop.moveMade st1).
    change (Loop.gs (withRunning r1 st1)) with (Loop.gs st1).
    change (Loop.validMoves (withRunning r0 st)) with (Loop.validMoves st) in *.
    change (Loop.gs (withRunning r0 st)) with (Loop.gs st) in *.
    change (Loop.moveMade (withRunning r0 st)) with (Loop.moveMade st) in *.
    change (Loop.playerClicks (withRunning r0 st)) with (Loop.playerClicks st) in *.
    destruct Hcases as [[Hgs Hmm1]|(sq1 & move & Hcl & Hsq1 & Hinit & Hin & Hmake & Hmm1)].
    + left. rewrite Hmm1, Hmm. exists (withRunning r1 st1). split; [done|].
      assert (view (withRunning r1 st1) = view st) as Hview
        by (unfold view; cbn; by rewrite Hgs, Hval1).
      split; [|rewrite Hview; apply Step_none].
      split_and!; [by rewrite Hview|done|cbn; by rewrite Hmm1].
    + rewrite Hmm1.
      pose proof (squareAt_onBoard _ Hwe) as Hsq2.
      destruct (getValidMoves (Loop.gs st1)) as [[valid1 gs1']|] eqn:Hv1;
        cbn [mbind option_bind].
      * left. eexists. split; [done|].
        split; [split_and!; [|exact Hsel1|done]|].
        -- exact (Reached_move (Loop.gs st) (Loop.validMoves st) sq1
                    (squareAt location) move (Loop.gs st1) valid1 gs1'
                    HR Hsq1 Hsq2 Hinit Hin Hmake Hv1).
        -- exact (Step_move (Loop.gs st) (Loop.validMoves st) sq1
                    (squareAt location) move (Loop.gs st1) valid1 gs1'
                    Hsq1 Hsq2 Hinit Hin Hmake Hv1).
      * right. split; [done|].
        exists location, sq1, move, (Loop.gs st1).
        split_and!; [|done..|].
        -- apply elem_of_app. right. left.
        -- exact (legal_move_raises (Loop.gs st) (Loop.validMoves st) sq1
                    (squareAt location) move (Loop.gs st1)
                    HR Hsq1 Hsq2 Hinit Hin Hmake Hv1).
  - left. destruct (Reached_undo _ HR) as ([gs0' valid'] & Hu & HR' & _).
    unfold undoStep in Hu. cbn [view fst snd] in Hu.
    apply bind_Some in Hu as (gs0 & Hundo & Hu).
    apply bind_Some in Hu as ([valid'' gs0''] & Hv & [= <- <-]).
    cbn [handle].
    change (Loop.gs (withRunning r0 st)) with (Loop.gs st).
    rewrite Hundo. cbn [mbind option_bind].
    match goal with |- context [handleAll post ?s] =>
      destruct (handleAll_calm post s Hpost) as [r1 Hr1]; rewrite Hr1 end.
    cbn [mbind option_bind]. cbn. rewrite Hv. cbn [mbind option_bind].
    eexists. split; [done|]. split; [by split_and!|].
    apply Step_undo. unfold undoStep. cbn [view fst snd]. rewrite Hundo.
    cbn [mbind option_bind]. by rewrite Hv.
Qed.

Lemma Good_run frames st st' :
  Forall (Forall inWindow) frames → Forall quiet frames →
  Good st → run frames st = Some st' → Good st'.
Proof.
  intros Hwin. revert st. induction Hwin as [|events rest Hw _ IH];
    intros st Hq HG Hrun.
  { simpl in Hrun. by injection Hrun as <-. }
  apply Forall_cons in Hq as [Hq Hqrest]. simpl in Hrun.
  destruct (Loop.running st); [|by injection Hrun as <-].
  destruct (frame_quiet st events HG Hw Hq) as [(st1 & Hf & HG1 & _)|[Hf _]];
    rewrite Hf in Hrun; [|done].
  cbn [mbind option_bind] in Hrun. by apply (IH st1).
Qed.

Lemma Good_start st : start = Some st → Good st.
Proof.
  unfold start. intros H. apply bind_Some in H as ([valid gs] & Hv & H).
  injection H as <-. split; [exact (Reached_start gs valid Hv)|].
  clear Hv. split; [by left|reflexivity].
Qed.

Lemma loop_unfold frames : loop frames = (st ← start; run frames st).
Proof. reflexivity. Qed.

Lemma main_unfold frames :
  main frames = (st ← loop frames; Some (Loop.gs st, Loop.validMoves st)).
Proof. reflexivity. Qed.

Lemma Good_loop frames st :
  Forall (Forall inWindow) frames → Forall quiet frames →
  loop frames = Some st → Good st.
Proof.
  intros Hwin Hq Hloop. rewrite loop_unfold in Hloop.
  apply bind_Some in Hloop as (st0 & Hstart & Hrun).
  apply (Good_run frames st0); [done|done|by apply Good_start|exact Hrun].
Qed.

Lemma Reached_main frames gs valid :
  Forall (Forall inWindow) frames → Forall quiet frames →
  main frames = Some (gs, valid) → Reached (gs, valid).
Proof.
  intros Hwin Hq Hmain. rewrite main_unfold in Hmain.
  apply bind_Some in Hmain as (st & Hloop & [= <- <-]).
  by destruct (Good_loop frames st Hwin Hq Hloop) as [HR _].
Qed.
(** The games used as instances come one click per pass, each inside the
    window. *)
Lemma play_quiet plies : Forall quiet (play plies).
Proof.
  induction plies as [|ply rest IH]; [constructor|].
  unfold play. rewrite bind_cons. fold (play rest).
  apply Forall_app. split; [|done].
  unfold clicks. repeat constructor.
Qed.

Lemma click_inWindow sq : onBoard sq = true → inWindow (click sq).
Proof.
  intros [Hr Hc]%inBounds_range. unfold click, inWindow, WIDTH, HEIGHT.
  change SQ_SIZE with 64. cbn [fst snd]. change (64 `div` 2) with 32. lia.
Qed.

Lemma play_inWindow plies :
  Forall (λ ply, onBoard ply.1 = true ∧ onBoard ply.2 = true) plies →
  Forall (Forall inWindow) (play plies).
Proof.
  induction 1 as [|ply rest [H1 H2] _ IH]; [constructor|].
  unfold play. rewrite bind_cons. fold (play rest).
  apply Forall_app. split; [|done].
  unfold clicks. repeat constructor; by apply click_inWindow.
Qed.

(** X7: in every state the loop reaches through passes that hold at most
    one mouse click or [z] press each, the clicks falling inside the
    window, the board is 8x8, each king-location field names the one
    square that holds that king, no pseudo-legal move of the side to move
    has for end coordinates the king-location field of the other side, the
    list the loop holds is what [getValidMoves] returns in that state
    (which leaves the state as it is), and it is white's turn exactly when
    the move log has even length. *)
Theorem driver_states_are_sound frames gs valid :
  Forall (Forall inWindow) frames → Forall quiet frames →
  main frames = Some (gs, valid) →
  wfBoard (board gs) ∧ kingsPlaced gs ∧ kingNotTakable gs ∧
  getValidMoves gs = Some (valid, gs) ∧
  whiteToMove gs = Nat.even (length (moveLog gs)).
Proof.
  intros Hwin Hq Hmain.
  apply (Reached_Sound (gs, valid)), (Reached_main frames); assumption.
Qed.

(** A pass that holds just [z]. *)
Lemma frame_KeyZ st gs' valid' :
  Loop.moveMade st = false → undoStep (view st) = Some (gs', valid') →
  frame [KeyZ] st
  = Some (Loop.mk gs' valid' false (Loop.running st) (Loop.sqSelected st)
            (Loop.playerClicks st)).
Proof.
  intros Hmm Hu. unfold undoStep in Hu. cbn [view fst snd] in Hu.
  apply bind_Some in Hu as (gs0 & Hundo & Hu).
  apply bind_Some in Hu as ([valid'' gs0''] & Hv & [= <- <-]).
  unfold frame. cbn [handleAll handle]. rewrite Hundo.
  cbn [mbind option_bind Loop.moveMade Loop.gs]. rewrite Hv. done.
Qed.

(** X8: when such a pass lengthens the move log, it lengthens it by one
    move, and a next pass that holds just [z] gives back exactly the game
    state and the legal moves from before the move. *)
Theorem driver_undo_reverts_move frames events st st1 :
  Forall (Forall inWindow) frames → Forall quiet frames →
  loop frames = Some st →
  Forall inWindow events → quiet events →
  frame events st = Some st1 →
  (length (moveLog (Loop.gs st)) < length (moveLog (Loop.gs st1)))%nat →
  length (moveLog (Loop.gs st1)) = S (length (moveLog (Loop.gs st))) ∧
  ∃ st2, frame [KeyZ] st1 = Some st2 ∧
         Loop.gs st2 = Loop.gs st ∧ Loop.validMoves st2 = Loop.validMoves st.
Proof.
  intros Hwin Hq Hloop Hwe Hqe Hf Hlen.
  pose proof (Good_loop frames st Hwin Hq Hloop) as HG. clear Hloop.
  destruct (frame_quiet st events HG Hwe Hqe)
    as [(st1' & Hf' & HG1 & Hstep)|[Hf' _]]; rewrite Hf in Hf'; [|done].
  injection Hf' as <-. destruct HG as (HR & _). destruct HG1 as (_ & _ & Hmm1).
  destruct st as [gs valid mm rn sel cl], st1 as [gs1 valid1 mm1 rn1 sel1 cl1].
  unfold view in *. cbn [Loop.gs Loop.validMoves Loop.moveMade] in *.
  inversion Hstep as [st0 E1 E2|gs_ valid_ sq1 sq2 move gs1_ valid1_ gs1'_
                        Hsq1 Hsq2 Hinit Hin Hmake Hv1 E1 E2|st0 st0' Hu E1 E2].
  - subst. lia.
  - subst.
    destruct (move_undo gs valid sq1 sq2 move gs1_ valid1 gs1
                HR Hsq1 Hsq2 Hinit Hin Hmake Hv1) as [Hu Hl].
    split; [exact Hl|]. eexists. split; [by apply frame_KeyZ|done].
  - subst. destruct (Reached_undo _ HR) as (st' & Hu' & _ & Hle).
    rewrite Hu in Hu'. injection Hu' as <-. cbn [fst] in Hle. lia.
Qed.

Lemma run_KeyZ n st p :
  Loop.moveMade st = false → Loop.running st = true →
  undoSteps n (view st) = Some p →
  ∃ st', run (replicate n [KeyZ]) st = Some st' ∧ view st' = p.
Proof.
  revert st. induction n as [|n IH]; intros st Hmm Hrun Hu.
  { simpl in Hu. injection Hu as <-. by exists st. }
  cbn [undoSteps] in Hu. apply bind_Some in Hu as ([gs' valid'] & Hu1 & Hu).
  cbn [replicate run]. rewrite Hrun, (frame_KeyZ st gs' valid' Hmm Hu1).
  cbn [mbind option_bind]. by apply IH.
Qed.

(** X9: from every state the loop reaches through such passes, with no
    [QUIT] received, as many further passes holding just [z] as the move
    log is long bring back the game state and the legal moves the loop
    started with. *)
Theorem driver_undo_all_returns_to_start frames st :
  Forall (Forall inWindow) frames → Forall quiet frames →
  loop frames = Some st → Loop.running st = true →
  ∃ st', run (replicate (length (moveLog (Loop.gs st))) [KeyZ]) st = Some st' ∧
         main [] = Some (Loop.gs st', Loop.validMoves st').
Proof.
  intros Hwin Hq Hloop Hrun.
  destruct (Good_loop frames st Hwin Hq Hloop) as (HR & _ & Hmm). clear Hloop.
  destruct (Reached_drain _ HR) as (gs0 & valid0 & H0 & Hd).
  destruct (run_KeyZ _ st _ Hmm Hrun Hd) as (st' & Hst' & Hview).
  exists st'. split; [exact Hst'|].
  rewrite main_unfold, loop_unfold. unfold start. rewrite H0.
  injection Hview as -> ->. reflexivity.
Qed.

(** ** What the driver logs and flags *)

(** What holds of the move at index [i] of the log. *)
Definition loggedOK (i : nat) (m : Move) : Prop :=
  (0 <= startRow m < 8 ∧ 0 <= startCol m < 8 ∧
   0 <= endRow m < 8 ∧ 0 <= endCol m < 8) ∧
  colorOf (pieceMoved m) = Some (if Nat.even i then White else Black) ∧
  colorOf (pieceCaptured m) ≠ colorOf (pieceMoved m) ∧
  pieceCaptured m ≠ wK ∧ pieceCaptured m ≠ bK.

Lemma Reached_log st :
  Reached st → ∀ i m, moveLog st.1 !! i = Some m → loggedOK i m.
Proof.
  induction 1 as [gs0 valid0 Hst|gs valid sq1 sq2 move gs1 valid1 gs1' HR IH
                    Hsq1 Hsq2 Hinit Hin Hmake Hv1].
  - cbn [fst]. rewrite (start_log _ _ Hst). intros i m Hi. by rewrite lookup_nil in Hi.
  - pose proof (Reached_Sound _ HR) as HS.
    destruct (Sound_move _ _ _ _ _ _ _ _ HS Hsq1 Hsq2 Hinit Hin Hmake Hv1)
      as (_ & Hsame & _ & _ & Hlog).
    destruct (legal_click_facts _ _ _ _ _ HS Hsq1 Hsq2 Hinit Hin)
      as (Hps & Hrange & HnW & HnB).
    destruct HS as (_ & _ & _ & _ & Hpar). cbn [fst snd] in *.
    destruct Hsame as (_ & _ & <- & _). rewrite Hlog.
    intros i m Hi. apply lookup_app_Some in Hi as [Hi|[Hge Hi]]; [by apply IH|].
    apply list_lookup_singleton_Some in Hi as [Hi0 <-].
    assert (i = length (moveLog gs)) as -> by lia.
    destruct Hps as (_ & _ & [_ (_ & _ & x & Hx & Hcolor)] & Hpm).
    pose proof (Move_init_snapshot _ _ _ _ Hinit) as [_ Hpc].
    unfold endSq in Hx. simpl in Hx. rewrite Hpc in Hx. injection Hx as <-.
    unfold loggedOK. split; [done|].
    split; [rewrite Hpm; unfold mover; by rewrite Hpar|].
    split; [by rewrite Hpm|done].
Qed.

(** X10: every move in the log of a state the loop reaches through such
    passes joins two squares of the board, moved a piece of the side whose
    turn it was (white at even positions of the log, black at odd ones),
    and took neither a piece of its own colour nor a king. *)
Theorem driver_logs_only_sound_moves frames gs valid i m :
  Forall (Forall inWindow) frames → Forall quiet frames →
  main frames = Some (gs, valid) →
  moveLog gs !! i = Some m → loggedOK i m.
Proof.
  intros Hwin Hq Hmain.
  apply (Reached_log (gs, valid)), (Reached_main frames); assumption.
Qed.

(** The flags say what the state is. *)
Definition flagsExact (st : GameState * list Move) : Prop :=
  (checkMate st.1 = true ↔ st.2 = [] ∧ inCheck st.1 = Some (true, st.1)) ∧
  (staleMate st.1 = true ↔ st.2 = [] ∧ inCheck st.1 = Some (false, st.1)).

Lemma Sound_flags_clear gs valid :
  Sound (gs, valid) → valid ≠ [] → checkMate gs = false ∧ staleMate gs = false.
Proof.
  intros (Hwf & Hkp & _ & Hv & _) Hne. simpl in *.
  apply getValidMoves_spec in Hv as (_ & _ & _ & _ & Hcases);
    [|done|by apply kingsPlaced_tracked].
  destruct Hcases as [(? & _)|(_ & Heq)]; [done|].
  rewrite Heq. done.
Qed.

Lemma Reached_flags st : Reached st → flagsExact st.
Proof.
  destruct 1 as [gs0 valid0 Hst|gs valid sq1 sq2 move gs1 valid1 gs1' HR
                   Hsq1 Hsq2 Hinit Hin Hmake Hv1].
  - rewrite getValidMoves_init in Hst. unfold initLegal in Hst.
    injection Hst as <- <-.
    split; (split; [done|by intros [? _]]).
  - pose proof (Reached_Sound _ HR) as HS.
    destruct (Sound_move _ _ _ _ _ _ _ _ HS Hsq1 Hsq2 Hinit Hin Hmake Hv1)
      as ((Hwf1' & Hkp1' & _) & Hsame & _ & Hmem & _).
    destruct (Sound_flags_clear gs valid HS) as [Hcm Hsm].
    { intros ->. by apply elem_of_nil in Hmem. }
    pose proof (makeMove_fields _ _ _ Hmake) as (_ & _ & _ & _ & Hcm1 & Hsm1).
    rewrite Hcm in Hcm1. rewrite Hsm in Hsm1.
    assert (wfBoard (board gs1)) as Hwf1.
    { destruct Hsame as (-> & _). done. }
    assert (kingsTracked gs1) as Hk1.
    { apply kingsPlaced_tracked. eapply kingsPlaced_sameGame; [|exact Hkp1'].
      destruct Hsame as (? & ? & ? & ? & ?). by split_and!. }
    apply getValidMoves_spec in Hv1 as (_ & _ & _ & _ & Hcases); [|done..].
    unfold flagsExact. cbn [fst snd].
    destruct Hcases as [(-> & chk & Hchk & Heq)|(Hne & ->)].
    + pose proof (inCheck_ext gs1 gs1' chk Hsame Hchk) as Hchk'.
      rewrite Hchk'. rewrite Heq.
      destruct chk; simpl; rewrite ?Hcm1, ?Hsm1;
        (split;
         (split; [intros H; first [done|split; done]
                 |intros [_ H]; first [done|by injection H]])).
    + simpl. split; (split; [done|by intros [? _]]).
Qed.

(** X11: in every state the loop reaches through such passes, [checkMate]
    is set exactly when the side to move has no legal move and is in check,
    [staleMate] exactly when it has no legal move and is not in check; so
    the two are never set together. *)
Theorem driver_flags_are_exact frames gs valid :
  Forall (Forall inWindow) frames → Forall quiet frames →
  main frames = Some (gs, valid) →
  flagsExact (gs, valid) ∧ ¬ (checkMate gs = true ∧ staleMate gs = true).
Proof.
  intros Hwin Hq Hmain.
  pose proof (Reached_flags _ (Reached_main frames gs valid Hwin Hq Hmain))
    as [Hc Hs].
  clear Hwin Hq Hmain. split; [by split|]. intros [Hc1 Hs1].
  apply Hc in Hc1 as [_ Hc1]. apply Hs in Hs1 as [_ Hs1]. cbn [fst] in *.
  rewrite Hc1 in Hs1. by injection Hs1.
Qed.

(** ** When the driver raises *)

(** X16: a pass that holds at most one mouse click or [z] press, the click
    falling inside the window, and that follows such passes, raises only
    when it holds a click completing a move found [in] the legal moves
    after which a black pawn stands on row 7: the move is made and the
    computation of the next legal moves raises.  A pass without a click
    does not raise. *)
Theorem driver_raises_only_with_black_pawn_on_last_row frames events st :
  Forall (Forall inWindow) frames → Forall quiet frames →
  loop frames = Some st →
  Forall inWindow events → quiet events →
  frame events st = None →
  ∃ location sq1 move gs1,
    MouseDown location ∈ events ∧ Loop.playerClicks st = [Some sq1] ∧
    Move_init sq1 (squareAt location) (board (Loop.gs st)) = Some move ∧
    py_in move (Loop.validMoves st) = true ∧
    makeMove (Loop.gs st) move = Some gs1 ∧ getValidMoves gs1 = None ∧
    ∃ c, 0 <= c < 8 ∧ board_get (board gs1) 7 c = Some bp.
Proof.
  intros Hwin Hq Hloop Hwe Hqe Hf.
  pose proof (Good_loop frames st Hwin Hq Hloop) as HG. clear Hloop.
  destruct (frame_quiet st events HG Hwe Hqe) as [(st1 & Hf' & _)|[_ Hr]];
    [congruence|exact Hr].
Qed.
(** ** Instances *)

(** States of the loop used as instances. *)
Definition loop0 : Loop.t := Loop.mk init [] false true None [].

Definition foolsMateState : GameState * list Move :=
  Eval vm_compute in from_option id (init, []) (main foolsMate).
Definition foolsMateLoop : Loop.t :=
  Eval vm_compute in from_option id loop0 (loop foolsMate).
Definition e2Selected : Loop.t :=
  Eval vm_compute in from_option id loop0 (loop [[click (6, 4)]]).
Definition afterE4 : Loop.t :=
  Eval vm_compute in from_option id loop0 (frame [click (4, 4)] e2Selected).
Definition g2Selected : Loop.t :=
  Eval vm_compute in from_option id loop0 (loop (pawnRun ++ [[click (6, 6)]])).

Lemma inWindow_foolsMate : Forall (Forall inWindow) foolsMate.
Proof. apply play_inWindow. repeat constructor. Qed.

Lemma inWindow_pawnRun : Forall (Forall inWindow) pawnRun.
Proof. apply play_inWindow. repeat constructor. Qed.


Lemma quiet_one e : quiet [e].
Proof. unfold quiet. simpl. destruct (acts e); simpl; lia. Qed.

Lemma inWindow_click sq : onBoard sq = true → Forall inWindow [click sq].
Proof.
  intros Hsq. apply Forall_cons_2; [by apply click_inWindow|apply Forall_nil_2].
Qed.

Lemma inWindow_one sq : onBoard sq = true → Forall (Forall inWindow) [[click sq]].
Proof.
  intros Hsq. apply Forall_cons_2; [by apply inWindow_click|apply Forall_nil_2].
Qed.

Lemma quiet_one_pass e : Forall quiet [[e]].
Proof. apply Forall_cons_2; [apply quiet_one|apply Forall_nil_2]. Qed.

Lemma driver_states_are_sound_witness :
  wfBoard (board foolsMateState.1) ∧ kingsPlaced foolsMateState.1 ∧
  kingNotTakable foolsMateState.1 ∧
  getValidMoves foolsMateState.1 = Some (foolsMateState.2, foolsMateState.1) ∧
  whiteToMove foolsMateState.1 = Nat.even (length (moveLog foolsMateState.1)).
Proof.
  apply (driver_states_are_sound foolsMate).
  - apply inWindow_foolsMate.
  - apply play_quiet.
  - by vm_compute.
Defined.

Lemma driver_undo_reverts_move_witness :
  length (moveLog (Loop.gs afterE4)) = S (length (moveLog (Loop.gs e2Selected))) ∧
  ∃ st2, frame [KeyZ] afterE4 = Some st2 ∧
         Loop.gs st2 = Loop.gs e2Selected ∧
         Loop.validMoves st2 = Loop.validMoves e2Selected.
Proof.
  apply (driver_undo_reverts_move [[click (6, 4)]] [click (4, 4)]).
  - by apply inWindow_one.
  - apply quiet_one_pass.
  - by vm_compute.
  - by apply inWindow_click.
  - apply quiet_one.
  - by vm_compute.
  - vm_compute. lia.
Defined.

Lemma driver_undo_all_returns_to_start_witness :
  ∃ st', run (replicate (length (moveLog (Loop.gs foolsMateLoop))) [KeyZ])
           foolsMateLoop = Some st' ∧
         main [] = Some (Loop.gs st', Loop.validMoves st').
Proof.
  apply (driver_undo_all_returns_to_start foolsMate).
  - apply inWindow_foolsMate.
  - apply play_quiet.
  - by vm_compute.
  - reflexivity.
Defined.

Lemma driver_logs_only_sound_moves_witness :
  loggedOK 3 (mkMove 0 3 4 7 bQ Empty 347).
Proof.
  apply (driver_logs_only_sound_moves foolsMate foolsMateState.1 foolsMateState.2 3).
  - apply inWindow_foolsMate.
  - apply play_quiet.
  - by vm_compute.
  - reflexivity.
Defined.

Lemma driver_flags_are_exact_witness :
  flagsExact foolsMateState ∧
  ¬ (checkMate foolsMateState.1 = true ∧ staleMate foolsMateState.1 = true).
Proof.
  apply (driver_flags_are_exact foolsMate foolsMateState.1 foolsMateState.2).
  - apply inWindow_foolsMate.
  - apply play_quiet.
  - by vm_compute.
Defined.

Lemma driver_raises_only_with_black_pawn_on_last_row_witness :
  ∃ location sq1 move gs1,
    MouseDown location ∈ [click (7, 7)] ∧
    Loop.playerClicks g2Selected = [Some sq1] ∧
    Move_init sq1 (squareAt location) (board (Loop.gs g2Selected)) = Some move ∧
    py_in move (Loop.validMoves g2Selected) = true ∧
    makeMove (Loop.gs g2Selected) move = Some gs1 ∧ getValidMoves gs1 = None ∧
    ∃ c, 0 <= c < 8 ∧ board_get (board gs1) 7 c = Some bp.
Proof.
  apply (driver_raises_only_with_black_pawn_on_last_row
           (pawnRun ++ [[click (6, 6)]])).
  - apply Forall_app. split; [apply inWindow_pawnRun|by apply inWindow_one].
  - apply Forall_app. split; [apply play_quiet|apply quiet_one_pass].
  - by vm_compute.
  - by apply inWindow_click.
  - apply quiet_one.
  - by vm_compute.
Defined.
(** ** Every run of the loop *)

(** The game states made from the initial one by moves built from two
    squares of the board against the current board, legal or not, with any
    value of the two flags. *)
Inductive Played : GameState → Prop :=
| Played_init : Played init
| Played_move s sq1 sq2 m s1 :
    Played s → onBoard sq1 = true → onBoard sq2 = true →
    Move_init sq1 sq2 (board s) = Some m → makeMove s m = Some s1 →
    Played s1
| Played_flags s cm sm : Played s → Played (setFlags cm sm s).

(** The move joins two squares of the board. *)
Definition onBoardMove (m : Move) : Prop :=
  0 <= startRow m < 8 ∧ 0 <= startCol m < 8 ∧
  0 <= endRow m < 8 ∧ 0 <= endCol m < 8.

Lemma Move_init_onBoard sq1 sq2 b m :
  onBoard sq1 = true → onBoard sq2 = true → Move_init sq1 sq2 b = Some m →
  onBoardMove m.
Proof.
  intros [??]%inBounds_range [??]%inBounds_range Hinit.
  apply Move_init_Some in Hinit as (Hsr & Hsc & Her & Hec & _).
  unfold onBoardMove. rewrite Hsr, Hsc, Her, Hec. done.
Qed.

Lemma snapshot_kingAtStart s m :
  kingsTracked s → snapshotOf (board s) m →
  0 <= startRow m < 8 → 0 <= startCol m < 8 → kingAtStart s m.
Proof.
  intros Hk [Hpm _] Hr Hc. destruct (Hk _ _ Hr Hc) as [Hw Hb].
  split; intros Heq; rewrite Heq in Hpm; auto.
Qed.

(** Any move between squares of the board keeps the fields on the kings
    that are on the board. *)
Lemma makeMove_kingsTracked s m s1 :
  wfBoard (board s) → kingsTracked s → snapshotOf (board s) m →
  onBoardMove m → makeMove s m = Some s1 → kingsTracked s1.
Proof.
  intros Hwf Hk Hsnap (Hsr & Hsc & Her & Hec) Hmake r c Hr Hc.
  pose proof (makeMove_board_get s m s1 Hwf Hsnap Hsr Hsc Her Hec Hmake r c Hr Hc)
    as Hget.
  pose proof (makeMove_fields s m s1 Hmake) as (_ & _ & Hw & Hb & _).
  pose proof (snapshot_kingAtStart s m Hk Hsnap Hsr Hsc) as [HwS HbS].
  destruct (Hk r c Hr Hc) as [Hwr Hbr].
  rewrite Hget, Hw, Hb.
  destruct (decide ((r, c) = (endRow m, endCol m))) as [Heq|Hne].
  { split; intros [= ->]; by rewrite decide_True. }
  destruct (decide ((r, c) = (startRow m, startCol m))) as [Heq'|Hne'];
    [split; intros [=]|].
  split; intros Hcell.
  - destruct (decide (pieceMoved m = wK)) as [Hpm|_]; [|by apply Hwr].
    exfalso. apply Hne'. rewrite <- (Hwr Hcell). by apply HwS.
  - destruct (decide (pieceMoved m = bK)) as [Hpm|_]; [|by apply Hbr].
    exfalso. apply Hne'. rewrite <- (Hbr Hcell). by apply HbS.
Qed.

Lemma Played_facts s :
  Played s →
  wfBoard (board s) ∧ kingsTracked s ∧
  whiteToMove s = Nat.even (length (moveLog s)) ∧
  Forall onBoardMove (moveLog s).
Proof.
  induction 1 as [|s sq1 sq2 m s1 _ (Hwf & Hk & Hpar & Hlog) Hsq1 Hsq2 Hinit Hmake
                 |s cm sm _ IH].
  - split_and!; [apply wfBoard_init|apply kingsTracked_init|done|constructor].
  - pose proof (Move_init_snapshot _ _ _ _ Hinit) as Hsnap.
    pose proof (Move_init_onBoard _ _ _ _ Hsq1 Hsq2 Hinit) as Hon.
    destruct (makeMove_is_Some s m Hwf Hsnap) as (s1' & Hmake' & Hwf1 & _).
    rewrite Hmake in Hmake'. injection Hmake' as <-.
    pose proof (makeMove_fields _ _ _ Hmake) as (Hturn & Hl & _).
    split_and!; [done| | |].
    + exact (makeMove_kingsTracked s m s1 Hwf Hk Hsnap Hon Hmake).
    + rewrite Hturn, Hl, length_app, Hpar. simpl. rewrite Nat.add_1_r.
      by rewrite Nat.even_succ, <- Nat.negb_even.
    + rewrite Hl. apply Forall_app. split; [done|]. by apply Forall_singleton.
  - exact IH.
Qed.

Lemma undoMove_setFlags cm sm s :
  undoMove (setFlags cm sm s) = setFlags cm sm <$> undoMove s.
Proof.
  unfold undoMove. cbn [setFlags moveLog board]. destruct (last (moveLog s)); [|done].
  destruct (board_set (board s) _ _ _) as [b1|]; [|done]. cbn [mbind option_bind].
  destruct (board_set b1 _ _ _) as [b2|]; done.
Qed.

(** [undoMove] returns in such a state, gives such a state, and takes one
    move off a log that is not empty. *)
Lemma Played_undo s :
  Played s →
  ∃ s', undoMove s = Some s' ∧ Played s' ∧
        length (moveLog s') = pred (length (moveLog s)).
Proof.
  induction 1 as [|s sq1 sq2 m s1 HP _ Hsq1 Hsq2 Hinit Hmake
                 |s cm sm _ (s' & Hu & HP' & Hlen)].
  - exists init. split_and!; [done|constructor|done].
  - pose proof (Played_facts s HP) as (Hwf & Hk & _).
    pose proof (Move_init_snapshot _ _ _ _ Hinit) as Hsnap.
    destruct (Move_init_onBoard _ _ _ _ Hsq1 Hsq2 Hinit) as (Hsr & Hsc & _).
    exists s. split_and!; [|done|].
    + eapply makeMove_undoMove; [done..| |done].
      by apply snapshot_kingAtStart.
    + pose proof (makeMove_fields _ _ _ Hmake) as (_ & Hl & _).
      rewrite Hl, length_app. simpl. lia.
  - exists (setFlags cm sm s'). rewrite undoMove_setFlags, Hu.
    split_and!; [done|by constructor|done].
Qed.

Lemma Played_sameGame s t : sameGame s t → Played s → Played t.
Proof.
  intros Hst HP. rewrite (sameGame_eq s t Hst). by constructor.
Qed.

Lemma Played_nil s : Played s → moveLog s = [] → sameGame init s.
Proof.
  induction 1 as [|s sq1 sq2 m s1 _ _ _ _ _ Hmake|s cm sm _ IH]; intros Hlog.
  - done.
  - pose proof (makeMove_fields _ _ _ Hmake) as (_ & Hl & _).
    rewrite Hl in Hlog. by destruct (moveLog s).
  - specialize (IH Hlog). destruct IH as (? & ? & ? & ? & ?). by split_and!.
Qed.

(** [getValidMoves] returns on an 8x8 board with tracked kings and no
    black pawn on row 7. *)
Lemma getValidMoves_total s :
  wfBoard (board s) → kingsTracked s → lastRowClear (board s) →
  is_Some (getValidMoves s).
Proof.
  intros Hwf Hk Hclear.
  destruct (getAllPossibleMoves_total s Hwf) as [cands Hcands]; [done|].
  pose proof (getAllPossibleMoves_pseudo _ _ Hwf Hcands) as [Hps _].
  destruct (getValidMoves_returns s cands Hwf Hk Hcands) as (chk & _ & Hret).
  - eapply Forall_impl; [exact Hps|]. intros m Hm. by apply exposes_total.
  - intros _. destruct (inCheck_total s) as [chk Hchk]; [|by rewrite Hchk].
    by apply getAllPossibleMoves_total.
  - by rewrite Hret.
Qed.

(** What [getValidMoves] returns is up to date in the state it leaves. *)
Lemma getValidMoves_fresh s valid s' :
  wfBoard (board s) → kingsTracked s →
  getValidMoves s = Some (valid, s') →
  sameGame s s' ∧ getValidMoves s' = Some (valid, s').
Proof.
  intros Hwf Hk Hv.
  assert (sameGame s s') as Hsame.
  { pose proof Hv as Hspec.
    apply getValidMoves_spec in Hspec as (_ & _ & _ & _ & Hcases); [|done..].
    destruct Hcases as [(_ & chk & _ & ->)|(_ & ->)]; [by destruct chk|done]. }
  split; [done|].
  destruct (getValidMoves_ext s s' valid s' Hwf Hk Hsame Hv) as (chk & Heq & Hagain).
  rewrite Hagain. do 2 f_equal. rewrite Heq. apply flagsAfter_idem.
Qed.
(** At any point of a run: the game state was made by moves between squares
    of the board and the selection is in order. *)
Definition Kept (st : Loop.t) : Prop := Played (Loop.gs st) ∧ selOK st.

(** Handling an event returns.  It does not touch the legal moves held, and
    it changes the game state only with [moveMade] set. *)
Lemma handle_Kept st e :
  Kept st → inWindow e →
  ∃ st', handle st e = Some st' ∧ Kept st' ∧
    Loop.validMoves st' = Loop.validMoves st ∧
    (Loop.moveMade st' = true ∨
     (Loop.gs st' = Loop.gs st ∧ Loop.moveMade st' = Loop.moveMade st)).
Proof.
  intros [HP Hsel] Hwin. pose proof (Played_facts _ HP) as (Hwf & _).
  destruct e as [|location| |]; cbn [handle].
  - eexists. split; [done|]. split; [by split|]. split; [done|by right].
  - destruct (mouseDown_cases st location Hwf Hsel Hwin)
      as (st1 & Hst1 & Hsel1 & _ & Hval1 & Hcases).
    exists st1. split; [done|].
    destruct Hcases as [[Hgs Hmm]|(sq1 & move & _ & Hsq1 & Hinit & _ & Hmake & Hmm)].
    + split; [split; [by rewrite Hgs|done]|]. split; [done|by right].
    + split; [split; [|done]|by split; [|left]].
      exact (Played_move (Loop.gs st) sq1 (squareAt location) move (Loop.gs st1)
               HP Hsq1 (squareAt_onBoard _ Hwin) Hinit Hmake).
  - destruct (Played_undo _ HP) as (s' & Hu & HP' & _). rewrite Hu.
    eexists. split; [done|]. split; [by split|]. split; [done|by left].
  - exists st. split; [done|]. split; [by split|]. split; [done|by right].
Qed.

Lemma handleAll_Kept events st :
  Kept st → Forall inWindow events →
  ∃ st', handleAll events st = Some st' ∧ Kept st' ∧
    Loop.validMoves st' = Loop.validMoves st ∧
    (Loop.moveMade st' = true ∨
     (Loop.gs st' = Loop.gs st ∧ Loop.moveMade st' = Loop.moveMade st)).
Proof.
  intros HK Hwin. revert st HK. induction Hwin as [|e rest He _ IH]; intros st HK.
  { exists st. split; [done|]. split; [done|]. split; [done|by right]. }
  destruct (handle_Kept st e HK He) as (st1 & Hst1 & HK1 & Hval1 & Hc1).
  destruct (IH st1 HK1) as (st2 & Hst2 & HK2 & Hval2 & Hc2).
  exists st2. cbn [handleAll]. rewrite Hst1. cbn [mbind option_bind].
  split; [done|]. split; [done|]. split; [congruence|].
  destruct Hc2 as [Hc2|[Hgs2 Hmm2]]; [by left|].
  destruct Hc1 as [Hc1|[Hgs1 Hmm1]]; [left; congruence|right; split; congruence].
Qed.

(** Between two passes: moreover [moveMade] is down and the legal moves
    held are those of the game state held. *)
Definition Settled (st : Loop.t) : Prop :=
  Kept st ∧ Loop.moveMade st = false ∧
  getValidMoves (Loop.gs st) = Some (Loop.validMoves st, Loop.gs st).

(** The events of the pass were handled, a move was made or undone among
    them, a black pawn stands on row 7 and [getValidMoves] raises. *)
Definition raisesAtEnd (st : Loop.t) (events : list event) : Prop :=
  ∃ st1, handleAll events st = Some st1 ∧ Loop.moveMade st1 = true ∧
    getValidMoves (Loop.gs st1) = None ∧
    ∃ c, 0 <= c < 8 ∧ board_get (board (Loop.gs st1)) 7 c = Some bp.

Lemma frame_any st events :
  Settled st → Forall inWindow events →
  (∃ st', frame events st = Some st' ∧ Settled st') ∨
  (frame events st = None ∧ raisesAtEnd st events).
Proof.
  intros (HK & Hmm & Hfresh) Hwin.
  destruct (handleAll_Kept events st HK Hwin) as (st1 & Hst1 & [HP1 Hsel1] & Hval1 & Hc1).
  unfold frame. rewrite Hst1. cbn [mbind option_bind].
  pose proof (Played_facts _ HP1) as (Hwf1 & Hk1 & _).
  destruct (Loop.moveMade st1) eqn:Hmm1.
  - destruct (getValidMoves (Loop.gs st1)) as [[valid1 gs1']|] eqn:Hv1;
      cbn [mbind option_bind].
    + left. eexists. split; [done|].
      destruct (getValidMoves_fresh _ _ _ Hwf1 Hk1 Hv1) as [Hsame Hagain].
      split; [split; [by apply (Played_sameGame (Loop.gs st1))|done]|].
      split; [done|exact Hagain].
    + right. split; [done|]. exists st1. split_and!; [done..|].
      destruct (lastRowClear_dec (board (Loop.gs st1))) as [Hclear|Hex]; [|done].
      destruct (getValidMoves_total _ Hwf1 Hk1 Hclear) as [x Hx]. congruence.
  - left. exists st1. split; [done|].
    destruct Hc1 as [?|[Hgs1 _]]; [done|].
    split; [by split|]. split; [done|]. by rewrite Hgs1, Hval1.
Qed.

Lemma Settled_run frames st st' :
  Forall (Forall inWindow) frames →
  Settled st → run frames st = Some st' → Settled st'.
Proof.
  intros Hwin. revert st. induction Hwin as [|events rest Hw _ IH];
    intros st HS Hrun.
  { simpl in Hrun. by injection Hrun as <-. }
  simpl in Hrun. destruct (Loop.running st); [|by injection Hrun as <-].
  destruct (frame_any st events HS Hw) as [(st1 & Hf & HS1)|[Hf _]];
    rewrite Hf in Hrun; [|done].
  cbn [mbind option_bind] in Hrun. by apply (IH st1).
Qed.

Lemma Settled_start st : start = Some st → Settled st.
Proof.
  unfold start. intros H. apply bind_Some in H as ([valid gs] & Hv & H).
  injection H as <-.
  destruct (getValidMoves_fresh init valid gs wfBoard_init kingsTracked_init Hv)
    as [Hsame Hagain].
  split; [split|split; [reflexivity|exact Hagain]].
  - exact (Played_sameGame init gs Hsame Played_init).
  - left. split; reflexivity.
Qed.

Lemma Settled_loop frames st :
  Forall (Forall inWindow) frames → loop frames = Some st → Settled st.
Proof.
  intros Hwin Hloop. rewrite loop_unfold in Hloop.
  apply bind_Some in Hloop as (st0 & Hstart & Hrun).
  apply (Settled_run frames st0); [done|by apply Settled_start|exact Hrun].
Qed.

(** X18: whatever the events of each pass (several clicks and [z] presses
    in one pass included), as long as the clicks fall inside the window: in
    the state the loop has reached the board is 8x8, each king-location
    field names every square that holds that king, it is white's turn
    exactly when the move log has even length, every move of the log joins
    two squares of the board, and the legal moves held are what
    [getValidMoves] returns in the game state held, which it leaves as it
    is. *)
Theorem driver_holds_the_legal_moves_of_its_state frames gs valid :
  Forall (Forall inWindow) frames → main frames = Some (gs, valid) →
  wfBoard (board gs) ∧ kingsTracked gs ∧
  whiteToMove gs = Nat.even (length (moveLog gs)) ∧
  Forall onBoardMove (moveLog gs) ∧
  getValidMoves gs = Some (valid, gs).
Proof.
  intros Hwin Hmain. rewrite main_unfold in Hmain.
  apply bind_Some in Hmain as (st & Hloop & [= <- <-]).
  destruct (Settled_loop frames st Hwin Hloop) as ([HP _] & _ & Hfresh).
  clear Hloop. destruct (Played_facts _ HP) as (? & ? & ? & ?). done.
Qed.

(** X19: whatever the events of the passes before and of this one, the
    clicks falling inside the window: handling the events of a pass never
    raises; the pass raises only in the [getValidMoves] at its end, after
    a move was made or undone, and only when a black pawn stands on
    row 7. *)
Theorem driver_raises_only_at_the_end_of_a_pass frames events st :
  Forall (Forall inWindow) frames → loop frames = Some st →
  Forall inWindow events →
  is_Some (handleAll events st) ∧
  (frame events st = None →
   ∃ st1, handleAll events st = Some st1 ∧ Loop.moveMade st1 = true ∧
     getValidMoves (Loop.gs st1) = None ∧
     ∃ c, 0 <= c < 8 ∧ board_get (board (Loop.gs st1)) 7 c = Some bp).
Proof.
  intros Hwin Hloop Hwe.
  pose proof (Settled_loop frames st Hwin Hloop) as HS. clear Hloop.
  split.
  - destruct HS as (HK & _).
    destruct (handleAll_Kept events st HK Hwe) as (st1 & Hst1 & _). by exists st1.
  - intros Hf. destruct (frame_any st events HS Hwe) as [(st1 & Hf' & _)|[_ Hr]];
      [congruence|exact Hr].
Qed.
Lemma init_legal_nonempty : ∃ v vs gs0, getValidMoves init = Some (v :: vs, gs0).
Proof. rewrite getValidMoves_init. unfold initLegal. by eexists _, _, _. Qed.

(** With an empty log the game state is the initial one, the legal moves
    are those the loop started with, and the flags come out as at the
    start. *)
Lemma back_at_start s :
  Played s → moveLog s = [] →
  ∃ valid s', getValidMoves s = Some (valid, s') ∧ main [] = Some (s', valid).
Proof.
  intros HP Hlog. pose proof (Played_nil s HP Hlog) as Hsame.
  destruct init_legal_nonempty as (v & vs & gs0 & H0).
  destruct (getValidMoves_ext init s (v :: vs) gs0 wfBoard_init kingsTracked_init
              Hsame H0) as (chk & Heq & Hs).
  exists (v :: vs), (flagsAfter (v :: vs) chk s). split; [exact Hs|].
  rewrite main_unfold, loop_unfold. unfold start. rewrite H0. clear H0 Hs.
  cbn [mbind option_bind run Loop.gs Loop.validMoves]. do 2 f_equal.
  rewrite Heq. cbn [flagsAfter]. destruct Hsame as (Hb & Ht & Hl & Hw & Hk).
  unfold setFlags. by rewrite Hb, Ht, Hl, Hw, Hk.
Qed.

Lemma undo_all n st :
  Kept st →
  ∃ st', handleAll (replicate n KeyZ) st = Some st' ∧ Played (Loop.gs st') ∧
    length (moveLog (Loop.gs st')) = (length (moveLog (Loop.gs st)) - n)%nat ∧
    (n = 0%nat → st' = st) ∧ (n ≠ 0%nat → Loop.moveMade st' = true).
Proof.
  revert st. induction n as [|n IH]; intros st [HP Hsel].
  { exists st. split_and!; [done|done|cbn; lia|done|done]. }
  destruct (Played_undo _ HP) as (s' & Hu & HP' & Hlen).
  cbn [replicate handleAll handle]. rewrite Hu. cbn [mbind option_bind].
  match goal with |- context [handleAll _ ?st1] =>
    destruct (IH st1) as (st' & Hst' & HP'' & Hlen' & H0 & Hn0); [by split|] end.
  exists st'. split; [done|]. split; [done|].
  cbn [Loop.gs] in Hlen'. split; [lia|]. split; [done|]. intros _.
  destruct n as [|n]; [by rewrite (H0 eq_refl)|by apply Hn0].
Qed.

(** X20: whatever the events of the passes so far, the clicks falling
    inside the window: one pass that holds as many [z] presses as the move
    log is long brings back the game state and the legal moves the loop
    started with. *)
Theorem driver_undo_all_in_one_pass frames st :
  Forall (Forall inWindow) frames → loop frames = Some st →
  ∃ st', frame (replicate (length (moveLog (Loop.gs st))) KeyZ) st = Some st' ∧
         main [] = Some (Loop.gs st', Loop.validMoves st').
Proof.
  intros Hwin Hloop.
  destruct (Settled_loop frames st Hwin Hloop) as (HK & Hmm & Hfresh).
  clear Hloop.
  destruct (undo_all (length (moveLog (Loop.gs st))) st HK)
    as (st1 & Hst1 & HP1 & Hlen & H0 & Hn0).
  assert (moveLog (Loop.gs st1) = []) as Hnil by (apply nil_length_inv; lia).
  destruct (back_at_start _ HP1 Hnil) as (valid & s' & Hv & Hmain).
  unfold frame. rewrite Hst1. cbn [mbind option_bind].
  destruct (length (moveLog (Loop.gs st))) as [|n] eqn:Hn.
  - rewrite (H0 eq_refl) in Hv |- *. rewrite Hmm. exists st. split; [done|].
    rewrite Hfresh in Hv. injection Hv as <- <-. exact Hmain.
  - rewrite Hn0 by done. rewrite Hv. cbn [mbind option_bind].
    eexists. split; [done|]. exact Hmain.
Qed.

(** 1. f3 e5 2. g4, then a pass in which [z] and the clicks on d8 and h4
    all arrive. *)
Definition staleQueen : list (list event) :=
  play [((6, 5), (5, 5)); ((1, 4), (3, 4)); ((6, 6), (4, 6))]
  ++ [[KeyZ; click (0, 3); click (4, 7)]].

Definition undoneG4 : list (list event) :=
  play [((6, 5), (5, 5)); ((1, 4), (3, 4)); ((6, 6), (4, 6))] ++ [[KeyZ]].

Definition afterUndoneG4 : option (GameState * list Move) :=
  Eval vm_compute in main undoneG4.
Definition afterStaleQueen : option (GameState * list Move) :=
  Eval vm_compute in main staleQueen.
Definition afterKingTaken : option (GameState * list Move) :=
  Eval vm_compute in main (staleQueen ++ clicks (4, 7) (7, 4)).

Lemma main_undoneG4 : main undoneG4 = afterUndoneG4.
Proof. by vm_compute. Qed.
Lemma main_staleQueen : main staleQueen = afterStaleQueen.
Proof. by vm_compute. Qed.
Lemma main_kingTaken : main (staleQueen ++ clicks (4, 7) (7, 4)) = afterKingTaken.
Proof. by vm_compute. Qed.

(** X21: the legal moves are computed once per pass, after its events, so
    a move made late in a pass is looked up in the list of the position
    the pass started in.  After 1. f3 e5 2. g4 black is to move and its
    legal moves hold the queen move d8-h4.  When [z] and the clicks on d8
    and h4 arrive in one pass, g4 is undone, white is to move, the queen
    move is not legal for white (a pass with [z] alone leaves a list
    without it), and it is made all the same: the log holds it at an even
    position and black is to move again.  The legal moves then computed
    hold the queen's capture of the white king on e1; once it is made no
    square holds the white king. *)
Theorem driver_looks_moves_up_in_the_list_of_the_pass_start :
  ∃ gsU validU m3 gs valid k gs2 valid2,
    main undoneG4 = Some (gsU, validU) ∧ whiteToMove gsU = true ∧
    Move_init (0, 3) (4, 7) (board gsU) = Some m3 ∧ pieceMoved m3 = bQ ∧
    py_in m3 validU = false ∧
    main staleQueen = Some (gs, valid) ∧
    moveLog gs = moveLog gsU ++ [m3] ∧ length (moveLog gsU) = 2%nat ∧
    whiteToMove gs = false ∧
    k ∈ valid ∧ coords k = (4, 7, 7, 4) ∧ pieceMoved k = bQ ∧
    pieceCaptured k = wK ∧
    main (staleQueen ++ clicks (4, 7) (7, 4)) = Some (gs2, valid2) ∧
    board_get (board gs2) 7 4 = Some bQ ∧ whiteKingLocation gs2 = (7, 4) ∧
    ¬ kingsPlaced gs2.
Proof.
  pose proof main_undoneG4 as HU. unfold afterUndoneG4 in HU.
  pose proof main_staleQueen as HS. unfold afterStaleQueen in HS.
  pose proof main_kingTaken as HK. unfold afterKingTaken in HK.
  eexists _, _, _, _, _, (mkMove 4 7 7 4 bQ wK 4774), _, _.
  split; [exact HU|]. clear HU. split; [done|]. split; [reflexivity|].
  split; [done|]. split; [by vm_compute|].
  split; [exact HS|]. clear HS. split; [done|]. split; [done|]. split; [done|].
  split; [apply (bool_decide_unpack _); by vm_compute|].
  split; [done|]. split; [done|]. split; [done|].
  split; [exact HK|]. clear HK. split; [done|]. split; [done|].
  intros (_ & _ & Hk). destruct (Hk 7 4) as [[_ Hw] _]; [lia..|].
  specialize (Hw eq_refl). by vm_compute in Hw.
Qed.

Definition staleQueenState : GameState * list Move :=
  Eval vm_compute in from_option id (init, []) (main staleQueen).
Definition staleQueenLoop : Loop.t :=
  Eval vm_compute in from_option id loop0 (loop staleQueen).

Lemma inWindow_staleQueen : Forall (Forall inWindow) staleQueen.
Proof.
  apply Forall_app. split; [apply play_inWindow; repeat constructor|].
  apply Forall_cons_2; [|apply Forall_nil_2].
  apply Forall_cons_2; [exact I|].
  apply Forall_cons_2; [by apply click_inWindow|by apply inWindow_click].
Qed.

Lemma driver_holds_the_legal_moves_of_its_state_witness :
  wfBoard (board staleQueenState.1) ∧ kingsTracked staleQueenState.1 ∧
  whiteToMove staleQueenState.1
  = Nat.even (length (moveLog staleQueenState.1)) ∧
  Forall onBoardMove (moveLog staleQueenState.1) ∧
  getValidMoves staleQueenState.1 = Some (staleQueenState.2, staleQueenState.1).
Proof.
  apply (driver_holds_the_legal_moves_of_its_state staleQueen).
  - apply inWindow_staleQueen.
  - by vm_compute.
Defined.

Lemma driver_raises_only_at_the_end_of_a_pass_witness :
  is_Some (handleAll [click (7, 7)] g2Selected) ∧
  (frame [click (7, 7)] g2Selected = None →
   ∃ st1, handleAll [click (7, 7)] g2Selected = Some st1 ∧
     Loop.moveMade st1 = true ∧ getValidMoves (Loop.gs st1) = None ∧
     ∃ c, 0 <= c < 8 ∧ board_get (board (Loop.gs st1)) 7 c = Some bp).
Proof.
  apply (driver_raises_only_at_the_end_of_a_pass (pawnRun ++ [[click (6, 6)]])).
  - apply Forall_app. split; [apply inWindow_pawnRun|by apply inWindow_one].
  - by vm_compute.
  - by apply inWindow_click.
Defined.

Lemma driver_undo_all_in_one_pass_witness :
  ∃ st', frame (replicate (length (moveLog (Loop.gs staleQueenLoop))) KeyZ)
           staleQueenLoop = Some st' ∧
         main [] = Some (Loop.gs st', Loop.validMoves st').
Proof.
  apply (driver_undo_all_in_one_pass staleQueen).
  - apply inWindow_staleQueen.
  - by vm_compute.
Defined.
